(** * timg: display fitting, label templates, decoder probing, APNG sniffing

    A shallow embedding of [src/image-source.cc], the properties of it
    that the specification states, and further properties of the code.

    - [int] is a 32-bit two's complement integer, carried as a [Z] with the
      wrap-around written out where the code multiplies.
    - [float] and [double] are IEEE 754 binary32 and binary64: an operation
      computes the exact rational result and rounds it to the nearest value
      of the format, ties to even, each operation in the format of its C++
      type.  The rationals are Stdlib's [Q].
    - [size_t] is 64 bits wide. *)

From Stdlib Require Import ZArith QArith Qround Qabs Qpower Qminmax.
From Stdlib Require Import Lia Lqa Bool List.
From Stdlib Require Import Ascii String DecimalString.
From Stdlib Require Floats.SpecFloat DecimalPos.
Import ListNotations.

Local Open Scope Z_scope.

(* ================================================================= *)
(** ** 32-bit integers *)

Definition INT_MIN : Z := - 2 ^ 31.
Definition INT_MAX : Z := 2 ^ 31 - 1.

Definition is_int (n : Z) : Prop := INT_MIN <= n <= INT_MAX.

(** Two's complement wrap-around of a mathematical result into [int]. *)
Definition wrap32 (n : Z) : Z := (n + 2 ^ 31) mod 2 ^ 32 - 2 ^ 31.

Definition int_mul (a b : Z) : Z := wrap32 (a * b).

(** C++ integer division truncates towards zero. *)
Definition int_div (a b : Z) : Z := Z.quot a b.

(* ================================================================= *)
(** ** IEEE 754 binary floating point *)

(** A format: [prec] bits of significand, least exponent [emin] (the weight
    of the last bit of a subnormal), and [emax] with every finite value
    below [2 ^ emax] in magnitude. *)
Record format : Set := Format { prec : Z; emin : Z; emax : Z }.

Definition binary32 : format := Format 24 (-149) 128.
Definition binary64 : format := Format 53 (-1074) 1024.

(** A floating point datum.  The sign of zero is not tracked: it is only
    observable in this program through [1.0f / width_stretch] at a stretch
    of negative zero. *)
Inductive float : Type :=
| Fin (q : Q)
| Inf (neg : bool)
| NaN.

Definition two : Q := 2 # 1.

(** [Qlog2 x] is the integer [l] with [2^l <= x < 2^(l+1)], for [0 < x]. *)
Definition Qlog2 (x : Q) : Z :=
  let l := Z.log2 (Qnum x) - Z.log2 (Zpos (Qden x)) in
  if Qle_bool (two ^ l) x then l else l - 1.

(** Nearest integer, ties to the even one. *)
Definition Qrne (x : Q) : Z :=
  let f := Qfloor x in
  match ((x - inject_Z f) ?= (1 # 2))%Q with
  | Lt => f
  | Gt => f + 1
  | Eq => if Z.even f then f else f + 1
  end.

(** The exponent of the last significand bit of the format at [x]. *)
Definition ulp_exp (fmt : format) (x : Q) : Z :=
  Z.max (Qlog2 (Qabs x) - (prec fmt - 1)) (emin fmt).

(** Rounding to nearest-even with an unbounded exponent range above. *)
Definition round_fin (fmt : format) (x : Q) : Q :=
  let e := ulp_exp fmt x in
  (inject_Z (Qrne (x / two ^ e)) * two ^ e)%Q.

(** Rounding of an exact result: overflow gives an infinity. *)
Definition rnd (fmt : format) (x : Q) : float :=
  let r := round_fin fmt x in
  if Qle_bool (two ^ emax fmt) (Qabs r)
  then Inf (negb (Qle_bool 0 r))
  else Fin (Qred r).

Definition Qneg (x : Q) : bool := negb (Qle_bool 0 x).
Definition Qzero (x : Q) : bool := Qeq_bool x 0.

Definition fmul (fmt : format) (a b : float) : float :=
  match a, b with
  | Fin x, Fin y => rnd fmt (x * y)
  | Fin x, Inf s | Inf s, Fin x =>
      if Qzero x then NaN else Inf (xorb s (Qneg x))
  | Inf s, Inf t => Inf (xorb s t)
  | _, _ => NaN
  end.

Definition fdiv (fmt : format) (a b : float) : float :=
  match a, b with
  | Fin x, Fin y =>
      if Qzero y then (if Qzero x then NaN else Inf (Qneg x))
      else rnd fmt (x / y)
  | Fin _, Inf _ => Fin 0
  | Inf s, Fin y => Inf (xorb s (Qneg y))
  | _, _ => NaN
  end.

(** Comparisons; any comparison with a NaN is false. *)
Definition flt (a b : float) : bool :=
  match a, b with
  | Fin x, Fin y => negb (Qle_bool y x)
  | Fin _, Inf s => negb s
  | Inf s, Fin _ => s
  | Inf s, Inf t => s && negb t
  | _, _ => false
  end.

Definition fgt (a b : float) : bool := flt b a.

(** Conversion of an [int]: rounded in binary32, exact in binary64. *)
Definition of_int (fmt : format) (n : Z) : float := rnd fmt (inject_Z n).

(** Truncation towards zero. *)
Definition Qtrunc (x : Q) : Z :=
  if Qle_bool 0 x then Qfloor x else Qceiling x.

(** Conversion to [int].  A value outside the range of [int] (or a NaN) is
    undefined behaviour in C++; the model gives what the x86-64 conversion
    instructions give, the "integer indefinite" value [INT_MIN]. *)
Definition to_int (a : float) : Z :=
  match a with
  | Fin x => let t := Qtrunc x in
             if (INT_MIN <=? t) && (t <=? INT_MAX) then t else INT_MIN
  | _ => INT_MIN
  end.

(** [roundf]: nearest integer, halfway cases away from zero.  The result
    is representable, so nothing is rounded a second time. *)
Definition Qround_away (x : Q) : Z :=
  if Qle_bool 0 x then Qfloor (x + (1 # 2)) else Qceiling (x - (1 # 2)).

Definition roundf (a : float) : float :=
  match a with
  | Fin x => Fin (inject_Z (Qround_away x))
  | _ => a
  end.

(** [floor]; its result is representable as well. *)
Definition ffloor (a : float) : float :=
  match a with
  | Fin x => Fin (inject_Z (Qfloor x))
  | _ => a
  end.

Definition f32_of_int : Z -> float := of_int binary32.
Definition f64_of_int : Z -> float := of_int binary64.
Definition fmul32 := fmul binary32.
Definition fdiv32 := fdiv binary32.
Definition fmul64 := fmul binary64.

(* ================================================================= *)
(** ** Display options and [ImageSource::CalcScaleToFitDisplay] *)

(** Modelled from the spec: [display-options.h] is not among the sources.
    These are the fields of [DisplayOptions] that [CalcScaleToFitDisplay]
    reads, with the types the code uses them at. *)
Record DisplayOptions : Type := {
  width : Z;
  height : Z;
  fill_width : bool;
  fill_height : bool;
  upscale : bool;
  upscale_integer : bool;
  width_stretch : float;
  cell_x_px : Z;
  cell_y_px : Z
}.

Definition set_width (o : DisplayOptions) (w : Z) : DisplayOptions :=
  {| width := w; height := height o;
     fill_width := fill_width o; fill_height := fill_height o;
     upscale := upscale o; upscale_integer := upscale_integer o;
     width_stretch := width_stretch o;
     cell_x_px := cell_x_px o; cell_y_px := cell_y_px o |}.

Definition set_height (o : DisplayOptions) (h : Z) : DisplayOptions :=
  {| width := width o; height := h;
     fill_width := fill_width o; fill_height := fill_height o;
     upscale := upscale o; upscale_integer := upscale_integer o;
     width_stretch := width_stretch o;
     cell_x_px := cell_x_px o; cell_y_px := cell_y_px o |}.

Definition one32 : float := Fin 1.

(** [if (fit_in_rotated) { swap ...; width_stretch = 1.0f / ... }] *)
Definition rotate_options (o : DisplayOptions) : DisplayOptions :=
  {| width := height o; height := width o;
     fill_width := fill_height o; fill_height := fill_width o;
     upscale := upscale o; upscale_integer := upscale_integer o;
     width_stretch := fdiv32 one32 (width_stretch o);
     cell_x_px := cell_x_px o; cell_y_px := cell_y_px o |}.

Definition kMaxAcceptFactor : float := Fin 5.

(** [1 / kMaxAcceptFactor], a binary32 division. *)
Definition kMinAcceptFactor : float := fdiv32 (f32_of_int 1) kMaxAcceptFactor.

(** "Clamp stretch to reasonable values." *)
Definition clamp_stretch (ws : float) : float :=
  let ws := if fgt ws kMaxAcceptFactor then kMaxAcceptFactor else ws in
  if flt ws kMinAcceptFactor then kMinAcceptFactor else ws.

(** The options after the optional rotation and after the stretch has been
    taken out of the available space ([options.width /= width_stretch] or
    [options.height *= width_stretch], on [int] fields). *)
Definition effective_options (orig_options : DisplayOptions)
    (fit_in_rotated : bool) : DisplayOptions * float :=
  let options :=
    if fit_in_rotated then rotate_options orig_options else orig_options in
  let ws := clamp_stretch (width_stretch options) in
  let options :=
    if fgt ws one32
    then set_width options (to_int (fdiv32 (f32_of_int (width options)) ws))
    else set_height options (to_int (fmul32 (f32_of_int (height options)) ws))
  in (options, ws).

Definition width_fraction (options : DisplayOptions) (img_width : Z) : float :=
  fdiv32 (f32_of_int (width options)) (f32_of_int img_width).

Definition height_fraction (options : DisplayOptions) (img_height : Z) : float :=
  fdiv32 (f32_of_int (height options)) (f32_of_int img_height).

(** The condition of the early return: "If the image < screen, only
    upscale if do_upscale requested". *)
Definition no_scaling_needed (options : DisplayOptions)
    (img_width img_height : Z) : bool :=
  negb (upscale options)
  && (fill_height options || fgt (width_fraction options img_width) one32)
  && (fill_width options || fgt (height_fraction options img_height) one32).

(** The four fitting policies, lines 88-118. *)
Definition fit_by_policy (options : DisplayOptions)
    (img_width img_height : Z) : Z * Z :=
  let wf := width_fraction options img_width in
  let hf := height_fraction options img_height in
  let scaled (fraction : float) (n : Z) : Z :=
    to_int (roundf (fmul32 fraction (f32_of_int n))) in
  if fill_width options && fill_height options then
    let larger_fraction := if fgt wf hf then wf else hf in
    (scaled larger_fraction img_width, scaled larger_fraction img_height)
  else if fill_height options then
    (scaled hf img_width, height options)
  else if fill_width options then
    (width options, scaled wf img_height)
  else
    let smaller_fraction := if flt wf hf then wf else hf in
    (scaled smaller_fraction img_width, scaled smaller_fraction img_height).

(** [*target_width *= width_stretch] or [*target_height /= width_stretch]. *)
Definition restretch (ws : float) (t : Z * Z) : Z * Z :=
  let '(tw, th) := t in
  if fgt ws one32
  then (to_int (fmul32 (f32_of_int tw) ws), th)
  else (tw, to_int (fdiv32 (f32_of_int th) ws)).

(** "floor() to next full character cell size but only if we in one of the
    block modes." *)
Definition quantize (options : DisplayOptions) (t : Z * Z) : Z * Z :=
  let '(tw, th) := t in
  let cx := cell_x_px options in
  let cy := cell_y_px options in
  if (0 <? cx) && (cx <=? 2) && (0 <? cy) && (cy <=? 2)
  then (int_mul (int_div tw cx) cx, int_mul (int_div th cy) cy)
  else (tw, th).

(** "Don't scale down to nothing..." *)
Definition at_least_one (t : Z * Z) : Z * Z :=
  let '(tw, th) := t in
  ((if tw <=? 0 then 1 else tw), (if th <=? 0 then 1 else th)).

(** [aspect_correct], an [int] stored in a [float]. *)
Definition aspect_correct (options : DisplayOptions) : float :=
  if cell_x_px options =? 2 then f32_of_int 2 else f32_of_int 1.

(** [smaller_factor] of the integer upscaling, lines 143-145. *)
Definition smaller_factor (options : DisplayOptions)
    (img_width img_height : Z) (t : Z * Z) : float :=
  let '(tw, th) := t in
  let wf := fdiv32 (fdiv32 (fmul32 one32 (f32_of_int tw))
                           (aspect_correct options))
                   (f32_of_int img_width) in
  let hf := fdiv32 (fmul32 one32 (f32_of_int th)) (f32_of_int img_height) in
  if flt wf hf then wf else hf.

(** Lines 139-150.  [floor] is the [double] function of <cmath>, hence the
    products are binary64 products, converted to [int] on assignment. *)
Definition integer_upscale (options : DisplayOptions)
    (img_width img_height : Z) (t : Z * Z) : Z * Z :=
  let '(tw, th) := t in
  if upscale_integer options && (img_width <? tw) && (img_height <? th) then
    let sf := smaller_factor options img_width img_height t in
    if fgt sf one32 then
      (to_int (fmul64 (fmul64 (aspect_correct options) (ffloor sf))
                      (f64_of_int img_width)),
       to_int (fmul64 (ffloor sf) (f64_of_int img_height)))
    else t
  else t.

(** Result of the function: the returned flag, [*target_width] and
    [*target_height]. *)
Record FitResult : Type := {
  needs_scaling : bool;
  target_width : Z;
  target_height : Z
}.

Definition CalcScaleToFitDisplay (img_width img_height : Z)
    (orig_options : DisplayOptions) (fit_in_rotated : bool) : FitResult :=
  let '(options, ws) := effective_options orig_options fit_in_rotated in
  if no_scaling_needed options img_width img_height then
    if cell_x_px options =? 2
    then {| needs_scaling := true;
            target_width := int_mul img_width 2;
            target_height := img_height |}
    else {| needs_scaling := false;
            target_width := img_width;
            target_height := img_height |}
  else
    let t := fit_by_policy options img_width img_height in
    let t := restretch ws t in
    let t := quantize options t in
    let t := at_least_one t in
    let '(tw, th) := integer_upscale options img_width img_height t in
    {| needs_scaling := negb (tw =? img_width) || negb (th =? img_height);
       target_width := tw;
       target_height := th |}.

(* ================================================================= *)
(** ** [Basename] and [ImageSource::FormatFromParameters] *)

Local Open Scope char_scope.

Definition text : Type := list ascii.

Definition str (s : string) : text := list_ascii_of_string s.

(** [std::string::find_last_of]: the greatest position holding one of
    [chars], scanning positions [i, i+1, ...] of [s]. *)
Fixpoint find_last_of_from (s : text) (chars : text) (i : nat)
    (found : option nat) : option nat :=
  match s with
  | [] => found
  | c :: rest =>
      find_last_of_from rest chars (S i)
        (if existsb (Ascii.eqb c) chars then Some i else found)
  end.

Definition find_last_of (s chars : text) : option nat :=
  find_last_of_from s chars 0%nat None.

Definition Basename (filename : text) : text :=
  match find_last_of filename ["/"; "\"] with
  | None => filename
  | Some last_slash_pos => skipn (last_slash_pos + 1) filename
  end.

(** [operator<<] of an [int]: decimal digits, a minus sign when negative. *)
Definition decimal (n : Z) : text :=
  str (NilZero.string_of_int (Z.to_int n)).

(** The [switch] on the character after a percent sign. *)
Definition expand_escape (c : ascii) (filename : text)
    (orig_width orig_height : Z) (decoder : text) : text :=
  if Ascii.eqb c "f" then filename
  else if Ascii.eqb c "b" then Basename filename
  else if Ascii.eqb c "w" then decimal orig_width
  else if Ascii.eqb c "h" then decimal orig_height
  else if Ascii.eqb c "D" then decoder
  else [c].

(** The [for] loop over the index [i]; [n] bounds the iterations left, and
    the length of the template is always enough since [i] grows. *)
Fixpoint format_loop (n : nat) (fmt_string : text) (i : nat)
    (filename : text) (orig_width orig_height : Z) (decoder : text)
    (result : text) : text :=
  match n with
  | O => result
  | S n' =>
      match nth_error fmt_string i with
      | None => result
      | Some c =>
          if negb (Ascii.eqb c "%") || (List.length fmt_string - 1 <=? i)%nat
          then format_loop n' fmt_string (i + 1) filename orig_width
                 orig_height decoder (result ++ [c])
          else
            match nth_error fmt_string (i + 1) with
            | None => result
            | Some d =>
                format_loop n' fmt_string (i + 2) filename orig_width
                  orig_height decoder
                  (result ++ expand_escape d filename orig_width orig_height
                               decoder)
            end
      end
  end.

Definition FormatFromParameters (fmt_string filename : text)
    (orig_width orig_height : Z) (decoder : text) : text :=
  format_loop (List.length fmt_string) fmt_string 0 filename orig_width
    orig_height decoder [].

(** The template expansion as the specification words it: one scan from
    the left in which a percent sign takes the character after it. *)
Fixpoint Expand (template filename : text) (orig_width orig_height : Z)
    (decoder_name : text) : text :=
  match template with
  | [] => []
  | c :: rest =>
      if Ascii.eqb c "%" then
        match rest with
        | [] => ["%"]
        | d :: rest' =>
            expand_escape d filename orig_width orig_height decoder_name
            ++ Expand rest' filename orig_width orig_height decoder_name
        end
      else c :: Expand rest filename orig_width orig_height decoder_name
  end.

Local Close Scope char_scope.

(* ================================================================= *)
(** ** [ImageSource::Create] *)

(** The decoders the factory knows.  Their classes are outside the
    sources at hand; what [Create] needs of one is the outcome of its
    [LoadAndScale]. *)
Inductive Backend : Set :=
| OpenSlideSource
| QOIImageSource
| JPEGSource
| SVGImageSource
| PDFImageSource
| GraphicsMagickSource
| STBImageSource
| VideoSource.

(** The preprocessor symbols that select the compiled-in decoders. *)
Record BuildConfig : Set := {
  WITH_TIMG_OPENSLIDE_SUPPORT : bool;
  WITH_TIMG_QOI : bool;
  WITH_TIMG_JPEG : bool;
  WITH_TIMG_RSVG : bool;
  WITH_TIMG_POPPLER : bool;
  WITH_TIMG_GRPAPHICSMAGICK : bool;
  WITH_TIMG_STB : bool;
  WITH_TIMG_VIDEO : bool
}.

Definition when {A : Type} (b : bool) (x : A) : list A :=
  if b then [x] else [].

(** The image decoders in the order of the [#ifdef] blocks. *)
Definition image_backends (cfg : BuildConfig) : list Backend :=
  when (WITH_TIMG_OPENSLIDE_SUPPORT cfg) OpenSlideSource
  ++ when (WITH_TIMG_QOI cfg) QOIImageSource
  ++ when (WITH_TIMG_JPEG cfg) JPEGSource
  ++ when (WITH_TIMG_RSVG cfg) SVGImageSource
  ++ when (WITH_TIMG_POPPLER cfg) PDFImageSource
  ++ when (WITH_TIMG_GRPAPHICSMAGICK cfg) GraphicsMagickSource
  ++ when (WITH_TIMG_STB cfg) STBImageSource.

(** What the operating system answers about the file. *)
Inductive StatResult : Set :=
| StatFails (errno : Z)
| StatOk (is_dir : bool).

Inductive AccessResult : Set :=
| AccessFails (errno : Z)
| AccessOk.

Record World : Type := {
  LoadAndScale : Backend -> bool;
  stat : StatResult;
  access_R_OK : AccessResult;
  strerror : Z -> text
}.

(** The state [Create] threads: the decoders tried so far, oldest first. *)
Definition Attempts : Set := list Backend.

(** [result.reset(new B(filename)); if (result->LoadAndScale(...)) return]
    for each decoder of the list in turn. *)
Fixpoint try_backends (w : World) (candidates : list Backend)
    (tried : Attempts) : option Backend * Attempts :=
  match candidates with
  | [] => (None, tried)
  | b :: rest =>
      if LoadAndScale w b then (Some b, tried ++ [b])
      else try_backends w rest (tried ++ [b])
  end.

Definition to_lower (c : ascii) : ascii :=
  let n := nat_of_ascii c in
  if ((65 <=? n) && (n <=? 90))%nat then ascii_of_nat (n + 32) else c.

(** [strcasecmp(a, b) == 0] on two strings wholly in bounds. *)
Fixpoint equal_nocase (a b : text) : bool :=
  match a, b with
  | [], [] => true
  | x :: a', y :: b' => Ascii.eqb (to_lower x) (to_lower y) && equal_nocase a' b'
  | _, _ => false
  end.

Definition video_suffixes : list text :=
  [str ".mov"; str ".mp4"; str ".mkv"; str ".avi"; str ".wmv"; str ".webm"].

(** The guarded suffix test of lines 250-252. *)
Definition has_suffix_nocase (filename suffix : text) : bool :=
  let suffix_len := List.length suffix in
  if (List.length filename <? suffix_len)%nat then false
  else equal_nocase (skipn (List.length filename - suffix_len) filename) suffix.

Definition text_eqb (a b : text) : bool :=
  if list_eq_dec ascii_dec a b then true else false.

(** Lines 223-260: the diagnostic, appended to the caller's [*error]. *)
Definition diagnose (cfg : BuildConfig) (w : World) (filename : text)
    (error : text) : text :=
  let error :=
    if negb (text_eqb filename (str "-")) then
      match stat w with
      | StatFails errno => error ++ filename ++ str ": " ++ strerror w errno
      | StatOk true => error ++ filename ++ str ": is a directory"
      | StatOk false =>
          match access_R_OK w with
          | AccessFails errno =>
              error ++ filename ++ str ": " ++ strerror w errno
          | AccessOk => error
          end
      end
    else error in
  if WITH_TIMG_VIDEO cfg then
    if text_eqb filename (str "-") || text_eqb filename (str "/dev/stdin")
    then str "If this is a video on stdin, use '-V' to skip image probing"
    else error
  else
    match error with
    | [] =>
        if existsb (has_suffix_nocase filename) video_suffixes
        then filename
             ++ str ": looks like a video file, but video support not compiled into this timg."
        else error
    | _ => error
    end.

Record CreateResult : Type := {
  handle : option Backend;
  error_text : text;
  attempts : Attempts
}.

Definition Create (cfg : BuildConfig) (w : World) (filename : text)
    (attempt_image_loading attempt_video_loading : bool) (error : text)
    : CreateResult :=
  let '(image, tried) :=
    if attempt_image_loading
    then try_backends w (image_backends cfg) []
    else (None, []) in
  match image with
  | Some b => {| handle := Some b; error_text := error; attempts := tried |}
  | None =>
      let '(video, tried) :=
        if WITH_TIMG_VIDEO cfg && attempt_video_loading
        then try_backends w [VideoSource] tried
        else (None, tried) in
      match video with
      | Some b =>
          {| handle := Some b; error_text := error; attempts := tried |}
      | None =>
          {| handle := None;
             error_text := diagnose cfg w filename error;
             attempts := tried |}
      end
  end.

(** Every image decoder of the factory, in the order of the source text,
    and the symbol that compiles each one in. *)
Definition all_image_backends : list Backend :=
  [OpenSlideSource; QOIImageSource; JPEGSource; SVGImageSource;
   PDFImageSource; GraphicsMagickSource; STBImageSource].

Definition compiled_in (cfg : BuildConfig) (b : Backend) : bool :=
  match b with
  | OpenSlideSource => WITH_TIMG_OPENSLIDE_SUPPORT cfg
  | QOIImageSource => WITH_TIMG_QOI cfg
  | JPEGSource => WITH_TIMG_JPEG cfg
  | SVGImageSource => WITH_TIMG_RSVG cfg
  | PDFImageSource => WITH_TIMG_POPPLER cfg
  | GraphicsMagickSource => WITH_TIMG_GRPAPHICSMAGICK cfg
  | STBImageSource => WITH_TIMG_STB cfg
  | VideoSource => WITH_TIMG_VIDEO cfg
  end.

(** The decoders a call of [Create] may try, in order. *)
Definition candidates (cfg : BuildConfig)
    (attempt_image_loading attempt_video_loading : bool) : list Backend :=
  (if attempt_image_loading then image_backends cfg else [])
  ++ (if WITH_TIMG_VIDEO cfg && attempt_video_loading then [VideoSource]
      else []).

(** What constructing a decoder and calling its [LoadAndScale] may do: it
    returns [true], it returns [false], or, being C++, it throws. *)
Inductive LoadOutcome : Set :=
| Loads
| Declines
| Throws.

(** A call either returns or is left by an exception. *)
Inductive Completion (A : Type) : Type :=
| Returns (a : A)
| Propagates (thrower : Backend).
Arguments Returns {A} a.
Arguments Propagates {A} thrower.

(** The loop of [try_backends] with decoders that may throw: nothing in
    [Create] is inside a [try] block, so an exception leaves the loop. *)
Fixpoint try_backends_throwing (load : Backend -> LoadOutcome)
    (candidates : list Backend) (tried : Attempts)
    : Completion (option Backend * Attempts) :=
  match candidates with
  | [] => Returns (None, tried)
  | b :: rest =>
      match load b with
      | Loads => Returns (Some b, tried ++ [b])
      | Declines => try_backends_throwing load rest (tried ++ [b])
      | Throws => Propagates b
      end
  end.

(** [Create] with decoders that may throw. *)
Definition Create_throwing (cfg : BuildConfig) (w : World)
    (load : Backend -> LoadOutcome) (filename : text)
    (attempt_image_loading attempt_video_loading : bool) (error : text)
    : Completion CreateResult :=
  match (if attempt_image_loading
         then try_backends_throwing load (image_backends cfg) []
         else Returns (None, [])) with
  | Propagates b => Propagates b
  | Returns (Some b, tried) =>
      Returns {| handle := Some b; error_text := error; attempts := tried |}
  | Returns (None, tried) =>
      match (if WITH_TIMG_VIDEO cfg && attempt_video_loading
             then try_backends_throwing load [VideoSource] tried
             else Returns (None, tried)) with
      | Propagates b => Propagates b
      | Returns (Some b, tried) =>
          Returns {| handle := Some b; error_text := error;
                     attempts := tried |}
      | Returns (None, tried) =>
          Returns {| handle := None;
                     error_text := diagnose cfg w filename error;
                     attempts := tried |}
      end
  end.

(* ================================================================= *)
(** ** [HasAPNGHeader] and [ImageSource::LooksLikeAPNG] *)

(** What [open] and [pread] find under a file name. *)
Inductive FileState : Set :=
| OpenFails
| ReadFails
| Contents (bytes : list Byte.byte).

Definition byte_val (b : Byte.byte) : Z := Z.of_N (Byte.to_N b).

(** [pread(fd, buf, 8, pos)]: the bytes of the file from [pos] on, eight at
    most. *)
Definition pread8 (bytes : list Byte.byte) (pos : Z) : list Byte.byte :=
  firstn 8 (skipn (Z.to_nat pos) bytes).

(** [ntohl( *(uint32_t * )buf)]: the first four bytes, most significant
    first. *)
Definition ntohl_prefix (buf : list Byte.byte) : Z :=
  match buf with
  | b0 :: b1 :: b2 :: b3 :: _ =>
      byte_val b0 * 2 ^ 24 + byte_val b1 * 2 ^ 16 + byte_val b2 * 2 ^ 8
      + byte_val b3
  | _ => 0
  end.

Definition acTL : list Byte.byte := [Byte.x61; Byte.x63; Byte.x54; Byte.x4c].

Definition bytes_eqb (a b : list Byte.byte) : bool :=
  if list_eq_dec Byte.byte_eq_dec a b then true else false.

(** [memcmp(buf + 4, "acTL", 4) == 0] *)
Definition is_acTL (buf : list Byte.byte) : bool :=
  bytes_eqb (firstn 4 (skipn 4 buf)) acTL.

(** [ntohl(...) + 12] is a sum of [uint32_t]: it wraps at [2 ^ 32]. *)
Definition chunk_advance (buf : list Byte.byte) : Z :=
  (ntohl_prefix buf + 12) mod 2 ^ 32.

(** The [while] loop.  It need not end, so the model counts iterations
    down from [fuel] and answers [None] when none is left. *)
Fixpoint apng_scan (fuel : nat) (bytes : option (list Byte.byte)) (pos : Z)
    : option bool :=
  match fuel with
  | O => None
  | S fuel' =>
      if pos <? 1024 then
        match bytes with
        | None => Some false
        | Some content =>
            let buf := pread8 content pos in
            if negb (List.length buf =? 8)%nat then Some false
            else if is_acTL buf then Some true
            else apng_scan fuel' bytes (pos + chunk_advance buf)
        end
      else Some false
  end.

Definition kPngHeaderLen : Z := 8.

Definition HasAPNGHeader (fuel : nat) (file : FileState) : option bool :=
  match file with
  | OpenFails => Some false
  | ReadFails => apng_scan fuel None kPngHeaderLen
  | Contents bytes => apng_scan fuel (Some bytes) kPngHeaderLen
  end.

(** The scan as the specification words it: a chunk that does not match
    moves the offset on by [declared_length + 12].  The offset grows by
    twelve at least, so [steps] beyond 85 changes nothing. *)
Fixpoint chunk_walk (steps : nat) (bytes : list Byte.byte) (offset : Z)
    : bool :=
  match steps with
  | O => false
  | S steps' =>
      if offset <? 1024 then
        let prefix := pread8 bytes offset in
        if negb (List.length prefix =? 8)%nat then false
        else if is_acTL prefix then true
        else chunk_walk steps' bytes (offset + (ntohl_prefix prefix + 12))
      else false
  end.

Definition LooksLikeAnimatedVariant_walk (file : FileState) : bool :=
  match file with
  | Contents bytes => chunk_walk 86 bytes 8
  | _ => false
  end.

(** [strlen]: the characters before the first NUL. *)
Fixpoint strlen (s : text) : nat :=
  match s with
  | [] => 0
  | c :: rest => if Ascii.eqb c zero then 0 else S (strlen rest)
  end.

(** The character at [file + k] of [filename.c_str()]: the characters of
    the string, then the terminating NUL; no other position belongs to the
    array. *)
Definition c_str_at (s : text) (k : Z) : option ascii :=
  if k <? 0 then None
  else
    match nth_error s (Z.to_nat k) with
    | Some c => Some c
    | None => if k =? Z.of_nat (List.length s) then Some zero else None
    end.

(** [strcasecmp(file + off, ending) == 0] for a literal [ending]; [None]
    when a character outside the array is read. *)
Fixpoint strcasecmp_is0 (file : text) (off : Z) (ending : text)
    : option bool :=
  match c_str_at file off with
  | None => None
  | Some a =>
      match ending with
      | [] => Some (Ascii.eqb a zero)
      | e :: rest =>
          if Ascii.eqb (to_lower a) (to_lower e)
          then strcasecmp_is0 file (off + 1) rest
          else Some false
      end
  end.

Inductive Run (A : Type) : Type :=
| Done (a : A)
| OutOfBounds
| OutOfFuel.
Arguments Done {A} a.
Arguments OutOfBounds {A}.
Arguments OutOfFuel {A}.

(** The offset [strlen(file) - strlen(ending)] handed to [strcasecmp]. *)
Definition suffix_offset (filename ending : text) : Z :=
  Z.of_nat (strlen filename) - Z.of_nat (strlen ending).

Fixpoint looks_like_apng_loop (fuel : nat) (filename : text)
    (file : FileState) (endings : list text) : Run bool :=
  match endings with
  | [] => Done false
  | ending :: rest =>
      match strcasecmp_is0 filename (suffix_offset filename ending) ending with
      | None => OutOfBounds
      | Some false => looks_like_apng_loop fuel filename file rest
      | Some true =>
          match HasAPNGHeader fuel file with
          | None => OutOfFuel
          | Some true => Done true
          | Some false => looks_like_apng_loop fuel filename file rest
          end
      end
  end.

Definition LooksLikeAPNG (fuel : nat) (filename : text) (file : FileState)
    : Run bool :=
  looks_like_apng_loop fuel filename file [str ".png"; str ".apng"].

(* ================================================================= *)
(** * Vocabulary of the statements *)

(** ** Floating point data as rationals *)

(** [a =~ x]: the datum [a] is finite and stands for the rational [x]. *)
Definition Feq (a : float) (x : Q) : Prop :=
  exists q, a = Fin q /\ (q == x)%Q.
Notation "a =~ x" := (Feq a x) (at level 70).

Definition well_formed (fmt : format) : Prop :=
  1 <= prec fmt /\ emin fmt <= 0 /\ 0 < emax fmt.

Notation "'R32'" := (round_fin binary32).
Notation "'R64'" := (round_fin binary64).

(** Half an ulp of binary32, relative to the value. *)
Definition eps : Q := 1 # 16777216.

(** The rational value of [1 / kMaxAcceptFactor] in binary32. *)
Definition kMin : Q := 13421773 # 67108864.

(** Stdlib's own specification of IEEE 754 arithmetic, at the parameters
    of binary32, to compare the rounding above with. *)
Definition spec_float_value (x : SpecFloat.spec_float) : option Q :=
  match x with
  | SpecFloat.S754_zero _ => Some 0%Q
  | SpecFloat.S754_finite s m e =>
      Some (Qred ((if s then -1 else 1) * inject_Z (Zpos m) * two ^ e))%Q
  | _ => None
  end.

Definition spec_float_of_int (n : Z) : SpecFloat.spec_float :=
  SpecFloat.binary_normalize 24 128 n 0 false.

Definition float_value (a : float) : option Q :=
  match a with
  | Fin q => Some q
  | _ => None
  end.

(** ** The geometry *)

(** The options [CalcScaleToFitDisplay] works with after the rotation and
    the stretch. *)
Definition working_options (o : DisplayOptions) (rot : bool) : DisplayOptions :=
  fst (effective_options o rot).

(** The box the image is fitted in: the options' own, or the swapped one. *)
Definition box_width (o : DisplayOptions) (rot : bool) : Z :=
  if rot then height o else width o.
Definition box_height (o : DisplayOptions) (rot : bool) : Z :=
  if rot then width o else height o.

(** The condition of the early return, as a proposition. *)
Definition takes_early_return (options : DisplayOptions)
    (img_width img_height : Z) : Prop :=
  upscale options = false
  /\ (fill_height options = true
      \/ fgt (width_fraction options img_width) one32 = true)
  /\ (fill_width options = true
      \/ fgt (height_fraction options img_height) one32 = true).

(** The target as it stands on line 138, before the integer upscaling. *)
Definition previously_computed (img_width img_height : Z)
    (orig_options : DisplayOptions) (fit_in_rotated : bool) : Z * Z :=
  let '(options, ws) := effective_options orig_options fit_in_rotated in
  at_least_one
    (quantize options (restretch ws (fit_by_policy options img_width img_height))).

(** [aspect_correct] as an integer. *)
Definition aspect (o : DisplayOptions) : Z :=
  if cell_x_px o =? 2 then 2 else 1.

(** Options with a stretch of 1. *)
Definition box (w h : Z) (fw fh up ui : bool) (cx cy : Z) : DisplayOptions :=
  {| width := w; height := h; fill_width := fw; fill_height := fh;
     upscale := up; upscale_integer := ui; width_stretch := one32;
     cell_x_px := cx; cell_y_px := cy |}.

(** The sizes the bounds on the geometry are proved for: every side
    between 1 and [2 ^ 13], and a stretch that is a number. *)
Definition small (n : Z) : Prop := 1 <= n <= 2 ^ 13.

Definition within_bounds (iw ih : Z) (o : DisplayOptions) : Prop :=
  small iw /\ small ih /\ small (width o) /\ small (height o)
  /\ width_stretch o <> NaN.

(** The sides of an image the letterbox fit is proved for: those that
    binary32 holds exactly. *)
Definition moderate (n : Z) : Prop := 1 <= n <= 2 ^ 24.

Definition letterbox_bounds (iw ih : Z) (o : DisplayOptions) : Prop :=
  moderate iw /\ moderate ih /\ small (width o) /\ small (height o)
  /\ width_stretch o <> NaN.

(** What the specification says of the early return. *)
Definition early_return_claim (iw ih : Z) (o : DisplayOptions) (rot : bool)
    : Prop :=
  takes_early_return (working_options o rot) iw ih ->
  CalcScaleToFitDisplay iw ih o rot
  = if cell_x_px o =? 2
    then {| needs_scaling := true; target_width := 2 * iw;
            target_height := ih |}
    else {| needs_scaling := false; target_width := iw;
            target_height := ih |}.


(** What the specification says of the integer upscaling: the floored
    factor decides whether the target is recomputed. *)
Definition floored_factor_claim (iw ih : Z) (o : DisplayOptions) (rot : bool)
    : Prop :=
  let opts := working_options o rot in
  let t0 := previously_computed iw ih o rot in
  let r := CalcScaleToFitDisplay iw ih o rot in
  no_scaling_needed opts iw ih = false ->
  upscale_integer o = true ->
  iw < fst t0 -> ih < snd t0 ->
  exists q,
    smaller_factor opts iw ih t0 =~ q
    /\ (1 < Qfloor q ->
        target_width r = aspect o * Qfloor q * iw
        /\ target_height r = Qfloor q * ih)
    /\ (Qfloor q <= 1 ->
        target_width r = fst t0 /\ target_height r = snd t0).

(** What the specification says of the letterbox fit: neither side of the
    box is exceeded. *)
Definition letterbox_claim (iw ih : Z) (o : DisplayOptions) (rot : bool)
    : Prop :=
  fill_width o = false -> fill_height o = false -> upscale o = false ->
  let r := CalcScaleToFitDisplay iw ih o rot in
  target_width r <= box_width o rot /\ target_height r <= box_height o rot.

(** ** Labels, decoders and files used as examples *)

Definition is_separator (c : ascii) : Prop := c = "/"%char \/ c = "\"%char.

(** Reading decimal digits: [is_digit c] for the characters 0 to 9, and
    [digits_value s] for the number that the digits of [s] write. *)
Definition is_digit (c : ascii) : Prop :=
  (48 <= nat_of_ascii c <= 57)%nat.

Definition digit_value (c : ascii) : Z := Z.of_nat (nat_of_ascii c) - 48.

Definition digits_value (s : text) : Z :=
  fold_left (fun acc c => 10 * acc + digit_value c) s 0.

(** The digits of a [Decimal.uint], first to last, and the character of a
    digit. *)
Fixpoint uint_digits (d : Decimal.uint) : list Z :=
  match d with
  | Decimal.Nil => []
  | Decimal.D0 d => 0 :: uint_digits d
  | Decimal.D1 d => 1 :: uint_digits d
  | Decimal.D2 d => 2 :: uint_digits d
  | Decimal.D3 d => 3 :: uint_digits d
  | Decimal.D4 d => 4 :: uint_digits d
  | Decimal.D5 d => 5 :: uint_digits d
  | Decimal.D6 d => 6 :: uint_digits d
  | Decimal.D7 d => 7 :: uint_digits d
  | Decimal.D8 d => 8 :: uint_digits d
  | Decimal.D9 d => 9 :: uint_digits d
  end.

Definition digit_char (k : Z) : ascii := ascii_of_nat (48 + Z.to_nat k).

(** The number that digits write when the first one counts least. *)
Definition little_value (l : list Z) : Z :=
  fold_right (fun k acc => k + 10 * acc) 0 l.

Definition jpeg_and_stb : BuildConfig :=
  {| WITH_TIMG_OPENSLIDE_SUPPORT := false; WITH_TIMG_QOI := false;
     WITH_TIMG_JPEG := true; WITH_TIMG_RSVG := false;
     WITH_TIMG_POPPLER := false; WITH_TIMG_GRPAPHICSMAGICK := false;
     WITH_TIMG_STB := true; WITH_TIMG_VIDEO := true |}.

Definition everything_loads : World :=
  {| LoadAndScale := fun _ => true; stat := StatOk false;
     access_R_OK := AccessOk; strerror := fun _ => [] |}.

Definition ENOENT : Z := 2.

Definition missing_file : World :=
  {| LoadAndScale := fun _ => false; stat := StatFails ENOENT;
     access_R_OK := AccessFails ENOENT;
     strerror := fun _ => str "No such file or directory" |}.

Definition png_signature : list Byte.byte :=
  [Byte.x89; Byte.x50; Byte.x4e; Byte.x47; Byte.x0d; Byte.x0a; Byte.x1a;
   Byte.x0a].

Definition IHDR : list Byte.byte := [Byte.x49; Byte.x48; Byte.x44; Byte.x52].

(** A first chunk that declares the length [0xffffffff]: the 32-bit sum
    with 12 is 11, and the tag [acTL] lies where the next read looks. *)
Definition wrapping_file : list Byte.byte :=
  png_signature
  ++ [Byte.xff; Byte.xff; Byte.xff; Byte.xff] ++ IHDR
  ++ [Byte.x00; Byte.x00; Byte.x00]
  ++ [Byte.x00; Byte.x00; Byte.x00; Byte.x00] ++ acTL.

(** A first chunk that declares the length [0xfffffff4]: the 32-bit sum
    with 12 is 0. *)
Definition stuck_file : list Byte.byte :=
  png_signature ++ [Byte.xff; Byte.xff; Byte.xff; Byte.xf4] ++ IHDR.

(** [occurs p s]: the text [p] occurs in [s]. *)
Fixpoint starts_with (p s : text) : bool :=
  match p, s with
  | [], _ => true
  | x :: p', y :: s' => Ascii.eqb x y && starts_with p' s'
  | _ :: _, [] => false
  end.

Fixpoint occurs (p s : text) : bool :=
  starts_with p s
  || match s with
     | [] => false
     | _ :: s' => occurs p s'
     end.

(** What the specification says of the diagnostic, the one name it takes
    for standard input being ["-"]. *)
Definition diagnostic_claim (cfg : BuildConfig) (w : World) (filename : text)
    (ai av : bool) (error : text) : Prop :=
  Forall (fun b => LoadAndScale w b = false) (candidates cfg ai av) ->
  filename <> str "-" ->
  let r := Create cfg w filename ai av error in
  handle r = None
  /\ (forall errno,
         stat w = StatFails errno ->
         occurs filename (error_text r) = true
         /\ occurs (strerror w errno) (error_text r) = true)
  /\ (stat w = StatOk true ->
      occurs (str "is a directory") (error_text r) = true)
  /\ (forall errno,
         stat w = StatOk false ->
         access_R_OK w = AccessFails errno ->
         occurs (strerror w errno) (error_text r) = true).

(** ** Vocabulary of the further properties *)

(** Options that differ from [o] in the stretch only. *)
Definition set_stretch (o : DisplayOptions) (s : float) : DisplayOptions :=
  {| width := width o; height := height o;
     fill_width := fill_width o; fill_height := fill_height o;
     upscale := upscale o; upscale_integer := upscale_integer o;
     width_stretch := s;
     cell_x_px := cell_x_px o; cell_y_px := cell_y_px o |}.

(** [v] is within one pixel of [m * k / n], the side [k] scaled by the
    ratio of [m] to [n]. *)
Definition proportional (v m k n : Z) : Prop :=
  - n < v * n - m * k < n.

(** The sizes and options the proportions are proved for: sides as for
    the letterbox fit, a stretch of 1, no cell of size 2 and no integer
    upscaling, so that the target is what the fitting policy computes. *)
Definition plain_fit (iw ih : Z) (o : DisplayOptions) : Prop :=
  moderate iw /\ moderate ih /\ small (width o) /\ small (height o)
  /\ width_stretch o = one32
  /\ cell_x_px o <> 2 /\ cell_y_px o <> 2
  /\ upscale_integer o = false.

(** [(int)roundf(fraction * n)] on rationals. *)
Definition scaled_side (fraction : Q) (n : Z) : Z :=
  Qfloor (R32 (fraction * inject_Z n) + (1 # 2)).

(** [filename] ends in [suffix], letter case apart. *)
Definition ends_with_nocase (filename suffix : text) : Prop :=
  exists stem tail,
    filename = stem ++ tail /\ map to_lower tail = map to_lower suffix.

(** The two hints of [Create]. *)
Definition stdin_hint : text :=
  str "If this is a video on stdin, use '-V' to skip image probing".

Definition video_hint : text :=
  str ": looks like a video file, but video support not compiled into this timg.".

(** A build without the video decoder, and a readable file that no decoder
    takes. *)
Definition no_video : BuildConfig :=
  {| WITH_TIMG_OPENSLIDE_SUPPORT := false; WITH_TIMG_QOI := false;
     WITH_TIMG_JPEG := true; WITH_TIMG_RSVG := false;
     WITH_TIMG_POPPLER := false; WITH_TIMG_GRPAPHICSMAGICK := false;
     WITH_TIMG_STB := true; WITH_TIMG_VIDEO := false |}.

Definition unknown_format : World :=
  {| LoadAndScale := fun _ => false; stat := StatOk false;
     access_R_OK := AccessOk; strerror := fun _ => [] |}.

(** A template that writes [s] literally: every percent sign doubled. *)
Definition escape_percent (s : text) : text :=
  flat_map (fun c => if Ascii.eqb c "%"%char then ["%"; "%"]%char else [c]) s.

(** Whether a scan of [t] from the left ends on a percent sign that still
    waits for its character. *)
Fixpoint pending_percent (t : text) : bool :=
  match t with
  | [] => false
  | c :: rest =>
      if Ascii.eqb c "%"%char then
        match rest with
        | [] => true
        | _ :: rest' => pending_percent rest'
        end
      else pending_percent rest
  end.

(** A PNG chunk: its four-byte type, its data and its four-byte CRC. *)
Record Chunk : Set := {
  chunk_type : list Byte.byte;
  chunk_data : list Byte.byte;
  chunk_crc : list Byte.byte
}.

Definition byte_of_Z (n : Z) : Byte.byte :=
  match Byte.of_N (Z.to_N (n mod 256)) with
  | Some b => b
  | None => Byte.x00
  end.

(** A 32-bit length in network byte order. *)
Definition be32 (n : Z) : list Byte.byte :=
  [byte_of_Z (n / 2 ^ 24); byte_of_Z (n / 2 ^ 16); byte_of_Z (n / 2 ^ 8);
   byte_of_Z n].

(** The bytes of a chunk in a file: length, type, data, CRC. *)
Definition chunk_bytes (c : Chunk) : list Byte.byte :=
  be32 (Z.of_nat (List.length (chunk_data c)))
  ++ chunk_type c ++ chunk_data c ++ chunk_crc c.

Definition chunks_bytes (l : list Chunk) : list Byte.byte :=
  List.concat (map chunk_bytes l).

(** A chunk other than [acTL], of a length PNG allows. *)
Definition plain_chunk (c : Chunk) : Prop :=
  List.length (chunk_type c) = 4%nat
  /\ List.length (chunk_crc c) = 4%nat
  /\ chunk_type c <> acTL
  /\ Z.of_nat (List.length (chunk_data c)) < 2 ^ 31.

Definition ihdr_chunk : Chunk :=
  {| chunk_type := IHDR; chunk_data := repeat Byte.x00 13;
     chunk_crc := repeat Byte.x00 4 |}.

Definition actl_chunk : Chunk :=
  {| chunk_type := acTL; chunk_data := repeat Byte.x00 8;
     chunk_crc := repeat Byte.x00 4 |}.

(** A file name as a C string holds it whole: no NUL inside. *)
Definition no_NUL (s : text) : Prop := Forall (fun c => c <> zero) s.

(* ================================================================= *)
(** * Properties *)

(** ** The rounding agrees with Stdlib's [SpecFloat] *)

Example of_int_agrees_with_SpecFloat :
  map (fun n => float_value (f32_of_int n))
      [1; 3; 16777217; 16777219; 2147483647]
  = map (fun n => spec_float_value (spec_float_of_int n))
      [1; 3; 16777217; 16777219; 2147483647].
Proof. vm_compute. reflexivity. Qed.

Example fdiv32_agrees_with_SpecFloat :
  map (fun p => float_value (fdiv32 (f32_of_int (fst p)) (f32_of_int (snd p))))
      [(200, 3); (1, 5); (80, 641); (2147483647, 7); (1, 16777217)]
  = map (fun p => spec_float_value
                    (SpecFloat.SFdiv 24 128 (spec_float_of_int (fst p))
                       (spec_float_of_int (snd p))))
      [(200, 3); (1, 5); (80, 641); (2147483647, 7); (1, 16777217)].
Proof. vm_compute. reflexivity. Qed.

Example fmul32_agrees_with_SpecFloat :
  map (fun p => float_value
                  (fmul32 (fdiv32 (f32_of_int 1) (f32_of_int (fst p)))
                     (f32_of_int (snd p))))
      [(5, 7); (3, 3); (641, 480); (10, 16777215)]
  = map (fun p => spec_float_value
                    (SpecFloat.SFmul 24 128
                       (SpecFloat.SFdiv 24 128 (spec_float_of_int 1)
                          (spec_float_of_int (fst p)))
                       (spec_float_of_int (snd p))))
      [(5, 7); (3, 3); (641, 480); (10, 16777215)].
Proof. vm_compute. reflexivity. Qed.

Local Open Scope Q_scope.

(** ** Powers of two and binary logarithms of rationals *)

Lemma two_neq0 : ~ two == 0.
Proof. discriminate. Qed.

Lemma two_pos (e : Z) : 0 < two ^ e.
Proof. apply Qpower_0_lt. reflexivity. Qed.

Lemma two_add (a b : Z) : two ^ (a + b) == two ^ a * two ^ b.
Proof. apply Qpower_plus, two_neq0. Qed.

Lemma two_sub (a b : Z) : two ^ (a - b) == two ^ a / two ^ b.
Proof. apply Qpower_minus, two_neq0. Qed.

Lemma two_le (a b : Z) : (a <= b)%Z -> two ^ a <= two ^ b.
Proof. intro H. apply Qpower_le_compat_l; [exact H | discriminate]. Qed.

Lemma two_lt (a b : Z) : (a < b)%Z -> two ^ a < two ^ b.
Proof. intro H. apply Qpower_lt_compat_l; [exact H | reflexivity]. Qed.

Lemma two_lt_inv (a b : Z) : two ^ a < two ^ b -> (a < b)%Z.
Proof. intro H. apply (Qpower_lt_compat_l_inv two); [exact H | reflexivity]. Qed.

Lemma two_Z (n : Z) : (0 <= n)%Z -> two ^ n == inject_Z (2 ^ n).
Proof. intro H. symmetry. apply (Zpower_Qpower 2 n H). Qed.

Lemma Qlog2_spec (x : Q) :
  0 < x -> two ^ Qlog2 x <= x /\ x < two ^ (Qlog2 x + 1).
Proof.
  intro Hx. unfold Qlog2.
  destruct x as [p d]. cbn [Qnum Qden].
  assert (Hp : (0 < p)%Z) by (unfold Qlt in Hx; simpl in Hx; lia).
  set (lp := Z.log2 p). set (ld := Z.log2 (Z.pos d)).
  assert (Hlp := Z.log2_spec p Hp). assert (Hld := Z.log2_spec (Z.pos d) eq_refl).
  fold lp in Hlp. fold ld in Hld.
  assert (Hlp0 : (0 <= lp)%Z) by apply Z.log2_nonneg.
  assert (Hld0 : (0 <= ld)%Z) by apply Z.log2_nonneg.
  assert (Hx' : p # d == inject_Z p / inject_Z (Z.pos d)) by apply Qmake_Qdiv.
  assert (Hd0 : 0 < inject_Z (Z.pos d)) by reflexivity.
  assert (Hlo : two ^ (lp - ld - 1) <= p # d).
  { replace (lp - ld - 1)%Z with (lp - (ld + 1))%Z by lia.
    rewrite two_sub, Hx', !two_Z by lia.
    apply Qle_shift_div_l; [exact Hd0|].
    unfold Qdiv. rewrite <- Qmult_assoc, (Qmult_comm (/ _)), Qmult_assoc.
    apply Qle_shift_div_r.
    { rewrite <- two_Z by lia. apply two_pos. }
    rewrite <- !inject_Z_mult, <- Zle_Qle. nia. }
  assert (Hhi : p # d < two ^ (lp - ld + 1)).
  { replace (lp - ld + 1)%Z with (lp + 1 - ld)%Z by lia.
    rewrite two_sub, Hx', !two_Z by lia.
    apply Qlt_shift_div_r; [exact Hd0|].
    unfold Qdiv. rewrite <- Qmult_assoc, (Qmult_comm (/ _)), Qmult_assoc.
    apply Qlt_shift_div_l.
    { rewrite <- two_Z by lia. apply two_pos. }
    rewrite <- !inject_Z_mult, <- Zlt_Qlt. nia. }
  destruct (Qle_bool (two ^ (lp - ld)) (p # d)) eqn:E.
  - apply Qle_bool_iff in E. split; assumption.
  - split; [exact Hlo|].
    replace (lp - ld - 1 + 1)%Z with (lp - ld)%Z by lia.
    apply Qnot_le_lt. intro H. apply Qle_bool_iff in H. congruence.
Qed.

Lemma Qlog2_unique (x : Q) (l : Z) :
  two ^ l <= x -> x < two ^ (l + 1) -> Qlog2 x = l.
Proof.
  intros Hlo Hhi.
  assert (Hx : 0 < x) by (eapply Qlt_le_trans; [apply (two_pos l) | exact Hlo]).
  destruct (Qlog2_spec x Hx) as [Hlo' Hhi'].
  assert (H1 : (Qlog2 x < l + 1)%Z)
    by (apply two_lt_inv; eapply Qle_lt_trans; eassumption).
  assert (H2 : (l < Qlog2 x + 1)%Z)
    by (apply two_lt_inv; eapply Qle_lt_trans; eassumption).
  lia.
Qed.

Lemma Qlog2_le (x y : Q) : 0 < x -> x <= y -> (Qlog2 x <= Qlog2 y)%Z.
Proof.
  intros Hx Hxy.
  assert (Hy : 0 < y) by (eapply Qlt_le_trans; eassumption).
  destruct (Qlog2_spec x Hx) as [Hlo _].
  destruct (Qlog2_spec y Hy) as [_ Hhi].
  assert (H : (Qlog2 x < Qlog2 y + 1)%Z).
  { apply two_lt_inv. eapply Qle_lt_trans; [exact Hlo|].
    eapply Qle_lt_trans; eassumption. }
  lia.
Qed.

(** ** The nearest integer *)

Lemma Qrne_cases (x : Q) :
  (x - inject_Z (Qfloor x) < 1 # 2 /\ Qrne x = Qfloor x)
  \/ (1 # 2 < x - inject_Z (Qfloor x) /\ Qrne x = (Qfloor x + 1)%Z)
  \/ (x - inject_Z (Qfloor x) == 1 # 2
      /\ Qrne x = if Z.even (Qfloor x) then Qfloor x else (Qfloor x + 1)%Z).
Proof.
  unfold Qrne.
  destruct (x - inject_Z (Qfloor x) ?= 1 # 2) eqn:E.
  - right; right. split; [now apply Qeq_alt | reflexivity].
  - left. split; [now apply Qlt_alt | reflexivity].
  - right; left. split; [now apply Qgt_alt | reflexivity].
Qed.

Lemma Qfloor_bounds (x : Q) :
  inject_Z (Qfloor x) <= x /\ x < inject_Z (Qfloor x) + 1.
Proof.
  split; [apply Qfloor_le|].
  pose proof (Qlt_floor x) as H. rewrite inject_Z_plus in H. exact H.
Qed.

Lemma inject_Z_succ (k : Z) : inject_Z (k + 1) == inject_Z k + 1.
Proof. rewrite inject_Z_plus. reflexivity. Qed.

Lemma Qrne_error (x : Q) :
  - (1 # 2) <= inject_Z (Qrne x) - x /\ inject_Z (Qrne x) - x <= 1 # 2.
Proof.
  destruct (Qfloor_bounds x) as [Hlo Hhi].
  destruct (Qrne_cases x) as [[H ->]|[[H ->]|[H ->]]].
  - split; lra.
  - rewrite inject_Z_succ. split; lra.
  - destruct (Z.even (Qfloor x)); [|rewrite inject_Z_succ]; split; lra.
Qed.

Lemma Qrne_Z (k : Z) : Qrne (inject_Z k) = k.
Proof.
  unfold Qrne. rewrite Qfloor_Z.
  replace (inject_Z k - inject_Z k ?= 1 # 2) with Lt; [reflexivity|].
  symmetry. rewrite <- Qlt_alt. lra.
Qed.

Lemma Qfloor_unique (x : Q) (k : Z) :
  inject_Z k <= x -> x < inject_Z k + 1 -> Qfloor x = k.
Proof.
  intros Hlo Hhi. destruct (Qfloor_bounds x) as [Hlo' Hhi'].
  assert (H1 : (Qfloor x < k + 1)%Z).
  { rewrite Zlt_Qlt, inject_Z_succ. lra. }
  assert (H2 : (k < Qfloor x + 1)%Z).
  { rewrite Zlt_Qlt, inject_Z_succ. lra. }
  lia.
Qed.

Lemma Qrne_le (x y : Q) : x <= y -> (Qrne x <= Qrne y)%Z.
Proof.
  intro Hxy.
  pose proof (Qfloor_resp_le x y Hxy) as Hf.
  destruct (Qfloor_bounds x) as [Hxl Hxh], (Qfloor_bounds y) as [Hyl Hyh].
  assert (Hx1 : (Qfloor x <= Qrne x <= Qfloor x + 1)%Z).
  { destruct (Qrne_cases x) as [[_ ->]|[[_ ->]|[_ ->]]];
      try destruct (Z.even _); lia. }
  assert (Hy1 : (Qfloor y <= Qrne y <= Qfloor y + 1)%Z).
  { destruct (Qrne_cases y) as [[_ ->]|[[_ ->]|[_ ->]]];
      try destruct (Z.even _); lia. }
  destruct (Z.eq_dec (Qfloor x) (Qfloor y)) as [E|NE]; [|lia].
  destruct (Qrne_cases x) as [[Hx ->]|[[Hx ->]|[Hx ->]]];
    destruct (Qrne_cases y) as [[Hy ->]|[[Hy ->]|[Hy ->]]];
    rewrite <- ?E in *; try destruct (Z.even (Qfloor x)); try lia;
    exfalso; lra.
Qed.

Lemma Qrne_le_Z (x : Q) (k : Z) : x <= inject_Z k -> (Qrne x <= k)%Z.
Proof. intro H. rewrite <- (Qrne_Z k). now apply Qrne_le. Qed.

Lemma Qrne_ge_Z (x : Q) (k : Z) : inject_Z k <= x -> (k <= Qrne x)%Z.
Proof. intro H. rewrite <- (Qrne_Z k). now apply Qrne_le. Qed.

Lemma Qrne_int (x : Q) (k : Z) : x == inject_Z k -> Qrne x = k.
Proof.
  intro H. apply Z.le_antisymm; [apply Qrne_le_Z | apply Qrne_ge_Z]; lra.
Qed.

(** ** Rounding to a format *)

Section Rounding.
Variable fmt : format.
Hypothesis prec_pos : (1 <= prec fmt)%Z.
Hypothesis emin_neg : (emin fmt <= 0)%Z.

Lemma round_fin_scaled (x : Q) :
  round_fin fmt x / two ^ ulp_exp fmt x
  == inject_Z (Qrne (x / two ^ ulp_exp fmt x)).
Proof.
  unfold round_fin. field.
  pose proof (two_pos (ulp_exp fmt x)). lra.
Qed.

Lemma round_fin_0 (x : Q) : x == 0 -> round_fin fmt x == 0.
Proof.
  intro H. unfold round_fin.
  rewrite (Qrne_int _ 0).
  - ring.
  - unfold Qdiv. generalize (/ two ^ ulp_exp fmt x). intro t.
    rewrite H. simpl. ring.
Qed.

Lemma Qdiv_two_le (x y : Q) (e : Z) :
  x <= y -> x / two ^ e <= y / two ^ e.
Proof.
  intro H. unfold Qdiv. apply Qmult_le_compat_r; [exact H|].
  apply Qlt_le_weak, Qinv_lt_0_compat, two_pos.
Qed.

Lemma Qmult_two_le (x y : Q) (e : Z) :
  x <= y -> x * two ^ e <= y * two ^ e.
Proof.
  intro H. apply Qmult_le_compat_r; [exact H|].
  apply Qlt_le_weak, two_pos.
Qed.

Lemma round_fin_nonneg (x : Q) : 0 <= x -> 0 <= round_fin fmt x.
Proof.
  intro H. unfold round_fin.
  apply Qmult_le_0_compat; [|apply Qlt_le_weak, two_pos].
  change 0 with (inject_Z 0). rewrite <- Zle_Qle.
  apply Qrne_ge_Z.
  apply Qle_trans with (0 / two ^ ulp_exp fmt x);
    [unfold Qdiv; rewrite Qmult_0_l; apply Qle_refl | now apply Qdiv_two_le].
Qed.

Lemma Qabs_pos_eq (x : Q) : 0 < x -> Qabs x = x.
Proof.
  destruct x as [p d]. unfold Qlt. simpl. intro H.
  unfold Qabs. f_equal. lia.
Qed.

Lemma ulp_exp_pos (x : Q) :
  0 < x -> ulp_exp fmt x = Z.max (Qlog2 x - (prec fmt - 1)) (emin fmt).
Proof. intro H. unfold ulp_exp. now rewrite Qabs_pos_eq. Qed.

(** Up to the next power of two, and down to the previous one. *)
Lemma round_fin_below_two (x : Q) (k : Z) :
  0 < x -> (ulp_exp fmt x <= k)%Z -> x <= two ^ k ->
  round_fin fmt x <= two ^ k.
Proof.
  intros Hx Hk Hle. unfold round_fin.
  set (e := ulp_exp fmt x) in *.
  assert (H : (Qrne (x / two ^ e) <= 2 ^ (k - e))%Z).
  { apply Qrne_le_Z. rewrite <- two_Z by lia. rewrite two_sub.
    now apply Qdiv_two_le. }
  rewrite Zle_Qle in H. apply (Qmult_two_le _ _ e) in H.
  eapply Qle_trans; [exact H|].
  rewrite <- two_Z by lia. rewrite <- two_add.
  replace (k - e + e)%Z with k by lia. apply Qle_refl.
Qed.

Lemma round_fin_above_two (x : Q) (k : Z) :
  0 < x -> (ulp_exp fmt x <= k)%Z -> two ^ k <= x ->
  two ^ k <= round_fin fmt x.
Proof.
  intros Hx Hk Hle. unfold round_fin.
  set (e := ulp_exp fmt x) in *.
  assert (H : (2 ^ (k - e) <= Qrne (x / two ^ e))%Z).
  { apply Qrne_ge_Z. rewrite <- two_Z by lia. rewrite two_sub.
    now apply Qdiv_two_le. }
  rewrite Zle_Qle in H. apply (Qmult_two_le _ _ e) in H.
  eapply Qle_trans; [|exact H].
  rewrite <- two_Z by lia. rewrite <- two_add.
  replace (k - e + e)%Z with k by lia. apply Qle_refl.
Qed.

Lemma round_fin_le (x y : Q) :
  0 <= x -> x <= y -> round_fin fmt x <= round_fin fmt y.
Proof.
  intros Hx Hxy.
  destruct (Qlt_le_dec 0 x) as [Hpos|Hzero].
  2:{ rewrite (round_fin_0 x) by lra. apply round_fin_nonneg. lra. }
  assert (Hy : 0 < y) by lra.
  pose proof (Qlog2_le x y Hpos Hxy) as Hlog.
  destruct (Qlog2_spec x Hpos) as [Hxlo Hxhi].
  destruct (Qlog2_spec y Hy) as [Hylo Hyhi].
  pose proof (ulp_exp_pos x Hpos) as Ex.
  pose proof (ulp_exp_pos y Hy) as Ey.
  destruct (Z.eq_dec (ulp_exp fmt x) (ulp_exp fmt y)) as [E|NE].
  - unfold round_fin. rewrite E.
    apply Qmult_two_le. rewrite <- Zle_Qle.
    apply Qrne_le. now apply Qdiv_two_le.
  - apply Qle_trans with (two ^ Qlog2 y).
    + destruct (Z_le_gt_dec (ulp_exp fmt x) (Qlog2 x + 1)) as [Hc|Hc].
      * apply Qle_trans with (two ^ (Qlog2 x + 1)).
        -- apply round_fin_below_two; [assumption | assumption | lra].
        -- apply two_le. lia.
      * apply round_fin_below_two; [assumption | lia |].
        apply Qle_trans with (two ^ (Qlog2 x + 1)); [lra|].
        apply two_le. lia.
    + apply round_fin_above_two; [assumption | lia | assumption].
Qed.

Lemma round_fin_eq (x y : Q) :
  0 <= x -> x == y -> round_fin fmt x == round_fin fmt y.
Proof.
  intros Hx Hxy. apply Qle_antisym; apply round_fin_le; lra.
Qed.

Lemma round_fin_exact (x : Q) (m c : Z) :
  x == inject_Z m * two ^ c -> (ulp_exp fmt x <= c)%Z ->
  round_fin fmt x == x.
Proof.
  intros Hx Hc. unfold round_fin.
  set (e := ulp_exp fmt x) in *.
  rewrite (Qrne_int _ (m * 2 ^ (c - e))).
  - rewrite inject_Z_mult, <- two_Z by lia.
    rewrite Hx, <- Qmult_assoc, <- two_add.
    replace (c - e + e)%Z with c by lia. reflexivity.
  - rewrite inject_Z_mult, <- two_Z by lia.
    rewrite Hx, two_sub. field.
    pose proof (two_pos e). lra.
Qed.

Lemma round_fin_two (k : Z) :
  (emin fmt <= k)%Z -> round_fin fmt (two ^ k) == two ^ k.
Proof.
  intro Hk. apply (round_fin_exact _ 1 k); [ring|].
  rewrite ulp_exp_pos by apply two_pos.
  rewrite (Qlog2_unique _ k); [lia | apply Qle_refl | apply two_lt; lia].
Qed.

Lemma round_fin_Z (n : Z) :
  (0 <= n <= 2 ^ prec fmt)%Z -> round_fin fmt (inject_Z n) == inject_Z n.
Proof.
  intros [H0 Hn].
  destruct (Z.eq_dec n 0) as [->|Hn0]; [now apply round_fin_0|].
  destruct (Z.eq_dec n (2 ^ prec fmt)) as [->|Hn1].
  { rewrite (round_fin_eq _ (two ^ prec fmt)).
    - rewrite round_fin_two by lia. apply two_Z. lia.
    - change 0 with (inject_Z 0). rewrite <- Zle_Qle. lia.
    - symmetry. apply two_Z. lia. }
  assert (Hpos : 0 < inject_Z n).
  { change 0 with (inject_Z 0). rewrite <- Zlt_Qlt. lia. }
  apply (round_fin_exact _ n 0); [simpl; ring|].
  rewrite ulp_exp_pos by assumption.
  destruct (Qlog2_spec _ Hpos) as [Hlo _].
  assert (Qlog2 (inject_Z n) < prec fmt)%Z; [|lia].
  apply two_lt_inv. eapply Qle_lt_trans; [exact Hlo|].
  rewrite two_Z by lia. rewrite <- Zlt_Qlt. lia.
Qed.

Lemma round_fin_error (x : Q) :
  round_fin fmt x - x <= two ^ (ulp_exp fmt x - 1)
  /\ x - round_fin fmt x <= two ^ (ulp_exp fmt x - 1).
Proof.
  unfold round_fin. set (e := ulp_exp fmt x).
  destruct (Qrne_error (x / two ^ e)) as [Hlo Hhi].
  pose proof (two_pos e) as He.
  assert (Hhalf : two ^ (e - 1) == two ^ e * (1 # 2)).
  { rewrite two_sub. change (two ^ 1) with two. unfold two. field. }
  assert (Hx : x == x / two ^ e * two ^ e) by (field; lra).
  rewrite Hhalf. split.
  - apply Qle_trans
      with ((inject_Z (Qrne (x / two ^ e)) - x / two ^ e) * two ^ e).
    + rewrite Hx at 2. ring_simplify. apply Qle_refl.
    + rewrite (Qmult_comm (two ^ e)). apply Qmult_two_le. exact Hhi.
  - apply Qle_trans
      with ((x / two ^ e - inject_Z (Qrne (x / two ^ e))) * two ^ e).
    + rewrite Hx at 1. ring_simplify. apply Qle_refl.
    + rewrite (Qmult_comm (two ^ e)). apply Qmult_two_le. lra.
Qed.

(** In the normal range the error is at most [2 ^ - prec] of the value. *)
Lemma round_fin_relative (x : Q) :
  two ^ (emin fmt + prec fmt - 1) <= x ->
  round_fin fmt x <= x * (1 + two ^ (- prec fmt))
  /\ x * (1 - two ^ (- prec fmt)) <= round_fin fmt x.
Proof.
  intro Hnorm.
  assert (Hx : 0 < x)
    by (eapply Qlt_le_trans; [apply two_pos | exact Hnorm]).
  destruct (round_fin_error x) as [Hhi Hlo].
  destruct (Qlog2_spec x Hx) as [Hl _].
  assert (He : ulp_exp fmt x = (Qlog2 x - (prec fmt - 1))%Z).
  { rewrite ulp_exp_pos by assumption.
    assert (emin fmt + prec fmt - 1 <= Qlog2 x)%Z; [|lia].
    destruct (Qlog2_spec x Hx) as [_ Hh].
    assert (emin fmt + prec fmt - 1 < Qlog2 x + 1)%Z; [|lia].
    apply two_lt_inv. eapply Qle_lt_trans; eassumption. }
  assert (Hu : two ^ (ulp_exp fmt x - 1) <= x * two ^ (- prec fmt)).
  { rewrite He.
    replace (Qlog2 x - (prec fmt - 1) - 1)%Z
      with (Qlog2 x + - prec fmt)%Z by lia.
    rewrite two_add. apply Qmult_two_le. exact Hl. }
  split; lra.
Qed.

End Rounding.

(** ** The operations on finite data *)

Lemma Feq_Fin (q : Q) : Fin q =~ q.
Proof. exists q. split; reflexivity. Qed.

Lemma Feq_eq (a : float) (x y : Q) : a =~ x -> x == y -> a =~ y.
Proof. intros (q & -> & Hq) H. exists q. split; [reflexivity | lra]. Qed.

Lemma binary32_wf : well_formed binary32.
Proof. repeat split; simpl; lia. Qed.
Lemma binary64_wf : well_formed binary64.
Proof. repeat split; simpl; lia. Qed.

Lemma Qle_bool_false (x y : Q) : y < x -> Qle_bool x y = false.
Proof.
  intro H. destruct (Qle_bool x y) eqn:E; [|reflexivity].
  apply Qle_bool_iff in E. lra.
Qed.

Lemma Qle_bool_true (x y : Q) : x <= y -> Qle_bool x y = true.
Proof. apply Qle_bool_iff. Qed.

Lemma Qabs_nonneg_eq (x : Q) : 0 <= x -> Qabs x == x.
Proof. apply Qabs_pos. Qed.

Section Ops.
Variable fmt : format.
Hypothesis wf : well_formed fmt.

Let R := round_fin fmt.

Lemma rnd_round (x : Q) (k : Z) :
  0 <= x -> x <= two ^ k -> (emin fmt <= k < emax fmt)%Z ->
  rnd fmt x =~ R x.
Proof.
  destruct wf as (Hp & He & Hx).
  intros H0 Hk Hrange. unfold rnd.
  assert (Hr0 : 0 <= round_fin fmt x) by now apply round_fin_nonneg.
  assert (Hr1 : round_fin fmt x <= two ^ k).
  { rewrite <- (round_fin_two fmt Hp k) by lia.
    now apply round_fin_le. }
  rewrite Qle_bool_false.
  - exists (Qred (round_fin fmt x)). split; [reflexivity | apply Qred_correct].
  - rewrite Qabs_nonneg_eq by assumption.
    eapply Qle_lt_trans; [exact Hr1 | apply two_lt; lia].
Qed.

Lemma fmul_round (a b : float) (x y : Q) (k : Z) :
  a =~ x -> b =~ y -> 0 <= x -> 0 <= y -> x * y <= two ^ k ->
  (emin fmt <= k < emax fmt)%Z ->
  fmul fmt a b =~ R (x * y).
Proof.
  destruct wf as (Hp & He & Hx).
  intros (qa & -> & Ha) (qb & -> & Hb) H0x H0y Hk Hrange.
  cbn [fmul].
  assert (Hm : qa * qb == x * y) by (rewrite Ha, Hb; reflexivity).
  assert (H0 : 0 <= qa * qb)
    by (rewrite Hm; now apply Qmult_le_0_compat).
  destruct (rnd_round (qa * qb) k) as (q & -> & Hq);
    [assumption | lra | assumption |].
  exists q. split; [reflexivity|].
  rewrite Hq. unfold R. now apply round_fin_eq.
Qed.

Lemma fdiv_round (a b : float) (x y : Q) (k : Z) :
  a =~ x -> b =~ y -> 0 <= x -> 0 < y -> x / y <= two ^ k ->
  (emin fmt <= k < emax fmt)%Z ->
  fdiv fmt a b =~ R (x / y).
Proof.
  destruct wf as (Hp & He & Hx).
  intros (qa & -> & Ha) (qb & -> & Hb) H0x H0y Hk Hrange.
  cbn [fdiv].
  assert (Hz : Qzero qb = false).
  { unfold Qzero. destruct (Qeq_bool qb 0) eqn:E; [|reflexivity].
    apply Qeq_bool_iff in E. lra. }
  rewrite Hz.
  assert (Hm : qa / qb == x / y) by (rewrite Ha, Hb; reflexivity).
  assert (H0 : 0 <= qa / qb).
  { rewrite Hm. apply Qle_shift_div_l; [assumption | lra]. }
  destruct (rnd_round (qa / qb) k) as (q & -> & Hq);
    [assumption | lra | assumption |].
  exists q. split; [reflexivity|].
  rewrite Hq. unfold R. now apply round_fin_eq.
Qed.

Lemma of_int_round (n k : Z) :
  (0 <= n <= 2 ^ k)%Z -> (0 <= k < emax fmt)%Z ->
  of_int fmt n =~ R (inject_Z n).
Proof.
  destruct wf as (Hp & He & Hx).
  intros Hn Hk. unfold of_int.
  apply (rnd_round _ k).
  - change 0 with (inject_Z 0). rewrite <- Zle_Qle. lia.
  - rewrite two_Z by lia. rewrite <- Zle_Qle. lia.
  - lia.
Qed.

Lemma of_int_exact (n : Z) :
  (0 <= n <= 2 ^ prec fmt)%Z -> (prec fmt < emax fmt)%Z ->
  of_int fmt n =~ inject_Z n.
Proof.
  destruct wf as (Hp & He & Hx).
  intros Hn Hk.
  apply Feq_eq with (R (inject_Z n)).
  - apply (of_int_round n (prec fmt)); lia.
  - now apply round_fin_Z.
Qed.

End Ops.

Lemma flt_spec (a b : float) (x y : Q) :
  a =~ x -> b =~ y -> (flt a b = true <-> x < y).
Proof.
  intros (qa & -> & Ha) (qb & -> & Hb). cbn [flt].
  rewrite negb_true_iff. split.
  - intro H. apply Qnot_le_lt. intro Hle.
    rewrite Qle_bool_true in H by lra. discriminate.
  - intro H. apply Qle_bool_false. lra.
Qed.

Lemma fgt_spec (a b : float) (x y : Q) :
  a =~ x -> b =~ y -> (fgt a b = true <-> y < x).
Proof. intros Ha Hb. unfold fgt. now apply flt_spec. Qed.

Lemma Qfloor_eq (x y : Q) : x == y -> Qfloor x = Qfloor y.
Proof. intro H. now rewrite H. Qed.

Lemma Qtrunc_nonneg (x : Q) : 0 <= x -> Qtrunc x = Qfloor x.
Proof. intro H. unfold Qtrunc. now rewrite Qle_bool_true. Qed.

Lemma to_int_floor (a : float) (x : Q) :
  a =~ x -> 0 <= x -> x < 2 ^ 31 ->
  to_int a = Qfloor x /\ (0 <= Qfloor x <= INT_MAX)%Z.
Proof.
  intros (q & -> & Hq) H0 H1. cbn [to_int].
  rewrite Qtrunc_nonneg by lra. rewrite (Qfloor_eq q x Hq).
  assert (Hlo : (0 <= Qfloor x)%Z).
  { rewrite <- (Qfloor_Z 0). now apply Qfloor_resp_le. }
  assert (Hhi : (Qfloor x <= INT_MAX)%Z).
  { assert (Qfloor x < 2 ^ 31)%Z; [|unfold INT_MAX; lia].
    rewrite Zlt_Qlt. eapply Qle_lt_trans; [apply Qfloor_le | exact H1]. }
  split; [|lia].
  replace (INT_MIN <=? Qfloor x)%Z with true
    by (symmetry; apply Z.leb_le; unfold INT_MIN; lia).
  replace (Qfloor x <=? INT_MAX)%Z with true
    by (symmetry; apply Z.leb_le; lia).
  reflexivity.
Qed.

Lemma roundf_spec (a : float) (x : Q) :
  a =~ x -> 0 <= x -> roundf a =~ inject_Z (Qfloor (x + (1 # 2))).
Proof.
  intros (q & -> & Hq) H0. cbn [roundf]. unfold Qround_away.
  rewrite Qle_bool_true by lra.
  exists (inject_Z (Qfloor (q + (1 # 2)))). split; [reflexivity|].
  now rewrite Hq.
Qed.

Lemma ffloor_spec (a : float) (x : Q) :
  a =~ x -> ffloor a =~ inject_Z (Qfloor x).
Proof.
  intros (q & -> & Hq). cbn [ffloor].
  exists (inject_Z (Qfloor q)). split; [reflexivity | now rewrite Hq].
Qed.

Local Close Scope Q_scope.

(** ** The shape of [CalcScaleToFitDisplay] *)

Lemma no_scaling_needed_iff (o : DisplayOptions) (iw ih : Z) :
  no_scaling_needed o iw ih = true <-> takes_early_return o iw ih.
Proof.
  unfold no_scaling_needed, takes_early_return.
  rewrite !andb_true_iff, !orb_true_iff, negb_true_iff. tauto.
Qed.

Lemma working_options_fields (o : DisplayOptions) (rot : bool) :
  let opts := working_options o rot in
  cell_x_px opts = cell_x_px o /\ cell_y_px opts = cell_y_px o
  /\ upscale opts = upscale o /\ upscale_integer opts = upscale_integer o
  /\ fill_width opts = (if rot then fill_height o else fill_width o)
  /\ fill_height opts = (if rot then fill_width o else fill_height o).
Proof.
  unfold working_options, effective_options.
  destruct rot; destruct (fgt _ one32); cbn; repeat split.
Qed.

Lemma CalcScaleToFitDisplay_early (iw ih : Z) (o : DisplayOptions) (rot : bool) :
  no_scaling_needed (working_options o rot) iw ih = true ->
  CalcScaleToFitDisplay iw ih o rot
  = if cell_x_px o =? 2
    then {| needs_scaling := true; target_width := int_mul iw 2;
            target_height := ih |}
    else {| needs_scaling := false; target_width := iw;
            target_height := ih |}.
Proof.
  intro H.
  destruct (working_options_fields o rot) as (Hcx & _).
  unfold CalcScaleToFitDisplay, working_options in *.
  destruct (effective_options o rot) as [opts ws]. cbn [fst] in *.
  now rewrite H, Hcx.
Qed.

Lemma CalcScaleToFitDisplay_scaled (iw ih : Z) (o : DisplayOptions) (rot : bool) :
  no_scaling_needed (working_options o rot) iw ih = false ->
  let t := integer_upscale (working_options o rot) iw ih
             (previously_computed iw ih o rot) in
  CalcScaleToFitDisplay iw ih o rot
  = {| needs_scaling := negb (fst t =? iw) || negb (snd t =? ih);
       target_width := fst t; target_height := snd t |}.
Proof.
  intro H.
  unfold CalcScaleToFitDisplay, working_options, previously_computed in *.
  destruct (effective_options o rot) as [opts ws]. cbn [fst] in *.
  rewrite H. cbv zeta.
  destruct (integer_upscale _ _ _ _) as [tw th]. reflexivity.
Qed.

Lemma wrap32_small (n : Z) : INT_MIN <= n <= INT_MAX -> wrap32 n = n.
Proof.
  unfold wrap32, INT_MIN, INT_MAX. intro H.
  rewrite Z.mod_small by lia. lia.
Qed.

Lemma wrap32_is_int (n : Z) : is_int (wrap32 n).
Proof.
  unfold is_int, wrap32, INT_MIN, INT_MAX.
  pose proof (Z.mod_pos_bound (n + 2 ^ 31) (2 ^ 32) eq_refl). lia.
Qed.


Lemma to_int_is_int (a : float) : is_int (to_int a).
Proof.
  unfold is_int, to_int.
  destruct a as [q| |]; try (unfold INT_MIN, INT_MAX; lia).
  destruct (INT_MIN <=? Qtrunc q) eqn:E1; cbn [andb];
    [destruct (Qtrunc q <=? INT_MAX) eqn:E2|];
    try (unfold INT_MIN, INT_MAX; lia).
  apply Z.leb_le in E1, E2. lia.
Qed.

(** C2, where it fails.  An image [2 ^ 30] wide takes the early return
    under a cell width of 2, and the doubled width does not fit an [int]:
    the code returns [INT_MIN], not twice the width. *)
Lemma early_return_doubling_overflows :
  0 < 2 ^ 30 <= INT_MAX
  /\ target_width
       (CalcScaleToFitDisplay (2 ^ 30) 1
          (box 200 200 true true false false 2 2) false) = INT_MIN
  /\ ~ early_return_claim (2 ^ 30) 1 (box 200 200 true true false false 2 2)
       false.
Proof.
  split; [unfold INT_MAX; lia|]. split; [vm_compute; reflexivity|].
  intro H.
  assert (E : takes_early_return
                (working_options (box 200 200 true true false false 2 2) false)
                (2 ^ 30) 1)
    by (repeat split; left; reflexivity).
  apply H in E. vm_compute in E. discriminate.
Qed.

(** C2, amended.  With [upscale] off, and, on each axis, either the other
    axis filled or the fraction of that axis above 1, the source size is
    returned unchanged and no scaling is asked for; under a cell width of 2
    the width is doubled and scaling is asked for, provided that twice the
    width is an [int].  A 50x50 image in a 200x200 box comes back as 50x50
    without scaling, and as 100x50 with scaling under a cell width of 2. *)
Theorem early_return_result :
  (forall (iw ih : Z) (o : DisplayOptions) (rot : bool),
      (cell_x_px o = 2 -> INT_MIN <= 2 * iw <= INT_MAX) ->
      early_return_claim iw ih o rot)
  /\ (forall ui cx cy,
         cx <> 2 ->
         CalcScaleToFitDisplay 50 50 (box 200 200 false false false ui cx cy)
           false
         = {| needs_scaling := false; target_width := 50;
              target_height := 50 |})
  /\ (forall ui cy,
         CalcScaleToFitDisplay 50 50 (box 200 200 false false false ui 2 cy)
           false
         = {| needs_scaling := true; target_width := 100;
              target_height := 50 |}).
Proof.
  assert (H : forall iw ih o rot,
             (cell_x_px o = 2 -> INT_MIN <= 2 * iw <= INT_MAX) ->
             early_return_claim iw ih o rot).
  { intros iw ih o rot Hfit Hearly.
    apply no_scaling_needed_iff in Hearly.
    rewrite CalcScaleToFitDisplay_early by assumption.
    destruct (cell_x_px o =? 2) eqn:E; [|reflexivity].
    apply Z.eqb_eq in E. unfold int_mul.
    rewrite wrap32_small by (specialize (Hfit E); lia).
    f_equal. lia. }
  split; [exact H|]. split.
  - intros ui cx cy Hcx. rewrite H.
    + cbn [cell_x_px box]. apply Z.eqb_neq in Hcx. now rewrite Hcx.
    + cbn [cell_x_px box]. intro; contradiction.
    + repeat split; right; vm_compute; reflexivity.
  - intros ui cy. rewrite H.
    + reflexivity.
    + intros _. unfold INT_MIN, INT_MAX. lia.
    + repeat split; right; vm_compute; reflexivity.
Qed.

Lemma early_return_result_witness :
  CalcScaleToFitDisplay 640 480 (box 80 24 true true false false 2 2) true
  = {| needs_scaling := true; target_width := 1280; target_height := 480 |}.
Proof.
  apply (proj1 early_return_result 640 480
           (box 80 24 true true false false 2 2) true).
  - intros _. unfold INT_MIN, INT_MAX. lia.
  - repeat split; left; reflexivity.
Defined.



(** The early return hands the source size back without quantising it,
    and the integer upscaling recomputes the target after the
    quantisation. *)
Example early_return_not_aligned :
  CalcScaleToFitDisplay 51 51 (box 200 200 false false false false 1 2) false
  = {| needs_scaling := false; target_width := 51; target_height := 51 |}.
Proof. vm_compute. reflexivity. Qed.

Example integer_upscale_not_aligned :
  CalcScaleToFitDisplay 3 3 (box 10 10 false false true true 2 2) false
  = {| needs_scaling := true; target_width := 6; target_height := 3 |}.
Proof. vm_compute. reflexivity. Qed.

Local Open Scope Q_scope.

(** ** Conversions and the factors of the integer upscaling *)

Lemma round_fin_bounds (fmt : format) (x : Q) (k : Z) :
  well_formed fmt -> 0 <= x -> x <= two ^ k -> (emin fmt <= k)%Z ->
  0 <= round_fin fmt x <= two ^ k.
Proof.
  intros (Hp & He & Hx) H0 Hk Hrange. split.
  - now apply round_fin_nonneg.
  - rewrite <- (round_fin_two fmt Hp k) by lia. now apply round_fin_le.
Qed.

Lemma round_fin_ge_two (fmt : format) (x : Q) (k : Z) :
  well_formed fmt -> two ^ k <= x -> (emin fmt <= k)%Z ->
  two ^ k <= round_fin fmt x.
Proof.
  intros (Hp & He & Hx) Hk Hrange.
  rewrite <- (round_fin_two fmt Hp k) by lia.
  apply round_fin_le; [assumption | apply Qlt_le_weak, two_pos | assumption].
Qed.

Lemma round_fin_int (fmt : format) (n : Z) :
  well_formed fmt -> (0 <= n <= 2 ^ prec fmt)%Z ->
  round_fin fmt (inject_Z n) == inject_Z n.
Proof. intros (Hp & He & Hx). now apply round_fin_Z. Qed.

Lemma inject_Z_nonneg (n : Z) : (0 <= n)%Z -> 0 <= inject_Z n.
Proof. intro H. change 0 with (inject_Z 0). now rewrite <- Zle_Qle. Qed.

Lemma inject_Z_le_two (n k : Z) :
  (0 <= k)%Z -> (n <= 2 ^ k)%Z -> inject_Z n <= two ^ k.
Proof. intros Hk H. rewrite two_Z by lia. now rewrite <- Zle_Qle. Qed.

Lemma two_0 : two ^ 0 == 1.
Proof. reflexivity. Qed.

(** An [int] between 1 and [INT_MAX] converts to a binary32 value between
    1 and [2 ^ 31]. *)
Lemma f32_of_int_pos (n : Z) :
  (1 <= n <= INT_MAX)%Z ->
  exists x, f32_of_int n =~ x /\ 1 <= x <= two ^ 31
            /\ x == R32 (inject_Z n).
Proof.
  intro Hn. unfold INT_MAX in Hn.
  exists (R32 (inject_Z n)). split; [|split; [split|reflexivity]].
  - apply (of_int_round binary32 binary32_wf n 31); [|simpl]; lia.
  - rewrite <- two_0. apply round_fin_ge_two;
      [apply binary32_wf | | simpl; lia].
    rewrite two_0. change 1 with (inject_Z 1). rewrite <- Zle_Qle. lia.
  - apply round_fin_bounds; [apply binary32_wf | | | simpl; lia].
    + apply inject_Z_nonneg. lia.
    + apply inject_Z_le_two; lia.
Qed.

Lemma f32_of_int_small (n : Z) :
  (0 <= n <= 2 ^ 24)%Z -> f32_of_int n =~ inject_Z n.
Proof.
  intro Hn. apply (of_int_exact binary32 binary32_wf); simpl; lia.
Qed.

Lemma f64_of_int_small (n : Z) :
  (0 <= n <= 2 ^ 53)%Z -> f64_of_int n =~ inject_Z n.
Proof.
  intro Hn. apply (of_int_exact binary64 binary64_wf); simpl; lia.
Qed.

Lemma aspect_correct_exact (o : DisplayOptions) :
  aspect_correct o =~ inject_Z (aspect o).
Proof.
  unfold aspect_correct, aspect.
  destruct (cell_x_px o =? 2)%Z; apply f32_of_int_small; lia.
Qed.

Lemma aspect_range (o : DisplayOptions) : (1 <= aspect o <= 2)%Z.
Proof. unfold aspect. destruct (cell_x_px o =? 2)%Z; lia. Qed.

(** The two factors of the integer upscaling as rationals. *)
Lemma upscale_factors (o : DisplayOptions) (iw ih tw th : Z) :
  (1 <= iw <= INT_MAX)%Z -> (1 <= ih <= INT_MAX)%Z ->
  (1 <= tw <= INT_MAX)%Z -> (1 <= th <= INT_MAX)%Z ->
  exists wf hf,
    fdiv32 (fdiv32 (fmul32 one32 (f32_of_int tw)) (aspect_correct o))
      (f32_of_int iw) =~ wf
    /\ fdiv32 (fmul32 one32 (f32_of_int th)) (f32_of_int ih) =~ hf
    /\ 0 <= wf <= two ^ 31 /\ 0 <= hf <= two ^ 31
    /\ wf == R32 (R32 (R32 (1 * R32 (inject_Z tw)) / inject_Z (aspect o))
                  / R32 (inject_Z iw))
    /\ hf == R32 (R32 (1 * R32 (inject_Z th)) / R32 (inject_Z ih)).
Proof.
  intros Hiw Hih Htw Hth.
  destruct (f32_of_int_pos iw Hiw) as (fiw & Fiw & Biw & Eiw).
  destruct (f32_of_int_pos ih Hih) as (fih & Fih & Bih & Eih).
  destruct (f32_of_int_pos tw Htw) as (ftw & Ftw & Btw & Etw).
  destruct (f32_of_int_pos th Hth) as (fth & Fth & Bth & Eth).
  pose proof (aspect_correct_exact o) as Fac.
  pose proof (aspect_range o) as Hac.
  assert (Bac : 1 <= inject_Z (aspect o)).
  { change 1 with (inject_Z 1). rewrite <- Zle_Qle. lia. }
  assert (W := binary32_wf).
  (* 1.0f * target *)
  assert (F1w : fmul32 one32 (f32_of_int tw) =~ R32 (1 * ftw)).
  { apply (fmul_round binary32 W _ _ _ _ 31);
      [apply Feq_Fin | assumption | lra | lra | lra | simpl; lia]. }
  assert (F1h : fmul32 one32 (f32_of_int th) =~ R32 (1 * fth)).
  { apply (fmul_round binary32 W _ _ _ _ 31);
      [apply Feq_Fin | assumption | lra | lra | lra | simpl; lia]. }
  assert (B1w : 0 <= R32 (1 * ftw) <= two ^ 31)
    by (apply round_fin_bounds; [assumption | lra | lra | simpl; lia]).
  assert (B1h : 0 <= R32 (1 * fth) <= two ^ 31)
    by (apply round_fin_bounds; [assumption | lra | lra | simpl; lia]).
  (* / aspect_correct *)
  assert (Hd : forall x y, 0 <= x <= two ^ 31 -> 1 <= y ->
                           0 <= x / y <= two ^ 31).
  { intros x y Hx Hy. split.
    - apply Qle_shift_div_l; lra.
    - apply Qle_shift_div_r; [lra|].
      apply Qle_trans with (two ^ 31 * 1); [lra|].
      apply Qmult_le_l; [apply two_pos | assumption]. }
  assert (F2w : fdiv32 (fmul32 one32 (f32_of_int tw)) (aspect_correct o)
                =~ R32 (R32 (1 * ftw) / inject_Z (aspect o))).
  { apply (fdiv_round binary32 W _ _ _ _ 31);
      [assumption | assumption | lra | lra | apply Hd; assumption
      | simpl; lia]. }
  assert (B2w : 0 <= R32 (R32 (1 * ftw) / inject_Z (aspect o)) <= two ^ 31).
  { apply round_fin_bounds; [assumption | apply Hd | apply Hd | simpl; lia];
      assumption. }
  exists (R32 (R32 (R32 (1 * ftw) / inject_Z (aspect o)) / fiw)),
         (R32 (R32 (1 * fth) / fih)).
  split; [|split; [|split; [|split; [|split]]]].
  - apply (fdiv_round binary32 W _ _ _ _ 31);
      [assumption | assumption | lra | lra | apply Hd; lra | simpl; lia].
  - apply (fdiv_round binary32 W _ _ _ _ 31);
      [assumption | assumption | lra | lra | apply Hd; lra | simpl; lia].
  - apply round_fin_bounds; [assumption | apply Hd | apply Hd | simpl; lia];
      lra.
  - apply round_fin_bounds; [assumption | apply Hd | apply Hd | simpl; lia];
      lra.
  - destruct W as (Hp & _).
    apply round_fin_eq; [assumption | apply Hd; lra |].
    apply Qmult_comp; [|now rewrite Eiw].
    apply round_fin_eq; [assumption | apply Hd; lra |].
    apply Qmult_comp; [|reflexivity].
    apply round_fin_eq; [assumption | lra |]. now rewrite Etw.
  - destruct W as (Hp & _).
    apply round_fin_eq; [assumption | apply Hd; lra |].
    apply Qmult_comp; [|now rewrite Eih].
    apply round_fin_eq; [assumption | lra |]. now rewrite Eth.
Qed.

Lemma working_options_is_int (o : DisplayOptions) (rot : bool) :
  is_int (width o) -> is_int (height o) ->
  is_int (width (working_options o rot))
  /\ is_int (height (working_options o rot)).
Proof.
  intros Hw Hh. unfold working_options, effective_options.
  destruct rot; destruct (fgt _ one32); cbn; split;
    try assumption; apply to_int_is_int.
Qed.

Lemma previously_computed_is_int (iw ih : Z) (o : DisplayOptions) (rot : bool) :
  is_int (width o) -> is_int (height o) ->
  is_int (fst (previously_computed iw ih o rot))
  /\ is_int (snd (previously_computed iw ih o rot)).
Proof.
  intros Hw Hh.
  destruct (working_options_is_int o rot Hw Hh) as [Hw' Hh'].
  unfold previously_computed, working_options in *.
  destruct (effective_options o rot) as [opts ws]. cbn [fst] in *.
  assert (H1 : is_int (fst (fit_by_policy opts iw ih))
               /\ is_int (snd (fit_by_policy opts iw ih))).
  { unfold fit_by_policy.
    destruct (fill_width opts && fill_height opts);
      [|destruct (fill_height opts); [|destruct (fill_width opts)]];
      cbn [fst snd]; split; try assumption; apply to_int_is_int. }
  destruct (fit_by_policy opts iw ih) as [a b]. cbn [fst snd] in H1.
  destruct H1 as [Ha Hb].
  assert (H2 : is_int (fst (restretch ws (a, b)))
               /\ is_int (snd (restretch ws (a, b)))).
  { unfold restretch. destruct (fgt ws one32); cbn [fst snd]; split;
      try assumption; apply to_int_is_int. }
  destruct (restretch ws (a, b)) as [c d]. cbn [fst snd] in H2.
  destruct H2 as [Hc Hd].
  assert (H3 : is_int (fst (quantize opts (c, d)))
               /\ is_int (snd (quantize opts (c, d)))).
  { unfold quantize. destruct (_ && _); cbn [fst snd]; split;
      try assumption; apply wrap32_is_int. }
  destruct (quantize opts (c, d)) as [e f]. cbn [fst snd] in H3.
  destruct H3 as [He Hf].
  cbn [at_least_one fst snd].
  split; [destruct (e <=? 0)%Z | destruct (f <=? 0)%Z]; try assumption;
    unfold is_int, INT_MIN, INT_MAX; lia.
Qed.

Lemma to_int_Z (a : float) (n : Z) :
  a =~ inject_Z n -> (0 <= n <= INT_MAX)%Z -> to_int a = n.
Proof.
  intros Ha Hn.
  destruct (to_int_floor a (inject_Z n) Ha) as [E _].
  - apply inject_Z_nonneg. lia.
  - change (2 ^ 31) with (inject_Z (2 ^ 31)). rewrite <- Zlt_Qlt.
    unfold INT_MAX in Hn. lia.
  - rewrite E. apply Qfloor_Z.
Qed.

(** A binary64 product of two integers that is an [int] is exact. *)
Lemma fmul64_ints (a b : float) (m n : Z) :
  a =~ inject_Z m -> b =~ inject_Z n ->
  (0 <= m)%Z -> (0 <= n)%Z -> (m * n <= 2 ^ 53)%Z ->
  fmul64 a b =~ inject_Z (m * n).
Proof.
  intros Ha Hb Hm Hn Hmn.
  apply Feq_eq with (R64 (inject_Z m * inject_Z n)).
  - apply (fmul_round binary64 binary64_wf _ _ _ _ 53);
      try assumption; try (apply inject_Z_nonneg; assumption);
      [|simpl; lia].
    rewrite <- inject_Z_mult. apply inject_Z_le_two; lia.
  - destruct binary64_wf as (Hp & He & Hx).
    rewrite (round_fin_eq binary64 Hp _ (inject_Z (m * n))).
    + apply round_fin_int; [apply binary64_wf | simpl prec; lia].
    + rewrite <- inject_Z_mult. apply inject_Z_nonneg. lia.
    + now rewrite inject_Z_mult.
Qed.

Lemma Qfloor_nonneg (x : Q) : 0 <= x -> (0 <= Qfloor x)%Z.
Proof. intro H. rewrite <- (Qfloor_Z 0). now apply Qfloor_resp_le. Qed.

Lemma Qfloor_le_two (x : Q) (k : Z) :
  (0 <= k)%Z -> x <= two ^ k -> (Qfloor x <= 2 ^ k)%Z.
Proof.
  intros Hk H. rewrite <- (Qfloor_Z (2 ^ k)). apply Qfloor_resp_le.
  now rewrite <- two_Z.
Qed.

(** Lines 139-150 on rationals: [q] is [smaller_factor], compared with 1
    before it is floored. *)
Lemma integer_upscale_spec (o : DisplayOptions) (iw ih tw th : Z) :
  (1 <= iw <= INT_MAX)%Z -> (1 <= ih <= INT_MAX)%Z ->
  (tw <= INT_MAX)%Z -> (th <= INT_MAX)%Z ->
  upscale_integer o = true -> (iw < tw)%Z -> (ih < th)%Z ->
  exists wf hf q,
    wf == R32 (R32 (R32 (1 * R32 (inject_Z tw)) / inject_Z (aspect o))
               / R32 (inject_Z iw))
    /\ hf == R32 (R32 (1 * R32 (inject_Z th)) / R32 (inject_Z ih))
    /\ q == Qmin wf hf
    /\ smaller_factor o iw ih (tw, th) =~ q
    /\ 0 <= q <= two ^ 31
    /\ (1 < q ->
        (1 <= Qfloor q)%Z
        /\ ((aspect o * Qfloor q * iw <= INT_MAX)%Z ->
            fst (integer_upscale o iw ih (tw, th))
            = (aspect o * Qfloor q * iw)%Z)
        /\ ((Qfloor q * ih <= INT_MAX)%Z ->
            snd (integer_upscale o iw ih (tw, th)) = (Qfloor q * ih)%Z))
    /\ (q <= 1 -> integer_upscale o iw ih (tw, th) = (tw, th)).
Proof.
  intros Hiw Hih Htw Hth Hui Hwlt Hhlt.
  destruct (upscale_factors o iw ih tw th) as (wf & hf & Fw & Fh & Bw & Bh & Ew & Eh);
    try lia.
  assert (Hsf : smaller_factor o iw ih (tw, th) =~ Qmin wf hf
                /\ 0 <= Qmin wf hf <= two ^ 31).
  { unfold smaller_factor.
    destruct (flt _ _) eqn:E.
    - apply (flt_spec _ _ wf hf Fw Fh) in E.
      assert (Em : Qmin wf hf == wf) by (apply Q.min_l; lra).
      split; [apply Feq_eq with wf; [assumption | now symmetry]
             | rewrite Em; assumption].
    - assert (~ wf < hf).
      { intro H. apply (flt_spec _ _ wf hf Fw Fh) in H. congruence. }
      assert (Em : Qmin wf hf == hf) by (apply Q.min_r; lra).
      split; [apply Feq_eq with hf; [assumption | now symmetry]
             | rewrite Em; assumption]. }
  destruct Hsf as [Fq Bq].
  exists wf, hf, (Qmin wf hf).
  split; [exact Ew|]. split; [exact Eh|]. split; [reflexivity|].
  split; [exact Fq|]. split; [exact Bq|].
  set (q := Qmin wf hf) in *.
  assert (Hgt : fgt (smaller_factor o iw ih (tw, th)) one32 = true <-> 1 < q).
  { apply (fgt_spec _ _ q 1 Fq). apply Feq_Fin. }
  assert (Hcond : upscale_integer o && (iw <? tw)%Z && (ih <? th)%Z = true).
  { rewrite Hui. cbn [andb].
    apply andb_true_iff. split; apply Z.ltb_lt; assumption. }
  split.
  - intro Hq.
    assert (Hn1 : (1 <= Qfloor q)%Z).
    { rewrite <- (Qfloor_Z 1). apply Qfloor_resp_le, Qlt_le_weak. exact Hq. }
    assert (Hn2 : (Qfloor q <= 2 ^ 31)%Z) by (apply Qfloor_le_two; [lia|lra]).
    pose proof (aspect_range o) as Hac.
    pose proof (ffloor_spec _ _ Fq) as Fn.
    assert (Fan : fmul64 (aspect_correct o)
                    (ffloor (smaller_factor o iw ih (tw, th)))
                  =~ inject_Z (aspect o * Qfloor q)).
    { apply fmul64_ints; [apply aspect_correct_exact | exact Fn | lia | lia |].
      apply Z.le_trans with (2 * 2 ^ 31)%Z; [nia | lia]. }
    unfold integer_upscale. rewrite Hcond.
    apply Hgt in Hq. rewrite Hq. cbn [fst snd].
    unfold INT_MAX in *.
    split; [exact Hn1|]. split; intro Hfit.
    + apply to_int_Z; [|unfold INT_MAX; nia].
      apply fmul64_ints; [exact Fan | apply f64_of_int_small; lia
                         | nia | lia | lia].
    + apply to_int_Z; [|unfold INT_MAX; nia].
      apply fmul64_ints; [exact Fn | apply f64_of_int_small; lia
                         | lia | lia | lia].
  - intro Hq. unfold integer_upscale. rewrite Hcond.
    destruct (fgt _ one32) eqn:E; [|reflexivity].
    assert (1 < q) by (apply Hgt; reflexivity). lra.
Qed.

Local Close Scope Q_scope.

Lemma aspect_working_options (o : DisplayOptions) (rot : bool) :
  aspect (working_options o rot) = aspect o.
Proof.
  unfold aspect. now destruct (working_options_fields o rot) as (-> & _).
Qed.

(** C4, where it fails.  A 10x10 image in a 15x15 box with upscaling:
    the target before the integer upscaling is 15x15, the smaller factor
    is 3/2, its floor 1 is not above 1, and yet the target is recomputed,
    to 10x10. *)
Lemma factor_below_two_recomputes :
  let o := box 15 15 false false true true 1 1 in
  previously_computed 10 10 o false = (15, 15)
  /\ smaller_factor (working_options o false) 10 10 (15, 15) = Fin (3 # 2)
  /\ CalcScaleToFitDisplay 10 10 o false
     = {| needs_scaling := false; target_width := 10; target_height := 10 |}
  /\ ~ floored_factor_claim 10 10 o false.
Proof.
  split; [vm_compute; reflexivity|].
  split; [vm_compute; reflexivity|].
  split; [vm_compute; reflexivity|].
  intro H.
  destruct H as (q & (q' & E & Eq) & _ & H);
    try (vm_compute; reflexivity).
  vm_compute in E. injection E as E. subst q'.
  rewrite <- (Qfloor_eq _ _ Eq) in H.
  assert (Hf : Qfloor (3 # 2) <= 1) by (vm_compute; discriminate).
  destruct (H Hf) as [H1 _]. vm_compute in H1. discriminate.
Qed.

(** C4, amended.  When [upscale_integer] is set and both dimensions of
    the target computed so far exceed the source, the factors are
    [wf = target_width / aspect_correct / source width] and
    [hf = target_height / source height], each operation rounded to
    binary32, and [q] is the smaller of them.  The target is recomputed if
    and only if [q] itself, not its floor, is above 1: then the width is
    [aspect_correct * floor q * source width] and the height
    [floor q * source height], as long as these are [int]s; otherwise the
    target stays as computed. *)
Theorem integer_upscale_recomputes :
  forall (iw ih : Z) (o : DisplayOptions) (rot : bool),
    1 <= iw <= INT_MAX -> 1 <= ih <= INT_MAX ->
    is_int (width o) -> is_int (height o) ->
    let opts := working_options o rot in
    let t0 := previously_computed iw ih o rot in
    let r := CalcScaleToFitDisplay iw ih o rot in
    no_scaling_needed opts iw ih = false ->
    upscale_integer o = true ->
    iw < fst t0 -> ih < snd t0 ->
    exists wf hf q,
      (wf == R32 (R32 (R32 (1 * R32 (inject_Z (fst t0))) / inject_Z (aspect o))
                  / R32 (inject_Z iw)))%Q
      /\ (hf == R32 (R32 (1 * R32 (inject_Z (snd t0))) / R32 (inject_Z ih)))%Q
      /\ (q == Qmin wf hf)%Q
      /\ smaller_factor opts iw ih t0 =~ q
      /\ ((1 < q)%Q ->
          (aspect o * Qfloor q * iw <= INT_MAX ->
           target_width r = aspect o * Qfloor q * iw)
          /\ (Qfloor q * ih <= INT_MAX ->
              target_height r = Qfloor q * ih))
      /\ ((q <= 1)%Q ->
          target_width r = fst t0 /\ target_height r = snd t0).
Proof.
  intros iw ih o rot Hiw Hih Hw Hh opts t0 r Hno Hui Htw Hth.
  destruct (previously_computed_is_int iw ih o rot Hw Hh) as [Iw Ih].
  fold t0 in Iw, Ih.
  assert (Er : r = {| needs_scaling :=
                        negb (fst (integer_upscale opts iw ih t0) =? iw)
                        || negb (snd (integer_upscale opts iw ih t0) =? ih);
                      target_width := fst (integer_upscale opts iw ih t0);
                      target_height := snd (integer_upscale opts iw ih t0) |})
    by (apply CalcScaleToFitDisplay_scaled; assumption).
  destruct t0 as [tw0 th0] eqn:Et0. cbn [fst snd] in *.
  destruct (integer_upscale_spec opts iw ih tw0 th0)
    as (wf & hf & q & Ew & Eh & Eq & Fq & _ & Hrec & Hkeep);
    try assumption; try (unfold is_int in *; lia).
  { destruct (working_options_fields o rot) as (_ & _ & _ & E & _).
    unfold opts. now rewrite E. }
  unfold opts in Ew, Hrec. rewrite aspect_working_options in Ew, Hrec.
  exists wf, hf, q.
  split; [exact Ew|]. split; [exact Eh|]. split; [exact Eq|].
  split; [exact Fq|]. rewrite Er. cbn [target_width target_height].
  split.
  - intro Hq. destruct (Hrec Hq) as (_ & H1 & H2). split; assumption.
  - intro Hq. fold opts. rewrite (Hkeep Hq). split; reflexivity.
Qed.

Lemma integer_upscale_recomputes_witness :
  let o := box 35 35 false false true true 1 1 in
  let opts := working_options o false in
  let t0 := previously_computed 10 10 o false in
  let r := CalcScaleToFitDisplay 10 10 o false in
  exists wf hf q : Q,
    (wf == R32 (R32 (R32 (1 * R32 (inject_Z (fst t0))) / inject_Z (aspect o))
                / R32 (inject_Z 10)))%Q
    /\ (hf == R32 (R32 (1 * R32 (inject_Z (snd t0))) / R32 (inject_Z 10)))%Q
    /\ (q == Qmin wf hf)%Q
    /\ smaller_factor opts 10 10 t0 =~ q
    /\ ((1 < q)%Q ->
        (aspect o * Qfloor q * 10 <= INT_MAX ->
         target_width r = aspect o * Qfloor q * 10)
        /\ (Qfloor q * 10 <= INT_MAX -> target_height r = Qfloor q * 10))
    /\ ((q <= 1)%Q -> target_width r = fst t0 /\ target_height r = snd t0).
Proof.
  intros o opts t0 r.
  apply (integer_upscale_recomputes 10 10 o false).
  - unfold INT_MAX; lia.
  - unfold INT_MAX; lia.
  - unfold is_int, INT_MIN, INT_MAX; simpl; lia.
  - unfold is_int, INT_MIN, INT_MAX; simpl; lia.
  - vm_compute; reflexivity.
  - reflexivity.
  - vm_compute; reflexivity.
  - vm_compute; reflexivity.
Defined.

(** ** Whole cells *)






Local Open Scope Q_scope.

(** ** The stretch *)

Lemma kMinAcceptFactor_value : kMinAcceptFactor = Fin kMin.
Proof. vm_compute. reflexivity. Qed.

Lemma rnd_not_NaN (fmt : format) (x : Q) : rnd fmt x <> NaN.
Proof. unfold rnd. destruct (Qle_bool _ _); discriminate. Qed.

Lemma fdiv_one_not_NaN (a : float) : a <> NaN -> fdiv32 one32 a <> NaN.
Proof.
  intro H. unfold fdiv32, one32. destruct a as [y|s|]; cbn [fdiv].
  - destruct (Qzero y); [cbn; discriminate | apply rnd_not_NaN].
  - discriminate.
  - contradiction.
Qed.

Lemma clamp_stretch_range (a : float) :
  a <> NaN ->
  exists s, clamp_stretch a =~ s /\ kMin <= s <= 5.
Proof.
  intro H. unfold clamp_stretch. rewrite kMinAcceptFactor_value.
  unfold kMaxAcceptFactor, fgt.
  destruct a as [q|[|]|]; cbn [flt negb andb].
  - destruct (Qle_bool q 5) eqn:E5; cbn [negb flt].
    + apply Qle_bool_iff in E5.
      destruct (Qle_bool kMin q) eqn:Ek; cbn [negb].
      * apply Qle_bool_iff in Ek. exists q. split; [apply Feq_Fin | lra].
      * exists kMin. split; [apply Feq_Fin | unfold kMin; lra].
    + replace (Qle_bool kMin 5) with true by reflexivity. cbn [negb].
      exists 5. split; [apply Feq_Fin | unfold kMin; lra].
  - exists kMin. split; [apply Feq_Fin | unfold kMin; lra].
  - replace (Qle_bool kMin 5) with true by reflexivity. cbn [negb].
    exists 5. split; [apply Feq_Fin | unfold kMin; lra].
  - contradiction.
Qed.

Lemma effective_options_spec (o : DisplayOptions) (rot : bool) :
  width_stretch o <> NaN ->
  exists s ws,
    snd (effective_options o rot) = ws /\ ws =~ s /\ kMin <= s <= 5
    /\ ((1 < s /\ fgt ws one32 = true
         /\ width (working_options o rot)
            = to_int (fdiv32 (f32_of_int (box_width o rot)) ws)
         /\ height (working_options o rot) = box_height o rot)
        \/ (s <= 1 /\ fgt ws one32 = false
            /\ width (working_options o rot) = box_width o rot
            /\ height (working_options o rot)
               = to_int (fmul32 (f32_of_int (box_height o rot)) ws))).
Proof.
  intro HNaN.
  unfold working_options, effective_options, box_width, box_height.
  set (o' := if rot then rotate_options o else o).
  assert (Hws : width_stretch o' <> NaN).
  { unfold o'. destruct rot; [|assumption].
    cbn [rotate_options width_stretch]. now apply fdiv_one_not_NaN. }
  destruct (clamp_stretch_range _ Hws) as (s & Fs & Bs).
  exists s, (clamp_stretch (width_stretch o')).
  assert (Hgt : fgt (clamp_stretch (width_stretch o')) one32 = true <-> 1 < s)
    by (apply (fgt_spec _ _ s 1 Fs); apply Feq_Fin).
  destruct (fgt (clamp_stretch (width_stretch o')) one32) eqn:E.
  - split; [reflexivity|]. split; [assumption|]. split; [assumption|].
    left. split; [now apply Hgt|]. split; [reflexivity|].
    unfold o'. destruct rot; cbn; split; reflexivity.
  - split; [reflexivity|]. split; [assumption|]. split; [assumption|].
    right. split.
    + apply Qnot_lt_le. intro Hlt. apply Hgt in Hlt. discriminate.
    + split; [reflexivity|].
      unfold o'. destruct rot; cbn; split; reflexivity.
Qed.

Lemma R32_up (x : Q) : (1 # 1073741824) <= x -> R32 x <= x * (1 + eps).
Proof.
  intro H.
  destruct (round_fin_relative binary32 x) as [Hup _]; [|exact Hup].
  eapply Qle_trans; [|exact H].
  apply Qle_trans with (two ^ (-30)); [apply two_le; simpl; lia|].
  vm_compute. discriminate.
Qed.

Lemma R32_le (x y : Q) : 0 <= x -> x <= y -> R32 x <= R32 y.
Proof. apply round_fin_le. simpl. lia. Qed.

Lemma R32_int (n : Z) : (0 <= n <= 2 ^ 24)%Z -> R32 (inject_Z n) == inject_Z n.
Proof. intro H. apply round_fin_int; [apply binary32_wf | exact H]. Qed.

Lemma R32_0 : R32 0 == 0.
Proof. now apply round_fin_0. Qed.

Lemma R32_nonneg (x : Q) : 0 <= x -> 0 <= R32 x.
Proof. apply round_fin_nonneg. Qed.

Lemma R32_le_two (x : Q) (k : Z) :
  0 <= x -> x <= two ^ k -> (-149 <= k)%Z -> R32 x <= two ^ k.
Proof.
  intros H0 Hk Hr.
  apply (round_fin_bounds binary32 x k binary32_wf H0 Hk). exact Hr.
Qed.

Lemma R32_le_int (x : Q) (n : Z) :
  0 <= x -> x <= inject_Z n -> (n <= 2 ^ 24)%Z -> R32 x <= inject_Z n.
Proof.
  intros H0 Hn Hr.
  assert (0 <= inject_Z n) by lra.
  assert (0 <= n)%Z by (rewrite Zle_Qle; exact H).
  rewrite <- (R32_int n) by lia. now apply R32_le.
Qed.

Lemma Qfloor_le_Z (x : Q) (n : Z) : x < inject_Z n + 1 -> (Qfloor x <= n)%Z.
Proof.
  intro H. assert (Qfloor x < n + 1)%Z; [|lia].
  rewrite Zlt_Qlt, inject_Z_succ.
  eapply Qle_lt_trans; [apply Qfloor_le | exact H].
Qed.

Lemma small_inject (n : Z) : small n -> 1 <= inject_Z n <= 8192.
Proof.
  intros [H1 H2]. split.
  - change 1 with (inject_Z 1). now rewrite <- Zle_Qle.
  - change 8192 with (inject_Z (2 ^ 13)). now rewrite <- Zle_Qle.
Qed.

Lemma moderate_inject (n : Z) : moderate n -> 1 <= inject_Z n <= 16777216.
Proof.
  intros [H1 H2]. split.
  - change 1 with (inject_Z 1). now rewrite <- Zle_Qle.
  - change 16777216 with (inject_Z (2 ^ 24)). now rewrite <- Zle_Qle.
Qed.

Lemma small_moderate (n : Z) : small n -> moderate n.
Proof. unfold small, moderate. lia. Qed.

(** The space left after the stretch is taken out: never more than the
    box, and within a rounding of the stretched box. *)
Lemma working_box (o : DisplayOptions) (rot : bool) :
  width_stretch o <> NaN ->
  small (box_width o rot) -> small (box_height o rot) ->
  exists s ws,
    snd (effective_options o rot) = ws /\ ws =~ s /\ kMin <= s <= 5
    /\ (0 <= width (working_options o rot) <= box_width o rot)%Z
    /\ (0 <= height (working_options o rot) <= box_height o rot)%Z
    /\ ((1 < s /\ fgt ws one32 = true
         /\ inject_Z (width (working_options o rot))
            <= inject_Z (box_width o rot) / s * (1 + eps)
         /\ height (working_options o rot) = box_height o rot)
        \/ (s <= 1 /\ fgt ws one32 = false
            /\ width (working_options o rot) = box_width o rot
            /\ inject_Z (height (working_options o rot))
               <= inject_Z (box_height o rot) * s * (1 + eps))).
Proof.
  intros HNaN HW HH.
  destruct (effective_options_spec o rot HNaN)
    as (s & ws & Ews & Fs & Bs & Hcase).
  pose proof (small_inject _ HW) as QW. pose proof (small_inject _ HH) as QH.
  assert (FW : f32_of_int (box_width o rot) =~ inject_Z (box_width o rot))
    by (apply f32_of_int_small; unfold small in HW; lia).
  assert (FH : f32_of_int (box_height o rot) =~ inject_Z (box_height o rot))
    by (apply f32_of_int_small; unfold small in HH; lia).
  unfold kMin in Bs.
  exists s, ws. split; [exact Ews|]. split; [exact Fs|].
  split; [exact Bs|].
  destruct Hcase as [(Hs & Hgt & Ew & Eh) | (Hs & Hgt & Ew & Eh)].
  - set (x := inject_Z (box_width o rot) / s).
    assert (Hx0 : 0 <= x) by (apply Qle_shift_div_l; lra).
    assert (Hx1 : x <= inject_Z (box_width o rot))
      by (apply Qle_shift_div_r; [lra|]; nra).
    assert (Hx2 : (1 # 1073741824) <= x) by (apply Qle_shift_div_l; lra).
    assert (Fd : fdiv32 (f32_of_int (box_width o rot)) ws =~ R32 x).
    { apply (fdiv_round binary32 binary32_wf _ _ _ _ 13);
        [assumption | assumption | lra | lra | | simpl; lia].
      fold x. change (two ^ 13) with 8192. lra. }
    assert (Hr : R32 x <= inject_Z (box_width o rot))
      by (apply R32_le_int; [assumption | assumption
                            | unfold small in HW; lia]).
    destruct (to_int_floor _ _ Fd) as [Ei Bi];
      [now apply R32_nonneg | change (2 ^ 31) with 2147483648; lra |].
    rewrite Ew, Ei, Eh.
    assert (Hfl : (Qfloor (R32 x) <= box_width o rot)%Z).
    { apply Qfloor_le_Z. pose proof (Qfloor_le (R32 x)). lra. }
    split; [lia|]. split; [unfold small in HH; lia|].
    left. split; [assumption|]. split; [assumption|]. split; [|reflexivity].
    eapply Qle_trans; [apply Qfloor_le|]. now apply R32_up.
  - set (x := inject_Z (box_height o rot) * s).
    assert (Hx0 : 0 <= x) by (unfold x; nra).
    assert (Hx1 : x <= inject_Z (box_height o rot)) by (unfold x; nra).
    assert (Hx2 : (1 # 1073741824) <= x) by (unfold x; nra).
    assert (Fd : fmul32 (f32_of_int (box_height o rot)) ws =~ R32 x).
    { apply (fmul_round binary32 binary32_wf _ _ _ _ 13);
        [assumption | assumption | lra | lra | | simpl; lia].
      fold x. change (two ^ 13) with 8192. lra. }
    assert (Hr : R32 x <= inject_Z (box_height o rot))
      by (apply R32_le_int; [assumption | assumption
                            | unfold small in HH; lia]).
    destruct (to_int_floor _ _ Fd) as [Ei Bi];
      [now apply R32_nonneg | change (2 ^ 31) with 2147483648; lra |].
    rewrite Ew, Eh, Ei.
    assert (Hfl : (Qfloor (R32 x) <= box_height o rot)%Z).
    { apply Qfloor_le_Z. pose proof (Qfloor_le (R32 x)). lra. }
    split; [unfold small in HW; lia|]. split; [lia|].
    right. split; [assumption|]. split; [assumption|]. split; [reflexivity|].
    eapply Qle_trans; [apply Qfloor_le|]. now apply R32_up.
Qed.

(** ** Fractions and their products *)

Lemma Qdiv_small (m n : Q) : 0 <= m -> 1 <= n -> 0 <= m / n <= m.
Proof.
  intros Hm Hn. split.
  - apply Qle_shift_div_l; lra.
  - apply Qle_shift_div_r; [lra | nra].
Qed.

(** [(float)m / n] for a box side [m] and an image side [n]. *)
Lemma fraction_value (m n : Z) :
  (0 <= m <= 2 ^ 13)%Z -> moderate n ->
  fdiv32 (f32_of_int m) (f32_of_int n) =~ R32 (inject_Z m / inject_Z n)
  /\ 0 <= R32 (inject_Z m / inject_Z n) <= 8192.
Proof.
  intros Hm Hn. pose proof (moderate_inject n Hn) as Qn.
  assert (Qm : 0 <= inject_Z m <= 8192).
  { split; [apply inject_Z_nonneg; lia|].
    change 8192 with (inject_Z (2 ^ 13)). rewrite <- Zle_Qle. lia. }
  destruct (Qdiv_small (inject_Z m) (inject_Z n)) as [D0 D1]; try lra.
  split.
  - apply (fdiv_round binary32 binary32_wf _ _ _ _ 13);
      [apply f32_of_int_small; lia
      | apply f32_of_int_small; unfold moderate in Hn; lia
      | lra | lra | change (two ^ 13) with 8192; lra | simpl; lia].
  - split; [now apply R32_nonneg|].
    change 8192 with (two ^ 13). apply R32_le_two; [assumption | | lia].
    change (two ^ 13) with 8192. lra.
Qed.

(** [(int)roundf(fraction * n)] *)
Lemma scaled_value (f : float) (x : Q) (n k : Z) :
  f =~ x -> 0 <= x -> moderate n ->
  (0 <= k <= 30)%Z -> x * inject_Z n <= two ^ k ->
  to_int (roundf (fmul32 f (f32_of_int n)))
  = Qfloor (R32 (x * inject_Z n) + (1 # 2))
  /\ (0 <= Qfloor (R32 (x * inject_Z n) + (1 # 2)) <= 2 ^ k)%Z.
Proof.
  intros Fx Hx Hn Hk Hxn. pose proof (moderate_inject n Hn) as Qn.
  assert (Hp : 0 <= x * inject_Z n) by nra.
  assert (Fm : fmul32 f (f32_of_int n) =~ R32 (x * inject_Z n)).
  { apply (fmul_round binary32 binary32_wf _ _ _ _ k);
      [assumption | apply f32_of_int_small; unfold moderate in Hn; lia
      | lra | lra | lra | simpl; lia]. }
  assert (Hr : 0 <= R32 (x * inject_Z n) <= two ^ k).
  { split; [apply R32_nonneg; lra | apply R32_le_two; [lra | lra | lia]]. }
  rewrite two_Z in Hr by lia.
  pose proof (roundf_spec _ _ Fm (proj1 Hr)) as Fr.
  set (S := Qfloor (R32 (x * inject_Z n) + (1 # 2))) in *.
  assert (H30 : (2 ^ k <= 2 ^ 30)%Z) by (apply Z.pow_le_mono_r; lia).
  assert (HS : (0 <= S <= 2 ^ k)%Z).
  { split.
    - apply Qfloor_nonneg. lra.
    - apply Qfloor_le_Z. lra. }
  split; [|exact HS].
  apply to_int_Z; [exact Fr | unfold INT_MAX; lia].
Qed.

(** A fraction that is at most the rounded quotient [m / n] scales [n] to
    [m] at most. *)
Lemma scaled_le_box (x : Q) (m n : Z) :
  (0 <= m <= 2 ^ 13)%Z -> moderate n ->
  0 <= x -> x <= R32 (inject_Z m / inject_Z n) ->
  (Qfloor (R32 (x * inject_Z n) + (1 # 2)) <= m)%Z.
Proof.
  intros Hm Hn Hx0 Hx. pose proof (moderate_inject n Hn) as Qn.
  assert (Qm : 0 <= inject_Z m <= 8192).
  { split; [apply inject_Z_nonneg; lia|].
    change 8192 with (inject_Z (2 ^ 13)). rewrite <- Zle_Qle. lia. }
  apply Qfloor_le_Z.
  destruct (Z.eq_dec m 0) as [->|Hm0].
  - assert (E : R32 (inject_Z 0 / inject_Z n) == 0).
    { apply round_fin_0. unfold Qdiv. simpl. ring. }
    assert (Ex : x == 0) by lra.
    assert (E2 : R32 (x * inject_Z n) == 0).
    { rewrite (round_fin_eq binary32 ltac:(simpl; lia) _ 0); [apply R32_0| |];
        rewrite Ex; [apply Qle_refl|]; ring. }
    rewrite E2. reflexivity.
  - assert (Qm1 : 1 <= inject_Z m).
    { change 1 with (inject_Z 1). rewrite <- Zle_Qle. lia. }
    set (d := inject_Z m / inject_Z n) in *.
    assert (Hd : inject_Z m == d * inject_Z n) by (unfold d; field; lra).
    assert (Hd0 : (1 # 1073741824) <= d).
    { unfold d. apply Qle_shift_div_l; lra. }
    pose proof (R32_up d Hd0) as Hup.
    assert (Hp : x * inject_Z n <= inject_Z m * (1 + eps)).
    { rewrite Hd. unfold eps in *. nra. }
    assert (Hp0 : 0 <= x * inject_Z n) by nra.
    assert (Hq : (1 # 1073741824) <= inject_Z m * (1 + eps))
      by (unfold eps; lra).
    pose proof (R32_up _ Hq) as Hup2.
    pose proof (R32_le _ _ Hp0 Hp) as Hmono.
    unfold eps in *. lra.
Qed.

Lemma scaled_le_source (x : Q) (n : Z) :
  moderate n -> 0 <= x -> x <= 1 ->
  (Qfloor (R32 (x * inject_Z n) + (1 # 2)) <= n)%Z.
Proof.
  intros Hn Hx0 Hx. pose proof (moderate_inject n Hn) as Qn.
  apply Qfloor_le_Z.
  assert (R32 (x * inject_Z n) <= inject_Z n).
  { apply R32_le_int; [nra | nra | unfold moderate in Hn; lia]. }
  lra.
Qed.

(** ** Bounds along the computation *)

Lemma fit_by_policy_bounds (opts : DisplayOptions) (iw ih : Z) :
  (0 <= width opts <= 2 ^ 13)%Z -> (0 <= height opts <= 2 ^ 13)%Z ->
  small iw -> small ih ->
  (0 <= fst (fit_by_policy opts iw ih) <= 2 ^ 26)%Z
  /\ (0 <= snd (fit_by_policy opts iw ih) <= 2 ^ 26)%Z.
Proof.
  intros Hw Hh Hiw Hih.
  destruct (fraction_value _ _ Hw (small_moderate _ Hiw)) as [Fw Bw].
  destruct (fraction_value _ _ Hh (small_moderate _ Hih)) as [Fh Bh].
  unfold fit_by_policy, width_fraction, height_fraction.
  set (wf := fdiv32 (f32_of_int (width opts)) (f32_of_int iw)) in *.
  set (hf := fdiv32 (f32_of_int (height opts)) (f32_of_int ih)) in *.
  assert (S : forall f x n, f =~ x -> 0 <= x <= 8192 -> small n ->
                (0 <= to_int (roundf (fmul32 f (f32_of_int n))) <= 2 ^ 26)%Z).
  { intros f x n Ff Hx Hn. pose proof (small_inject n Hn) as Qn.
    destruct (scaled_value f x n 26 Ff (proj1 Hx) (small_moderate _ Hn))
      as [-> H]; [lia | | exact H].
    change (two ^ 26) with (8192 * 8192). nra. }
  destruct (fill_width opts && fill_height opts).
  - cbn [fst snd]. destruct (fgt wf hf); split; eapply S; eassumption.
  - destruct (fill_height opts); [|destruct (fill_width opts)]; cbn [fst snd].
    + split; [eapply S; eassumption | lia].
    + split; [lia | eapply S; eassumption].
    + destruct (flt wf hf); split; eapply S; eassumption.
Qed.

Lemma f32_of_int_le_two (n k : Z) :
  (0 <= k <= 31)%Z -> (0 <= n <= 2 ^ k)%Z ->
  f32_of_int n =~ R32 (inject_Z n) /\ 0 <= R32 (inject_Z n) <= two ^ k.
Proof.
  intros Hk Hn. split.
  - apply (of_int_round binary32 binary32_wf n k); [lia | simpl; lia].
  - split; [apply R32_nonneg, inject_Z_nonneg; lia|].
    apply R32_le_two; [apply inject_Z_nonneg; lia | | lia].
    apply inject_Z_le_two; lia.
Qed.

Lemma restretch_bounds (ws : float) (s : Q) (a b : Z) :
  ws =~ s -> kMin <= s <= 5 ->
  (0 <= a <= 2 ^ 26)%Z -> (0 <= b <= 2 ^ 26)%Z ->
  (0 <= fst (restretch ws (a, b)) <= 2 ^ 29)%Z
  /\ (0 <= snd (restretch ws (a, b)) <= 2 ^ 29)%Z.
Proof.
  intros Fs Bs Ha Hb. unfold kMin in Bs. unfold restretch.
  destruct (f32_of_int_le_two a 26) as [Fa Ba]; [lia | lia |].
  destruct (f32_of_int_le_two b 26) as [Fb Bb]; [lia | lia |].
  change (two ^ 26) with 67108864 in *.
  assert (T : forall f x, f =~ R32 x -> 0 <= x -> x <= 536870912 ->
                (0 <= to_int f <= 2 ^ 29)%Z).
  { intros f x Ff H0 H1.
    assert (Hr : R32 x <= two ^ 29)
      by (apply R32_le_two; [assumption | exact H1 | lia]).
    change (two ^ 29) with 536870912 in Hr.
    destruct (to_int_floor f (R32 x) Ff) as [-> _];
      [now apply R32_nonneg | change (2 ^ 31) with 2147483648; lra |].
    split; [apply Qfloor_nonneg; now apply R32_nonneg|].
    apply Qfloor_le_Z. change (inject_Z (2 ^ 29)) with 536870912.
    pose proof (Qfloor_le (R32 x)). lra. }
  destruct (fgt ws one32); cbn [fst snd].
  - split; [|lia].
    apply (T _ (R32 (inject_Z a) * s)); [|nra|nra].
    apply (fmul_round binary32 binary32_wf _ _ _ _ 29);
      [assumption | assumption | lra | lra
      | change (two ^ 29) with 536870912; nra | simpl; lia].
  - split; [lia|].
    assert (Hd : 0 <= R32 (inject_Z b) / s <= 536870912).
    { split; [apply Qle_shift_div_l; lra|].
      apply Qle_shift_div_r; [lra | nra]. }
    apply (T _ (R32 (inject_Z b) / s)); [|lra|lra].
    apply (fdiv_round binary32 binary32_wf _ _ _ _ 29);
      [assumption | assumption | lra | lra
      | change (two ^ 29) with 536870912; lra | simpl; lia].
Qed.

Lemma quantize_bounds (opts : DisplayOptions) (a b B : Z) :
  (0 <= a <= B)%Z -> (0 <= b <= B)%Z -> (B <= INT_MAX)%Z ->
  (0 <= fst (quantize opts (a, b)) <= a)%Z
  /\ (0 <= snd (quantize opts (a, b)) <= b)%Z.
Proof.
  intros Ha Hb HB. unfold quantize.
  destruct (_ && _) eqn:E; cbn [fst snd]; [|lia].
  apply andb_true_iff in E. destruct E as [E Ey2].
  apply andb_true_iff in E. destruct E as [E Ey1].
  apply andb_true_iff in E. destruct E as [Ex1 Ex2].
  apply Z.ltb_lt in Ex1, Ey1. apply Z.leb_le in Ex2, Ey2.
  assert (Q : forall v c, (0 <= v <= B)%Z -> (0 < c)%Z ->
                (0 <= int_mul (int_div v c) c <= v)%Z).
  { intros v c Hv Hc. unfold int_mul, int_div.
    rewrite Z.quot_div_nonneg by lia.
    pose proof (Z.mul_div_le v c Hc).
    pose proof (Z.div_pos v c ltac:(lia) Hc).
    rewrite wrap32_small; [nia|].
    unfold INT_MIN, INT_MAX in *. nia. }
  split; apply Q; lia.
Qed.

Lemma at_least_one_bounds (a b : Z) :
  (1 <= fst (at_least_one (a, b)) <= Z.max 1 a)%Z
  /\ (1 <= snd (at_least_one (a, b)) <= Z.max 1 b)%Z.
Proof.
  cbn [at_least_one fst snd].
  destruct (Z.leb_spec a 0), (Z.leb_spec b 0); lia.
Qed.

Lemma within_bounds_box (iw ih : Z) (o : DisplayOptions) (rot : bool) :
  within_bounds iw ih o ->
  small (box_width o rot) /\ small (box_height o rot).
Proof.
  intros (_ & _ & Hw & Hh & _). unfold box_width, box_height.
  destruct rot; split; assumption.
Qed.

Lemma letterbox_bounds_box (iw ih : Z) (o : DisplayOptions) (rot : bool) :
  letterbox_bounds iw ih o ->
  small (box_width o rot) /\ small (box_height o rot).
Proof.
  intros (_ & _ & Hw & Hh & _). unfold box_width, box_height.
  destruct rot; split; assumption.
Qed.

Lemma previously_computed_bounds (iw ih : Z) (o : DisplayOptions) (rot : bool) :
  within_bounds iw ih o ->
  (1 <= fst (previously_computed iw ih o rot) <= 2 ^ 29)%Z
  /\ (1 <= snd (previously_computed iw ih o rot) <= 2 ^ 29)%Z.
Proof.
  intro Hb. destruct (within_bounds_box iw ih o rot Hb) as [HW HH].
  destruct Hb as (Hiw & Hih & _ & _ & HNaN).
  destruct (working_box o rot HNaN HW HH)
    as (s & ws & Ews & Fs & Bs & Bw & Bh & _).
  unfold previously_computed, working_options in *.
  destruct (effective_options o rot) as [opts ws']. cbn [fst snd] in *.
  subst ws'. unfold small in HW, HH.
  destruct (fit_by_policy_bounds opts iw ih) as [P1 P2];
    try assumption; try lia.
  destruct (fit_by_policy opts iw ih) as [a b]. cbn [fst snd] in *.
  destruct (restretch_bounds ws s a b Fs Bs P1 P2) as [R1 R2].
  destruct (restretch ws (a, b)) as [c d]. cbn [fst snd] in *.
  destruct (quantize_bounds opts c d (2 ^ 29)) as [Q1 Q2];
    try assumption; [unfold INT_MAX; lia|].
  destruct (quantize opts (c, d)) as [e f]. cbn [fst snd] in *.
  pose proof (at_least_one_bounds e f) as [A1 A2]. lia.
Qed.

Lemma integer_upscale_off (o : DisplayOptions) (iw ih : Z) (t : Z * Z) :
  upscale_integer o = false -> integer_upscale o iw ih t = t.
Proof. intro H. unfold integer_upscale. destruct t. now rewrite H. Qed.

Lemma R32_ge_half (x : Q) : (1 # 2) <= x -> (1 # 2) <= R32 x.
Proof.
  intro H. change (1 # 2) with (two ^ (-1)).
  apply round_fin_ge_two; [apply binary32_wf | exact H | simpl; lia].
Qed.

Lemma R32_ge_one (x : Q) : 1 <= x -> 1 <= R32 x.
Proof.
  intro H. change 1 with (two ^ 0).
  apply round_fin_ge_two; [apply binary32_wf | exact H | simpl; lia].
Qed.

(** [floor(factor) * n] stays below [2 ^ 31] when the factor is at most the
    rounded quotient of a target below [2 ^ 30] by [n]. *)
Lemma floored_product_fits (q A : Q) (n : Z) :
  moderate n -> (1 # 2) <= A ->
  0 <= q -> q <= R32 (A / R32 (inject_Z n)) ->
  inject_Z (Qfloor q * n) <= A * (1 + eps).
Proof.
  intros Hn HA Hq0 Hq. pose proof (moderate_inject n Hn) as Qn.
  assert (Ei : R32 (inject_Z n) == inject_Z n)
    by (apply R32_int; unfold moderate in Hn; lia).
  assert (Hd : (1 # 1073741824) <= A / inject_Z n).
  { apply Qle_shift_div_l; lra. }
  assert (Hq' : q <= R32 (A / inject_Z n)).
  { eapply Qle_trans; [exact Hq|]. apply Qle_lteq. right.
    apply round_fin_eq; [simpl; lia | |].
    - apply Qle_shift_div_l; lra.
    - now rewrite Ei. }
  pose proof (R32_up _ Hd) as Hup.
  pose proof (Qfloor_le q) as Hf.
  rewrite inject_Z_mult.
  assert (HA' : A == A / inject_Z n * inject_Z n) by (field; lra).
  assert (H0 : 0 <= A / inject_Z n) by lra.
  unfold eps in *. rewrite HA'. nra.
Qed.

Lemma integer_upscale_at_least_one (o : DisplayOptions) (iw ih tw th : Z) :
  moderate iw -> moderate ih ->
  (1 <= tw <= 2 ^ 30)%Z -> (1 <= th <= 2 ^ 30)%Z ->
  (1 <= fst (integer_upscale o iw ih (tw, th)))%Z
  /\ (1 <= snd (integer_upscale o iw ih (tw, th)))%Z.
Proof.
  intros Hiw Hih Htw Hth.
  destruct (upscale_integer o && (iw <? tw)%Z && (ih <? th)%Z) eqn:Hc.
  2:{ unfold integer_upscale. rewrite Hc. cbn [fst snd]. lia. }
  apply andb_true_iff in Hc. destruct Hc as [Hc Hh].
  apply andb_true_iff in Hc. destruct Hc as [Hui Hw].
  apply Z.ltb_lt in Hw, Hh.
  assert (Iiw : (1 <= iw <= INT_MAX)%Z)
    by (unfold moderate, INT_MAX in *; lia).
  assert (Iih : (1 <= ih <= INT_MAX)%Z)
    by (unfold moderate, INT_MAX in *; lia).
  destruct (integer_upscale_spec o iw ih tw th)
    as (wf & hf & q & Ew & Eh & Eq & _ & Bq & Hrec & Hkeep);
    try assumption; try (unfold INT_MAX; lia).
  destruct (Qlt_le_dec 1 q) as [Hq|Hq].
  2:{ rewrite (Hkeep Hq). cbn [fst snd]. lia. }
  destruct (Hrec Hq) as (Hn & Hfw & Hfh).
  assert (Hqw : q <= wf) by (rewrite Eq; apply Q.le_min_l).
  assert (Hqh : q <= hf) by (rewrite Eq; apply Q.le_min_r).
  (* the converted targets *)
  assert (T : forall t, (1 <= t <= 2 ^ 30)%Z ->
                1 <= R32 (1 * R32 (inject_Z t)) <= 1073741824).
  { intros t Ht.
    assert (1 <= inject_Z t <= 1073741824).
    { split; [change 1 with (inject_Z 1)
             | change 1073741824 with (inject_Z (2 ^ 30))];
        rewrite <- Zle_Qle; lia. }
    assert (1 <= R32 (inject_Z t) <= 1073741824).
    { split; [apply R32_ge_one; lra|].
      change 1073741824 with (two ^ 30). apply R32_le_two; [lra | | lia].
      change (two ^ 30) with 1073741824. lra. }
    split; [apply R32_ge_one; lra|].
    change 1073741824 with (two ^ 30). apply R32_le_two; [lra | | lia].
    change (two ^ 30) with 1073741824. lra. }
  pose proof (T tw Htw) as Bt. pose proof (T th Hth) as Bu.
  set (x := R32 (1 * R32 (inject_Z tw))) in *.
  set (y := R32 (1 * R32 (inject_Z th))) in *.
  assert (Hmax : forall z : Z,
             inject_Z z <= 1073741824 * (1 + eps) -> (z <= INT_MAX)%Z).
  { intros z Hz. unfold INT_MAX. rewrite Zle_Qle.
    change (inject_Z (2 ^ 31 - 1)) with 2147483647. unfold eps in Hz. lra. }
  split.
  - assert (Hfit : (aspect o * Qfloor q * iw <= INT_MAX)%Z).
    { apply Hmax.
      replace (aspect o * Qfloor q * iw)%Z
        with (aspect o * (Qfloor q * iw))%Z by ring.
      rewrite inject_Z_mult.
      pose proof (aspect_range o) as Hac.
      assert (Hcase : aspect o = 1%Z \/ aspect o = 2%Z) by lia.
      destruct Hcase as [Ea | Ea]; rewrite Ea in *.
      - assert (E1 : x / inject_Z 1 == x) by (change (inject_Z 1) with 1; field).
        assert (HA : (1 # 2) <= R32 (x / inject_Z 1)).
        { apply R32_ge_half. rewrite E1. lra. }
        assert (HA2 : R32 (x / inject_Z 1) <= 1073741824).
        { change 1073741824 with (two ^ 30).
          apply R32_le_two; [|change (two ^ 30) with 1073741824|lia];
            rewrite E1; lra. }
        pose proof (floored_product_fits q _ iw Hiw HA (proj1 Bq)
                      ltac:(rewrite <- Ew; exact Hqw)) as Hp.
        change (inject_Z 1) with 1 in *. unfold eps in *. lra.
      - assert (HA : (1 # 2) <= R32 (x / inject_Z 2)).
        { apply R32_ge_half. change (inject_Z 2) with 2.
          apply Qle_shift_div_l; lra. }
        assert (HA2 : R32 (x / inject_Z 2) <= 536870912).
        { change 536870912 with (two ^ 29).
          apply R32_le_two; [|change (two ^ 29) with 536870912|lia];
            change (inject_Z 2) with 2;
            [apply Qle_shift_div_l | apply Qle_shift_div_r]; lra. }
        pose proof (floored_product_fits q _ iw Hiw HA (proj1 Bq)
                      ltac:(rewrite <- Ew; exact Hqw)) as Hp.
        change (inject_Z 2) with 2 in *. unfold eps in *. lra. }
    rewrite (Hfw Hfit). pose proof (aspect_range o).
    unfold moderate in Hiw. nia.
  - assert (Hfit : (Qfloor q * ih <= INT_MAX)%Z).
    { apply Hmax.
      assert (HA : (1 # 2) <= y) by lra.
      pose proof (floored_product_fits q y ih Hih HA (proj1 Bq)
                    ltac:(rewrite <- Eh; exact Hqh)) as Hp.
      unfold eps in *. lra. }
    rewrite (Hfh Hfit). unfold moderate in Hih. nia.
Qed.

Local Close Scope Q_scope.

(** C1, where it fails.  An image [2 ^ 30] wide and a cell width of 2:
    the early return doubles the width, which wraps to [INT_MIN]. *)
Lemma doubled_width_wraps :
  let o := box 100 100 true true false false 2 1 in
  let r := CalcScaleToFitDisplay (2 ^ 30) 2 o true in
  0 < 2 ^ 30 <= INT_MAX
  /\ target_width r = INT_MIN
  /\ ~ (1 <= target_width r /\ 1 <= target_height r).
Proof.
  split; [unfold INT_MAX; lia|]. split; [vm_compute; reflexivity|].
  intros [H _]. vm_compute in H. apply H. reflexivity.
Qed.

(** The integer upscaling meets the same limit: with a box [2 ^ 31 - 1]
    wide the recomputed width is [2 * 2 ^ 30], which the conversion to
    [int] cannot hold. *)
Example integer_upscale_overflows :
  CalcScaleToFitDisplay (2 ^ 30) 1
    (box (2 ^ 31 - 1) 7 true false true true 0 0) false
  = {| needs_scaling := true; target_width := INT_MIN; target_height := 2 |}.
Proof. vm_compute. reflexivity. Qed.

(** C1, amended.  For a source of positive width and height the target
    width and height are at least 1, provided that twice the source width
    is an [int] when the cell width is 2, and, when [upscale_integer] is
    set, that the conversions stay within [int]: the sides of the source
    are at most [2 ^ 24] and the target before the integer upscaling is at
    most [2 ^ 30], which is the case whenever the sides of the source and
    of the box are all at most [2 ^ 13] and the stretch is a number. *)
Theorem targets_at_least_one :
  forall (iw ih : Z) (o : DisplayOptions) (rot : bool),
    1 <= iw <= INT_MAX -> 1 <= ih <= INT_MAX ->
    (cell_x_px o = 2 -> 2 * iw <= INT_MAX) ->
    (upscale_integer o = true ->
     within_bounds iw ih o
     \/ (moderate iw /\ moderate ih
         /\ fst (previously_computed iw ih o rot) <= 2 ^ 30
         /\ snd (previously_computed iw ih o rot) <= 2 ^ 30)) ->
    let r := CalcScaleToFitDisplay iw ih o rot in
    1 <= target_width r /\ 1 <= target_height r.
Proof.
  intros iw ih o rot Hiw Hih Hdouble Hint r. unfold r.
  destruct (no_scaling_needed (working_options o rot) iw ih) eqn:Hearly.
  - rewrite CalcScaleToFitDisplay_early by assumption.
    destruct (cell_x_px o =? 2) eqn:E; cbn [target_width target_height];
      [|lia].
    apply Z.eqb_eq in E. specialize (Hdouble E).
    unfold int_mul. rewrite wrap32_small; unfold INT_MIN, INT_MAX in *; lia.
  - rewrite CalcScaleToFitDisplay_scaled by assumption.
    cbv zeta. cbn [target_width target_height].
    assert (Hone : 1 <= fst (previously_computed iw ih o rot)
                   /\ 1 <= snd (previously_computed iw ih o rot)).
    { unfold previously_computed.
      destruct (effective_options o rot) as [opts ws].
      destruct (quantize opts _) as [a b].
      pose proof (at_least_one_bounds a b). lia. }
    destruct (upscale_integer o) eqn:Hui.
    + assert (Hfit : moderate iw /\ moderate ih
                     /\ fst (previously_computed iw ih o rot) <= 2 ^ 30
                     /\ snd (previously_computed iw ih o rot) <= 2 ^ 30).
      { destruct (Hint eq_refl) as [Hb | Hb]; [|exact Hb].
        destruct (previously_computed_bounds iw ih o rot Hb) as [B1 B2].
        destruct Hb as (Siw & Sih & _).
        split; [now apply small_moderate|].
        split; [now apply small_moderate|]. lia. }
      destruct Hfit as (Miw & Mih & T1 & T2).
      destruct (previously_computed iw ih o rot) as [tw th].
      cbn [fst snd] in *.
      apply integer_upscale_at_least_one; try assumption; lia.
    + rewrite integer_upscale_off; [exact Hone|].
      destruct (working_options_fields o rot) as (_ & _ & _ & E & _).
      now rewrite E.
Qed.

Lemma targets_at_least_one_witness :
  let r := CalcScaleToFitDisplay 1 1
             (box 80 24 false false true true 2 2) false in
  1 <= target_width r /\ 1 <= target_height r.
Proof.
  apply (targets_at_least_one 1 1
           (box 80 24 false false true true 2 2) false).
  - unfold INT_MAX; lia.
  - unfold INT_MAX; lia.
  - intros _. unfold INT_MAX; lia.
  - intros _. left. unfold within_bounds, small. cbn.
    repeat split; try lia; discriminate.
Defined.

Local Open Scope Q_scope.

(** ** The letterbox fit *)

(** A rounded quotient above 1 has its numerator above its denominator. *)
Lemma fraction_above_one (m n : Z) :
  (0 <= m <= 2 ^ 13)%Z -> moderate n ->
  1 < R32 (inject_Z m / inject_Z n) -> (n < m)%Z.
Proof.
  intros Hm Hn H. pose proof (moderate_inject n Hn) as Qn.
  destruct (Z_lt_le_dec n m) as [Hlt|Hle]; [exact Hlt | exfalso].
  assert (Hq : inject_Z m / inject_Z n <= 1).
  { apply Qle_shift_div_r; [lra|]. rewrite Qmult_1_l, <- Zle_Qle. exact Hle. }
  assert (H0 : 0 <= inject_Z m / inject_Z n).
  { apply Qle_shift_div_l; [lra|]. rewrite Qmult_0_l.
    apply inject_Z_nonneg. lia. }
  assert (R32 (inject_Z m / inject_Z n) <= inject_Z 1)
    by (apply R32_le_int; [assumption | exact Hq | lia]).
  change (inject_Z 1) with 1 in *. lra.
Qed.

(** Scaling back by the stretch stays within the box side [M]. *)
Lemma restretched_le_box (f : float) (x : Q) (M : Z) :
  f =~ R32 x -> small M -> 0 <= x -> x <= inject_Z M * (1 + eps) ->
  (0 <= to_int f <= M)%Z.
Proof.
  intros Ff HM Hx0 Hx. pose proof (small_inject M HM) as QM.
  assert (Hq : (1 # 1073741824) <= inject_Z M * (1 + eps)) by (unfold eps; lra).
  pose proof (R32_up _ Hq) as Hup.
  pose proof (R32_le _ _ Hx0 Hx) as Hmono.
  pose proof (R32_nonneg x Hx0) as H0.
  assert (Hlt : R32 x < inject_Z M + 1) by (unfold eps in *; lra).
  destruct (to_int_floor f (R32 x) Ff) as [-> _];
    [assumption | change (2 ^ 31) with 2147483648; lra |].
  split; [now apply Qfloor_nonneg|].
  apply Qfloor_le_Z. pose proof (Qfloor_le (R32 x)). lra.
Qed.

Lemma letterbox_previously_computed (iw ih : Z) (o : DisplayOptions)
    (rot : bool) :
  letterbox_bounds iw ih o ->
  fill_width o = false -> fill_height o = false -> upscale o = false ->
  no_scaling_needed (working_options o rot) iw ih = false ->
  let t0 := previously_computed iw ih o rot in
  (fst t0 <= box_width o rot)%Z /\ (snd t0 <= box_height o rot)%Z
  /\ (fst t0 <= iw \/ snd t0 <= ih)%Z.
Proof.
  intros Hb Hfw Hfh Hup Hno.
  destruct (letterbox_bounds_box iw ih o rot Hb) as [HW HH].
  destruct Hb as (Hiw & Hih & _ & _ & HNaN).
  destruct (working_box o rot HNaN HW HH)
    as (s & ws & Ews & Fs & Bs & Bw & Bh & Hcase).
  destruct (working_options_fields o rot) as (_ & _ & Eup & _ & Efw & Efh).
  assert (Efw' : fill_width (working_options o rot) = false)
    by (rewrite Efw; destruct rot; assumption).
  assert (Efh' : fill_height (working_options o rot) = false)
    by (rewrite Efh; destruct rot; assumption).
  pose proof (small_inject _ HW) as QW. pose proof (small_inject _ HH) as QH.
  pose proof (moderate_inject _ Hiw) as Qiw.
  pose proof (moderate_inject _ Hih) as Qih.
  unfold kMin in Bs.
  unfold no_scaling_needed in Hno. rewrite Eup, Hup, Efw', Efh' in Hno.
  cbn [negb andb orb] in Hno.
  unfold previously_computed, working_options in *.
  destruct (effective_options o rot) as [opts ws']. cbn [fst snd] in *.
  subst ws'.
  assert (Hw13 : (0 <= width opts <= 2 ^ 13)%Z) by (unfold small in HW; lia).
  assert (Hh13 : (0 <= height opts <= 2 ^ 13)%Z) by (unfold small in HH; lia).
  destruct (fraction_value _ _ Hw13 Hiw) as [Fwf Bwf].
  destruct (fraction_value _ _ Hh13 Hih) as [Fhf Bhf].
  fold (width_fraction opts iw) in Fwf. fold (height_fraction opts ih) in Fhf.
  set (wf := R32 (inject_Z (width opts) / inject_Z iw)) in *.
  set (hf := R32 (inject_Z (height opts) / inject_Z ih)) in *.
  (* the smaller fraction *)
  assert (Hsm : exists x,
             (if flt (width_fraction opts iw) (height_fraction opts ih)
              then width_fraction opts iw else height_fraction opts ih) =~ x
             /\ 0 <= x /\ x <= wf /\ x <= hf /\ x <= 1).
  { assert (H1 : ~ (1 < wf /\ 1 < hf)).
    { intros [Hw1 Hh1].
      apply (fgt_spec _ _ wf 1 Fwf (Feq_Fin 1)) in Hw1.
      apply (fgt_spec _ _ hf 1 Fhf (Feq_Fin 1)) in Hh1.
      unfold one32 in Hno. rewrite Hw1, Hh1 in Hno. discriminate. }
    destruct (flt _ _) eqn:E.
    - apply (flt_spec _ _ wf hf Fwf Fhf) in E.
      exists wf. split; [assumption|].
      split; [lra|]. split; [lra|]. split; [lra|].
      destruct (Qlt_le_dec 1 wf); [exfalso; apply H1; split; lra | assumption].
    - assert (~ wf < hf).
      { intro H. apply (flt_spec _ _ wf hf Fwf Fhf) in H. congruence. }
      exists hf. split; [assumption|].
      split; [lra|]. split; [lra|]. split; [lra|].
      destruct (Qlt_le_dec 1 hf); [exfalso; apply H1; split; lra | assumption]. }
  destruct Hsm as (x & Fx & Hx0 & Hxw & Hxh & Hx1).
  unfold fit_by_policy. rewrite Efw', Efh'. cbn [andb].
  set (sm := if flt (width_fraction opts iw) (height_fraction opts ih)
             then width_fraction opts iw else height_fraction opts ih) in *.
  destruct (scaled_value sm x iw 24 Fx) as [Ea Ba];
    [lra | assumption | lia | change (two ^ 24) with 16777216; nra|].
  destruct (scaled_value sm x ih 24 Fx) as [Eb Bb];
    [lra | assumption | lia | change (two ^ 24) with 16777216; nra|].
  rewrite Ea, Eb.
  set (a := Qfloor (R32 (x * inject_Z iw) + (1 # 2))) in *.
  set (b := Qfloor (R32 (x * inject_Z ih) + (1 # 2))) in *.
  assert (Haw : (a <= width opts)%Z) by (apply scaled_le_box; assumption).
  assert (Hbh : (b <= height opts)%Z) by (apply scaled_le_box; assumption).
  assert (Hai : (a <= iw)%Z) by (apply scaled_le_source; assumption).
  assert (Hbi : (b <= ih)%Z) by (apply scaled_le_source; assumption).
  assert (Fa : f32_of_int a =~ inject_Z a)
    by (apply f32_of_int_small; unfold small in *; lia).
  assert (Fb : f32_of_int b =~ inject_Z b)
    by (apply f32_of_int_small; unfold small in *; lia).
  assert (Qa : 0 <= inject_Z a) by (apply inject_Z_nonneg; lia).
  assert (Qb : 0 <= inject_Z b) by (apply inject_Z_nonneg; lia).
  (* the stretch is put back *)
  assert (Hre : let t := restretch ws (a, b) in
                (0 <= fst t <= box_width o rot)%Z
                /\ (0 <= snd t <= box_height o rot)%Z
                /\ (fst t <= iw \/ snd t <= ih)%Z).
  { unfold restretch.
    destruct Hcase as [(Hs & Hgt & Hwq & Ehq) | (Hs & Hgt & Ewq & Hhq)];
      rewrite Hgt; cbn [fst snd].
    - assert (Hprod : inject_Z a * s
                      <= inject_Z (box_width o rot) * (1 + eps)).
      { assert (inject_Z a <= inject_Z (width opts))
          by (rewrite <- Zle_Qle; exact Haw).
        assert (E : inject_Z (box_width o rot) * (1 + eps)
                    == inject_Z (box_width o rot) / s * (1 + eps) * s)
          by (field; lra).
        rewrite E. nra. }
      assert (Fm : fmul32 (f32_of_int a) ws =~ R32 (inject_Z a * s)).
      { apply (fmul_round binary32 binary32_wf _ _ _ _ 14);
          [assumption | assumption | lra | lra | | simpl; lia].
        change (two ^ 14) with 16384. unfold eps in Hprod. lra. }
      destruct (restretched_le_box _ _ _ Fm HW) as [T0 T1];
        [nra | exact Hprod |].
      split; [lia|]. split; [lia|]. right. exact Hbi.
    - assert (Hquot : inject_Z b / s
                      <= inject_Z (box_height o rot) * (1 + eps)).
      { assert (inject_Z b <= inject_Z (height opts))
          by (rewrite <- Zle_Qle; exact Hbh).
        apply Qle_shift_div_r; [lra|].
        assert (E : inject_Z (box_height o rot) * (1 + eps) * s
                    == inject_Z (box_height o rot) * s * (1 + eps))
          by ring.
        rewrite E. lra. }
      assert (Hq0 : 0 <= inject_Z b / s) by (apply Qle_shift_div_l; lra).
      assert (Fd : fdiv32 (f32_of_int b) ws =~ R32 (inject_Z b / s)).
      { apply (fdiv_round binary32 binary32_wf _ _ _ _ 14);
          [assumption | assumption | lra | lra | | simpl; lia].
        change (two ^ 14) with 16384. unfold eps in Hquot. lra. }
      destruct (restretched_le_box _ _ _ Fd HH) as [T0 T1];
        [exact Hq0 | exact Hquot |].
      split; [lia|]. split; [lia|]. left. exact Hai. }
  cbv zeta in Hre.
  destruct (restretch ws (a, b)) as [c d]. cbn [fst snd] in Hre.
  destruct Hre as (Hc & Hd & Hor).
  destruct (quantize_bounds opts c d (2 ^ 13)) as [Q1 Q2];
    [unfold small in *; lia | unfold small in *; lia
    | unfold INT_MAX; lia |].
  destruct (quantize opts (c, d)) as [e f]. cbn [fst snd] in *.
  pose proof (at_least_one_bounds e f) as [A1 A2].
  unfold small, moderate in *.
  split; [lia|]. split; [lia|]. lia.
Qed.

Lemma R32_down (x : Q) : (1 # 1073741824) <= x -> x * (1 - eps) <= R32 x.
Proof.
  intro H.
  destruct (round_fin_relative binary32 x) as [_ Hdown]; [|exact Hdown].
  eapply Qle_trans; [|exact H].
  apply Qle_trans with (two ^ (-30)); [apply two_le; simpl; lia|].
  vm_compute. discriminate.
Qed.

(** The rounded quotient [m / n] scales [n] back to [m] exactly. *)
Lemma scaled_reaches_box (m n : Z) :
  small m -> moderate n ->
  Qfloor (R32 (R32 (inject_Z m / inject_Z n) * inject_Z n) + (1 # 2)) = m.
Proof.
  intros Hm Hn.
  pose proof (small_inject m Hm) as Qm.
  pose proof (moderate_inject n Hn) as Qn.
  set (d := inject_Z m / inject_Z n).
  assert (Hd : inject_Z m == d * inject_Z n) by (unfold d; field; lra).
  assert (Hd0 : (1 # 1073741824) <= d) by (apply Qle_shift_div_l; lra).
  pose proof (R32_down d Hd0) as Hlo.
  assert (Hr0 : 0 <= R32 d) by (apply R32_nonneg; lra).
  apply Z.le_antisymm.
  - apply scaled_le_box; [unfold small in Hm; lia | assumption | assumption
                         | apply Qle_refl].
  - assert (Hp : inject_Z m * (1 - eps) <= R32 d * inject_Z n).
    { rewrite Hd. unfold eps in *. nra. }
    assert (Hq : (1 # 1073741824) <= inject_Z m * (1 - eps))
      by (unfold eps; lra).
    pose proof (R32_down _ Hq) as Hlo2.
    assert (Hmono : R32 (inject_Z m * (1 - eps)) <= R32 (R32 d * inject_Z n))
      by (apply R32_le; [unfold eps; lra | exact Hp]).
    rewrite <- (Qfloor_Z m). apply Qfloor_resp_le.
    unfold eps in *. lra.
Qed.

Lemma unit_stretch (o : DisplayOptions) (rot : bool) :
  width_stretch o = one32 -> small (box_height o rot) ->
  snd (effective_options o rot) = one32
  /\ width (working_options o rot) = box_width o rot
  /\ height (working_options o rot) = box_height o rot.
Proof.
  intros Hws HH.
  assert (E : clamp_stretch
                (width_stretch (if rot then rotate_options o else o))
              = one32).
  { destruct rot; cbn [rotate_options width_stretch]; rewrite Hws;
      vm_compute; reflexivity. }
  assert (Eh : to_int (fmul32 (f32_of_int (box_height o rot)) one32)
               = box_height o rot).
  { apply to_int_Z; [|unfold small, INT_MAX in *; lia].
    apply Feq_eq with (R32 (inject_Z (box_height o rot) * 1)).
    - pose proof (small_inject _ HH).
      apply (fmul_round binary32 binary32_wf _ _ _ _ 13);
        [apply f32_of_int_small; unfold small in HH; lia | apply Feq_Fin
        | lra | lra | change (two ^ 13) with 8192; lra | simpl; lia].
    - rewrite (round_fin_eq binary32 ltac:(simpl; lia) _
                 (inject_Z (box_height o rot))).
      + apply R32_int. unfold small in HH. lia.
      + pose proof (small_inject _ HH). lra.
      + ring. }
  unfold working_options, effective_options. rewrite E.
  replace (fgt one32 one32) with false by reflexivity.
  unfold box_width, box_height in *.
  destruct rot; cbn [fst snd set_height width height rotate_options] in *;
    rewrite Eh; repeat split.
Qed.

Lemma letterbox_reaches_box (iw ih : Z) (o : DisplayOptions) (rot : bool) :
  letterbox_bounds iw ih o ->
  fill_width o = false -> fill_height o = false -> upscale o = false ->
  no_scaling_needed (working_options o rot) iw ih = false ->
  width_stretch o = one32 ->
  cell_x_px o <> 2%Z -> cell_y_px o <> 2%Z ->
  let t0 := previously_computed iw ih o rot in
  fst t0 = box_width o rot \/ snd t0 = box_height o rot.
Proof.
  intros Hb Hfw Hfh Hup Hno Hws Hcx Hcy.
  destruct (letterbox_bounds_box iw ih o rot Hb) as [HW HH].
  destruct Hb as (Hiw & Hih & _ & _ & HNaN).
  destruct (unit_stretch o rot Hws HH) as (Ews & Ew & Eh).
  destruct (working_options_fields o rot)
    as (Ecx & Ecy & Eup & _ & Efw & Efh).
  assert (Efw' : fill_width (working_options o rot) = false)
    by (rewrite Efw; destruct rot; assumption).
  assert (Efh' : fill_height (working_options o rot) = false)
    by (rewrite Efh; destruct rot; assumption).
  pose proof (moderate_inject _ Hiw) as Qiw.
  pose proof (moderate_inject _ Hih) as Qih.
  unfold no_scaling_needed in Hno. rewrite Eup, Hup, Efw', Efh' in Hno.
  cbn [negb andb orb] in Hno.
  unfold previously_computed, working_options in *.
  destruct (effective_options o rot) as [opts ws]. cbn [fst snd] in *.
  subst ws.
  assert (Hw13 : (0 <= width opts <= 2 ^ 13)%Z)
    by (rewrite Ew; unfold small in HW; lia).
  assert (Hh13 : (0 <= height opts <= 2 ^ 13)%Z)
    by (rewrite Eh; unfold small in HH; lia).
  destruct (fraction_value _ _ Hw13 Hiw) as [Fwf Bwf].
  destruct (fraction_value _ _ Hh13 Hih) as [Fhf Bhf].
  fold (width_fraction opts iw) in Fwf. fold (height_fraction opts ih) in Fhf.
  set (wf := R32 (inject_Z (width opts) / inject_Z iw)) in *.
  set (hf := R32 (inject_Z (height opts) / inject_Z ih)) in *.
  assert (H1 : ~ (1 < wf /\ 1 < hf)).
  { intros [Hw1 Hh1].
    apply (fgt_spec _ _ wf 1 Fwf (Feq_Fin 1)) in Hw1.
    apply (fgt_spec _ _ hf 1 Fhf (Feq_Fin 1)) in Hh1.
    unfold one32 in Hno. rewrite Hw1, Hh1 in Hno. discriminate. }
  clear Hno.
  unfold fit_by_policy. rewrite Efw', Efh'. cbn [andb].
  assert (Hsame : forall b : Z,
             (0 <= b <= 2 ^ 13)%Z ->
             to_int (fdiv32 (f32_of_int b) one32) = b).
  { intros b Hb. apply to_int_Z; [|unfold INT_MAX; lia].
    assert (Qb : 0 <= inject_Z b <= 8192).
    { split; [apply inject_Z_nonneg; lia|].
      change 8192 with (inject_Z (2 ^ 13)). rewrite <- Zle_Qle. lia. }
    assert (E1 : inject_Z b / 1 == inject_Z b) by field.
    apply Feq_eq with (R32 (inject_Z b / 1)).
    - apply (fdiv_round binary32 binary32_wf _ _ _ _ 13);
        [apply f32_of_int_small; lia | apply Feq_Fin | lra | lra
        | rewrite E1; change (two ^ 13) with 8192; lra | simpl; lia].
    - rewrite (round_fin_eq binary32 ltac:(simpl; lia) _ (inject_Z b));
        [apply R32_int; lia | rewrite E1; lra | exact E1]. }
  assert (Hq : forall a b : Z,
             (0 <= a <= 2 ^ 13)%Z -> (0 <= b <= 2 ^ 13)%Z ->
             quantize opts (a, b) = (a, b)).
  { intros a b Ha Hb. unfold quantize. rewrite Ecx, Ecy.
    destruct (_ && _) eqn:E; [|reflexivity].
    apply andb_true_iff in E. destruct E as [E Ey2].
    apply andb_true_iff in E. destruct E as [E Ey1].
    apply andb_true_iff in E. destruct E as [Ex1 Ex2].
    apply Z.ltb_lt in Ex1, Ey1. apply Z.leb_le in Ex2, Ey2.
    replace (cell_x_px o) with 1%Z by lia.
    replace (cell_y_px o) with 1%Z by lia.
    unfold int_mul, int_div. rewrite !Z.quot_1_r, !Z.mul_1_r.
    rewrite !wrap32_small by (unfold INT_MIN, INT_MAX; lia).
    reflexivity. }
  unfold restretch. replace (fgt one32 one32) with false by reflexivity.
  destruct (flt (width_fraction opts iw) (height_fraction opts ih)) eqn:E.
  - (* the width limits *)
    apply (flt_spec _ _ _ _ Fwf Fhf) in E.
    assert (Hwf1 : wf <= 1).
    { destruct (Qlt_le_dec 1 wf); [exfalso; apply H1; split; lra|assumption]. }
    destruct (scaled_value _ wf iw 24 Fwf) as [Ea Ba];
      [lra | assumption | lia | change (two ^ 24) with 16777216; nra|].
    destruct (scaled_value _ wf ih 24 Fwf) as [Eb Bb];
      [lra | assumption | lia | change (two ^ 24) with 16777216; nra|].
    assert (Hb : (Qfloor (R32 (wf * inject_Z ih) + (1 # 2)) <= 2 ^ 13)%Z).
    { apply Z.le_trans with (height opts); [|lia].
      apply scaled_le_box;
        [assumption | assumption | lra | change (wf <= hf); lra]. }
    left. rewrite Ea, Eb, Hsame by lia.
    unfold wf at 1. rewrite (scaled_reaches_box (width opts) iw);
      [|rewrite Ew; assumption | assumption].
    rewrite Hq by lia.
    cbn [at_least_one fst snd]. rewrite Ew.
    destruct (Z.leb_spec (box_width o rot) 0); unfold small in HW; lia.
  - (* the height limits *)
    assert (Hge : hf <= wf).
    { apply Qnot_lt_le. intro H.
      apply (flt_spec _ _ _ _ Fwf Fhf) in H. congruence. }
    assert (Hhf1 : hf <= 1).
    { destruct (Qlt_le_dec 1 hf); [exfalso; apply H1; split; lra|assumption]. }
    destruct (scaled_value _ hf iw 24 Fhf) as [Ea Ba];
      [lra | assumption | lia | change (two ^ 24) with 16777216; nra|].
    destruct (scaled_value _ hf ih 24 Fhf) as [Eb Bb];
      [lra | assumption | lia | change (two ^ 24) with 16777216; nra|].
    assert (Ha : (Qfloor (R32 (hf * inject_Z iw) + (1 # 2)) <= 2 ^ 13)%Z).
    { apply Z.le_trans with (width opts); [|lia].
      apply scaled_le_box;
        [assumption | assumption | lra | change (hf <= wf); lra]. }
    right. rewrite Ea, Eb.
    unfold hf at 2. rewrite (scaled_reaches_box (height opts) ih);
      [|rewrite Eh; assumption | assumption].
    rewrite Hsame by lia. rewrite Hq by lia.
    cbn [at_least_one fst snd]. rewrite Eh.
    destruct (Z.leb_spec (box_height o rot) 0); unfold small in HH; lia.
Qed.

Local Close Scope Q_scope.

(** C5, where it fails.  A 150x50 image in a 200x200 box under a cell
    width of 2 takes the early return and comes back 300 wide. *)
Lemma double_wide_exceeds_box :
  let o := box 200 200 false false false false 2 2 in
  CalcScaleToFitDisplay 150 50 o false
  = {| needs_scaling := true; target_width := 300; target_height := 50 |}
  /\ ~ letterbox_claim 150 50 o false.
Proof.
  split; [vm_compute; reflexivity|].
  intro H. destruct H as [H _]; try reflexivity.
  vm_compute in H. apply H. reflexivity.
Qed.

(** C5, amended.  For a letterbox fit without upscaling, with the sides
    of the source between 1 and [2 ^ 24], those of the box between 1 and
    [2 ^ 13] and a stretch that is a number: the target height
    never exceeds the box, and the target width does not either, unless
    the early return is taken under a cell width of 2.  When the early
    return is taken the image is strictly smaller than the box on both
    axes and is returned as it is, its width doubled under a cell width of
    2; when it is not, one target dimension at least does not exceed the
    source, and, with a stretch of 1 and no cell size of 2, one target
    dimension equals its side of the box. *)
Theorem letterbox_within_box :
  forall (iw ih : Z) (o : DisplayOptions) (rot : bool),
    letterbox_bounds iw ih o ->
    fill_width o = false -> fill_height o = false -> upscale o = false ->
    let r := CalcScaleToFitDisplay iw ih o rot in
    let early := no_scaling_needed (working_options o rot) iw ih in
    target_height r <= box_height o rot
    /\ (cell_x_px o <> 2 \/ early = false ->
        target_width r <= box_width o rot)
    /\ (early = true ->
        iw < box_width o rot /\ ih < box_height o rot
        /\ target_height r = ih
        /\ target_width r = if cell_x_px o =? 2 then 2 * iw else iw)
    /\ (early = false ->
        target_width r <= iw \/ target_height r <= ih)
    /\ (early = false ->
        width_stretch o = one32 ->
        cell_x_px o <> 2 -> cell_y_px o <> 2 ->
        target_width r = box_width o rot
        \/ target_height r = box_height o rot).
Proof.
  intros iw ih o rot Hb Hfw Hfh Hup r early.
  destruct (no_scaling_needed (working_options o rot) iw ih) eqn:Hearly;
    unfold early, r.
  - (* the image is smaller than the box *)
    destruct (letterbox_bounds_box iw ih o rot Hb) as [HW HH].
    destruct Hb as (Hiw & Hih & _ & _ & HNaN).
    destruct (working_box o rot HNaN HW HH)
      as (s & ws & _ & _ & _ & Bw & Bh & _).
    destruct (working_options_fields o rot) as (_ & _ & Eup & _ & Efw & Efh).
    assert (Efw' : fill_width (working_options o rot) = false)
      by (rewrite Efw; destruct rot; assumption).
    assert (Efh' : fill_height (working_options o rot) = false)
      by (rewrite Efh; destruct rot; assumption).
    pose proof Hearly as Hfr. unfold no_scaling_needed in Hfr.
    rewrite Eup, Hup, Efw', Efh' in Hfr. cbn [negb andb orb] in Hfr.
    apply andb_true_iff in Hfr. destruct Hfr as [Hwf Hhf].
    assert (Hw13 : 0 <= width (working_options o rot) <= 2 ^ 13)
      by (unfold small in HW; lia).
    assert (Hh13 : 0 <= height (working_options o rot) <= 2 ^ 13)
      by (unfold small in HH; lia).
    destruct (fraction_value _ _ Hw13 Hiw) as [Fwf _].
    destruct (fraction_value _ _ Hh13 Hih) as [Fhf _].
    apply (fgt_spec _ _ _ 1%Q Fwf (Feq_Fin 1)) in Hwf.
    apply (fgt_spec _ _ _ 1%Q Fhf (Feq_Fin 1)) in Hhf.
    apply fraction_above_one in Hwf; [|assumption|assumption].
    apply fraction_above_one in Hhf; [|assumption|assumption].
    rewrite CalcScaleToFitDisplay_early by assumption.
    assert (Hdbl : int_mul iw 2 = 2 * iw).
    { unfold int_mul. rewrite wrap32_small; [lia|].
      unfold small, moderate, INT_MIN, INT_MAX in *. lia. }
    destruct (cell_x_px o =? 2) eqn:E; cbn [target_width target_height].
    + apply Z.eqb_eq in E.
      split; [lia|]. split; [intros [H|H]; [contradiction | discriminate]|].
      split; [intros _; repeat split; lia|]. split; discriminate.
    + split; [lia|]. split; [intros _; lia|].
      split; [intros _; repeat split; lia|]. split; discriminate.
  - (* the image is scaled *)
    destruct (letterbox_previously_computed iw ih o rot Hb Hfw Hfh Hup Hearly)
      as (H1 & H2 & H3).
    pose proof (letterbox_reaches_box iw ih o rot Hb Hfw Hfh Hup Hearly) as H4.
    cbv zeta in H4.
    rewrite CalcScaleToFitDisplay_scaled by assumption.
    cbv zeta. cbn [target_width target_height].
    destruct (previously_computed iw ih o rot) as [tw th]. cbn [fst snd] in *.
    assert (E : integer_upscale (working_options o rot) iw ih (tw, th)
                = (tw, th)).
    { unfold integer_upscale.
      replace (upscale_integer (working_options o rot) && (iw <? tw)
               && (ih <? th)) with false; [reflexivity|].
      symmetry. apply andb_false_iff.
      destruct H3 as [H3|H3].
      - left. apply andb_false_iff. right. apply Z.ltb_ge. exact H3.
      - right. apply Z.ltb_ge. exact H3. }
    rewrite E. cbn [fst snd].
    split; [lia|]. split; [intros _; lia|].
    split; [discriminate|]. split; [intros _; exact H3|].
    intros _. exact H4.
Qed.

Lemma letterbox_within_box_witness :
  let o := box 80 48 false false false true 1 1 in
  let r := CalcScaleToFitDisplay 640 480 o false in
  let early := no_scaling_needed (working_options o false) 640 480 in
  target_height r <= box_height o false
  /\ (cell_x_px o <> 2 \/ early = false ->
      target_width r <= box_width o false)
  /\ (early = true ->
      640 < box_width o false /\ 480 < box_height o false
      /\ target_height r = 480
      /\ target_width r = if cell_x_px o =? 2 then 2 * 640 else 640)
  /\ (early = false -> target_width r <= 640 \/ target_height r <= 480)
  /\ (early = false ->
      width_stretch o = one32 ->
      cell_x_px o <> 2 -> cell_y_px o <> 2 ->
      target_width r = box_width o false
      \/ target_height r = box_height o false).
Proof.
  intros o r early.
  apply (letterbox_within_box 640 480 o false).
  - unfold letterbox_bounds, moderate, small. cbn.
    repeat split; try lia; discriminate.
  - reflexivity.
  - reflexivity.
  - reflexivity.
Defined.

(** ** Label templates *)

Section Label.
Variables (filename decoder : text) (orig_width orig_height : Z).

Let F (t : text) : text :=
  FormatFromParameters t filename orig_width orig_height decoder.
Let E (t : text) : text :=
  Expand t filename orig_width orig_height decoder.

(** The loop at index [i] has written [acc] and still writes the
    expansion of the characters from [i] on. *)
Lemma format_loop_Expand (n : nat) :
  forall s i acc,
    (List.length (skipn i s) <= n)%nat ->
    format_loop n s i filename orig_width orig_height decoder acc
    = acc ++ E (skipn i s).
Proof.
  induction n as [|n IH]; intros s i acc Hn.
  - destruct (skipn i s); [|simpl in Hn; lia].
    simpl. now rewrite app_nil_r.
  - cbn [format_loop].
    assert (Hlen := length_skipn i s).
    assert (Hnth : forall k, nth_error s (i + k) = nth_error (skipn i s) k)
      by (intro; symmetry; apply nth_error_skipn).
    assert (Hskip : forall k, skipn (i + k) s = skipn k (skipn i s))
      by (intro; rewrite skipn_skipn; f_equal; lia).
    assert (HIH : forall k acc', (1 <= k)%nat ->
               skipn i s <> [] ->
               format_loop n s (i + k) filename orig_width orig_height
                 decoder acc' = acc' ++ E (skipn k (skipn i s))).
    { intros k acc' Hk Hne. rewrite IH, Hskip; [reflexivity|].
      rewrite Hskip, length_skipn.
      assert (List.length (skipn i s) <> 0%nat)
        by (rewrite length_zero_iff_nil; exact Hne).
      lia. }
    rewrite <- (Nat.add_0_r i) at 1. rewrite !Hnth.
    destruct (skipn i s) as [|c suf] eqn:Hs.
    + simpl. unfold E; simpl. now rewrite app_nil_r.
    + cbn [nth_error]. unfold E at 1. cbn [Expand].
      destruct (Ascii.eqb c "%") eqn:Hc; cbn [negb orb].
      * destruct suf as [|d suf].
        -- replace (List.length s - 1 <=? i)%nat with true
             by (symmetry; apply Nat.leb_le; simpl in Hlen; lia).
           apply Ascii.eqb_eq in Hc. subst c.
           rewrite HIH by (lia || easy).
           unfold E; simpl. now rewrite app_nil_r.
        -- replace (List.length s - 1 <=? i)%nat with false
             by (symmetry; apply Nat.leb_gt; simpl in Hlen; lia).
           cbn [nth_error]. rewrite HIH by (lia || easy).
           cbn [skipn]. fold (E suf). now rewrite app_assoc.
      * rewrite HIH by (lia || easy). cbn [skipn].
        fold (E suf). rewrite <- app_assoc. reflexivity.
Qed.

Lemma FormatFromParameters_Expand (t : text) : F t = E t.
Proof.
  unfold F, FormatFromParameters.
  exact (format_loop_Expand (List.length t) t 0 [] (le_n _)).
Qed.
End Label.

Lemma is_separator_existsb (c : ascii) :
  existsb (Ascii.eqb c) ["/"%char; "\"%char] = true <-> is_separator c.
Proof.
  unfold is_separator. simpl.
  rewrite !orb_true_iff, !Ascii.eqb_eq. intuition discriminate.
Qed.

Lemma find_last_of_from_none (s chars : text) (i : nat) (found : option nat) :
  Forall (fun c => existsb (Ascii.eqb c) chars = false) s ->
  find_last_of_from s chars i found = found.
Proof.
  intro H. revert i found.
  induction H as [|c s Hc _ IH]; intros i found; simpl; [reflexivity|].
  now rewrite Hc, IH.
Qed.

Lemma find_last_of_from_app (a b chars : text) (i : nat) (found : option nat) :
  find_last_of_from (a ++ b) chars i found
  = find_last_of_from b chars (i + List.length a)
      (find_last_of_from a chars i found).
Proof.
  revert i found.
  induction a as [|c a IH]; intros i found; simpl.
  - now rewrite Nat.add_0_r.
  - rewrite IH. f_equal. lia.
Qed.

Lemma not_separator_existsb (s : text) :
  Forall (fun c => ~ is_separator c) s ->
  Forall (fun c => existsb (Ascii.eqb c) ["/"%char; "\"%char] = false) s.
Proof.
  apply Forall_impl. intros c Hc.
  destruct (existsb _ _) eqn:E; [|reflexivity].
  now apply is_separator_existsb in E.
Qed.

Lemma Basename_whole (filename : text) :
  Forall (fun c => ~ is_separator c) filename ->
  Basename filename = filename.
Proof.
  intro H. unfold Basename, find_last_of.
  now rewrite find_last_of_from_none by now apply not_separator_existsb.
Qed.

Lemma Basename_after_last (dir name : text) (c : ascii) :
  is_separator c ->
  Forall (fun c => ~ is_separator c) name ->
  Basename (dir ++ c :: name) = name.
Proof.
  intros Hc Hname. unfold Basename, find_last_of.
  rewrite find_last_of_from_app. cbn [find_last_of_from].
  apply is_separator_existsb in Hc. rewrite Hc.
  rewrite find_last_of_from_none by now apply not_separator_existsb.
  simpl. replace (List.length dir + 1)%nat with (List.length dir + 1 + 0)%nat by lia.
  rewrite Nat.add_0_r.
  replace (List.length dir + 1)%nat with (List.length (dir ++ [c]))
    by (rewrite length_app; reflexivity).
  replace (dir ++ c :: name) with ((dir ++ [c]) ++ name)
    by (rewrite <- app_assoc; reflexivity).
  rewrite skipn_app, skipn_all, Nat.sub_diag. reflexivity.
Qed.

(** ** Decimal numerals *)

Lemma uint_digits_revapp (d d' : Decimal.uint) :
  uint_digits (Decimal.revapp d d') = rev (uint_digits d) ++ uint_digits d'.
Proof.
  revert d'. induction d; intro d'; cbn [Decimal.revapp uint_digits rev];
    [reflexivity | ..]; rewrite IHd, <- app_assoc; reflexivity.
Qed.

Lemma uint_digits_range (d : Decimal.uint) :
  Forall (fun k => 0 <= k <= 9) (uint_digits d).
Proof.
  induction d; cbn [uint_digits]; constructor; (lia || assumption).
Qed.

Lemma string_of_uint_digits (d : Decimal.uint) :
  str (NilEmpty.string_of_uint d) = map digit_char (uint_digits d).
Proof.
  unfold str.
  induction d; cbn [NilEmpty.string_of_uint list_ascii_of_string uint_digits map];
    [reflexivity | ..]; rewrite IHd; reflexivity.
Qed.

Lemma little_value_succ (d : Decimal.uint) :
  little_value (uint_digits (Decimal.Little.succ d))
  = little_value (uint_digits d) + 1.
Proof.
  unfold little_value.
  induction d; cbn [Decimal.Little.succ uint_digits fold_right]; lia.
Qed.

Lemma little_value_double (d : Decimal.uint) :
  little_value (uint_digits (Decimal.Little.double d))
  = 2 * little_value (uint_digits d)
  /\ little_value (uint_digits (Decimal.Little.succ_double d))
     = 2 * little_value (uint_digits d) + 1.
Proof.
  unfold little_value.
  induction d as [|d [IH1 IH2]|d [IH1 IH2]|d [IH1 IH2]|d [IH1 IH2]
                  |d [IH1 IH2]|d [IH1 IH2]|d [IH1 IH2]|d [IH1 IH2]
                  |d [IH1 IH2]|d [IH1 IH2]];
    cbn [Decimal.Little.double Decimal.Little.succ_double uint_digits
         fold_right];
    rewrite ?IH1, ?IH2; split; lia.
Qed.

Lemma little_value_to_little_uint (p : positive) :
  little_value (uint_digits (Pos.to_little_uint p)) = Z.pos p.
Proof.
  induction p as [p IH|p IH|]; cbn [Pos.to_little_uint].
  - rewrite (proj2 (little_value_double _)), IH. lia.
  - rewrite (proj1 (little_value_double _)), IH. lia.
  - reflexivity.
Qed.

Lemma digit_char_spec (k : Z) :
  0 <= k <= 9 -> is_digit (digit_char k) /\ digit_value (digit_char k) = k.
Proof.
  intro H. unfold is_digit, digit_value, digit_char.
  rewrite nat_ascii_embedding by lia. lia.
Qed.

(** Reading the characters of digits from the left is the value with the
    last digit counting least. *)
Lemma digits_value_chars (l : list Z) :
  Forall (fun k => 0 <= k <= 9) l ->
  Forall is_digit (map digit_char l)
  /\ digits_value (map digit_char l) = little_value (rev l).
Proof.
  intro H. split.
  - apply Forall_map. revert H. apply Forall_impl.
    intros k Hk. now apply digit_char_spec.
  - unfold digits_value, little_value.
    rewrite fold_left_rev_right.
    assert (G : forall acc,
               fold_left (fun acc c => 10 * acc + digit_value c)
                 (map digit_char l) acc
               = fold_left (fun acc k => k + 10 * acc) l acc).
    { induction H as [|k l Hk _ IH]; intro acc; [reflexivity|].
      cbn [map fold_left]. rewrite IH.
      rewrite (proj2 (digit_char_spec k Hk)). f_equal. lia. }
    apply G.
Qed.

Lemma nzhead_not_zero (d u : Decimal.uint) :
  Decimal.nzhead d <> Decimal.D0 u.
Proof.
  induction d; cbn [Decimal.nzhead]; try discriminate. exact IHd.
Qed.

Lemma to_uint_leading (p : positive) :
  hd_error (uint_digits (Pos.to_uint p)) <> Some 0.
Proof.
  assert (E : Decimal.unorm (Pos.to_uint p) = Pos.to_uint p).
  { rewrite <- DecimalPos.Unsigned.to_of, DecimalPos.Unsigned.of_to.
    reflexivity. }
  pose proof (DecimalPos.Unsigned.to_uint_nonzero p) as Hnz.
  destruct (Pos.to_uint p) as [|u|u|u|u|u|u|u|u|u|u]; cbn; try discriminate.
  exfalso. unfold Decimal.unorm in E.
  pose proof (nzhead_not_zero (Decimal.D0 u)) as Hn.
  destruct (Decimal.nzhead (Decimal.D0 u)) eqn:En; try discriminate.
  - injection E as <-. now apply Hnz.
  - now apply (Hn u0).
Qed.

(** [decimal] writes a number as operator<< does: the digits of its
    magnitude, the most significant first and not a zero, after a minus
    sign when it is negative. *)
Lemma decimal_pos (p : positive) :
  decimal (Z.pos p) = map digit_char (uint_digits (Pos.to_uint p)).
Proof.
  unfold decimal. cbn [Z.to_int NilZero.string_of_int].
  pose proof (DecimalPos.Unsigned.to_uint_nonnil p) as Hn.
  rewrite <- string_of_uint_digits.
  destruct (Pos.to_uint p); [contradiction | ..]; reflexivity.
Qed.

Lemma decimal_nonneg (n : Z) :
  0 <= n ->
  Forall is_digit (decimal n)
  /\ digits_value (decimal n) = n
  /\ (0 < n -> hd_error (decimal n) <> Some "0"%char).
Proof.
  intro Hn. destruct n as [|p|p]; [|clear Hn|lia].
  - split; [|split; [reflexivity | lia]].
    repeat constructor; unfold is_digit; simpl; lia.
  - rewrite decimal_pos.
    destruct (digits_value_chars _ (uint_digits_range (Pos.to_uint p)))
      as [Hd Hv].
    split; [exact Hd|]. split.
    + rewrite Hv. unfold Pos.to_uint, Decimal.rev.
      rewrite uint_digits_revapp. cbn [uint_digits].
      rewrite app_nil_r, rev_involutive.
      apply little_value_to_little_uint.
    + intros _ H. apply (to_uint_leading p).
      pose proof (uint_digits_range (Pos.to_uint p)) as Hr.
      destruct (uint_digits (Pos.to_uint p)) as [|k l]; [discriminate|].
      cbn [map hd_error] in *. injection H as H.
      inversion Hr as [|? ? Hk _]; subst.
      f_equal.
      apply (f_equal digit_value) in H.
      rewrite (proj2 (digit_char_spec k Hk)) in H. exact H.
Qed.

Lemma decimal_neg (n : Z) : n < 0 -> decimal n = "-"%char :: decimal (- n).
Proof.
  intro Hn. destruct n as [|p|p]; try lia.
  cbn [Z.opp]. rewrite decimal_pos. unfold decimal.
  cbn [Z.to_int NilZero.string_of_int]. unfold str.
  cbn [list_ascii_of_string]. f_equal.
  fold (str (NilZero.string_of_uint (Pos.to_uint p))).
  pose proof (DecimalPos.Unsigned.to_uint_nonnil p) as Hnn.
  rewrite <- string_of_uint_digits.
  destruct (Pos.to_uint p); [contradiction | ..]; reflexivity.
Qed.

(** C6.  [FormatFromParameters] scans the template once from the left.  A
    character other than a percent sign is copied; a percent sign takes
    exactly the one character after it: [%f] gives the file name, [%b] its
    base name (what follows the last slash or backslash, the whole name
    when there is none), [%w] and [%h] the original width and height in
    decimal, [%D] the decoder name, and any other character, a second
    percent sign included, gives itself; a percent sign that ends the
    template is copied.  The two expansions the specification lists come
    out as listed.  Decimal is the usual writing of every number: of one
    that is not negative, digits only, which read back give the number,
    the first of them no zero unless the number is 0, written ["0"]; of a
    negative one, a minus sign and the writing of its magnitude. *)
Theorem FormatFromParameters_scan :
  (forall (filename decoder : text) (w h : Z),
      let F t := FormatFromParameters t filename w h decoder in
      F [] = []
      /\ F ["%"%char] = ["%"%char]
      /\ (forall c rest, c <> "%"%char -> F (c :: rest) = c :: F rest)
      /\ (forall rest, F ("%"%char :: "f"%char :: rest) = filename ++ F rest)
      /\ (forall rest,
             F ("%"%char :: "b"%char :: rest) = Basename filename ++ F rest)
      /\ (forall rest, F ("%"%char :: "w"%char :: rest) = decimal w ++ F rest)
      /\ (forall rest, F ("%"%char :: "h"%char :: rest) = decimal h ++ F rest)
      /\ (forall rest, F ("%"%char :: "D"%char :: rest) = decoder ++ F rest)
      /\ (forall c rest,
             ~ In c ["f"; "b"; "w"; "h"; "D"]%char ->
             F ("%"%char :: c :: rest) = c :: F rest))
  /\ (forall filename,
         Forall (fun c => ~ is_separator c) filename ->
         Basename filename = filename)
  /\ (forall dir c name,
         is_separator c ->
         Forall (fun c => ~ is_separator c) name ->
         Basename (dir ++ c :: name) = name)
  /\ decimal 10 = str "10" /\ decimal 20 = str "20"
  /\ FormatFromParameters (str "%f (%wx%h) [%D]") (str "/a/b/c.png") 10 20
       (str "stb")
     = str "/a/b/c.png (10x20) [stb]"
  /\ (forall filename decoder w h,
         FormatFromParameters (str "100%") filename w h decoder = str "100%")
  /\ (forall n,
         0 <= n ->
         Forall is_digit (decimal n)
         /\ digits_value (decimal n) = n
         /\ (0 < n -> hd_error (decimal n) <> Some "0"%char))
  /\ decimal 0 = str "0"
  /\ (forall n, n < 0 -> decimal n = "-"%char :: decimal (- n)).
Proof.
  repeat match goal with |- _ /\ _ => split end.
  - intros filename decoder w h F.
    assert (HF : forall t, F t = Expand t filename w h decoder)
      by (intro; apply FormatFromParameters_Expand).
    repeat split; intros; rewrite !HF; try reflexivity.
    + cbn [Expand]. destruct (Ascii.eqb c "%") eqn:E; [|reflexivity].
      now apply Ascii.eqb_eq in E.
    + cbn [Expand Ascii.eqb Bool.eqb]. unfold expand_escape.
      repeat match goal with
      | |- context [Ascii.eqb c ?x] =>
          let E := fresh "E" in
          destruct (Ascii.eqb c x) eqn:E;
          [apply Ascii.eqb_eq in E; subst c; exfalso; simpl in *; tauto|]
      end.
      reflexivity.
  - exact Basename_whole.
  - intros dir c name. apply Basename_after_last.
  - reflexivity.
  - reflexivity.
  - reflexivity.
  - intros. rewrite FormatFromParameters_Expand. reflexivity.
  - exact decimal_nonneg.
  - reflexivity.
  - exact decimal_neg.
Qed.

Lemma FormatFromParameters_scan_witness :
  FormatFromParameters (str "a%?") (str "x/y") 3 4 (str "qoi")
  = "a"%char :: FormatFromParameters (str "%?") (str "x/y") 3 4 (str "qoi")
  /\ FormatFromParameters (str "%?") (str "x/y") 3 4 (str "qoi") = str "?"
  /\ Basename (str "x/y") = str "y".
Proof.
  destruct FormatFromParameters_scan as [H [_ [B _]]].
  destruct (H (str "x/y") (str "qoi") 3 4) as [_ [_ [Hc [_ [_ [_ [_ [_ Ho]]]]]]]].
  split; [|split].
  - apply Hc. discriminate.
  - apply (Ho "?"%char []). simpl. intuition discriminate.
  - apply (B (str "x") "/"%char (str "y")).
    + left. reflexivity.
    + repeat constructor. unfold is_separator. intuition discriminate.
Defined.

(** ** The decoder factory *)

Section Probe.
Variable w : World.

Let accepts (b : Backend) : Prop := LoadAndScale w b = true.
Let declines (b : Backend) : Prop := LoadAndScale w b = false.

Lemma try_backends_declined (l : list Backend) :
  forall tried,
    Forall declines l -> try_backends w l tried = (None, tried ++ l).
Proof.
  induction l as [|b l IH]; intros tried H; simpl.
  - now rewrite app_nil_r.
  - inversion H as [|? ? Hb Hl]; subst. unfold declines in Hb.
    rewrite Hb, IH by assumption.
    now rewrite <- app_assoc.
Qed.

Lemma try_backends_first (pre post : list Backend) (b : Backend) :
  forall tried,
    Forall declines pre -> accepts b ->
    try_backends w (pre ++ b :: post) tried = (Some b, tried ++ pre ++ [b]).
Proof.
  induction pre as [|x pre IH]; intros tried Hpre Hb; simpl.
  - unfold accepts in Hb. now rewrite Hb.
  - inversion Hpre as [|? ? Hx Hp]; subst. unfold declines in Hx.
    rewrite Hx, IH by assumption.
    now rewrite <- app_assoc.
Qed.

Lemma try_backends_app (l1 l2 : list Backend) :
  forall tried,
    try_backends w (l1 ++ l2) tried
    = match try_backends w l1 tried with
      | (Some b, t) => (Some b, t)
      | (None, t) => try_backends w l2 t
      end.
Proof.
  induction l1 as [|x l1 IH]; intros tried; simpl; [reflexivity|].
  destruct (LoadAndScale w x); [reflexivity | apply IH].
Qed.

(** [Create] is one pass of [try_backends] over [candidates]. *)
Lemma Create_try_candidates (cfg : BuildConfig) (filename : text)
    (ai av : bool) (error : text) :
  Create cfg w filename ai av error
  = match try_backends w (candidates cfg ai av) [] with
    | (Some b, t) =>
        {| handle := Some b; error_text := error; attempts := t |}
    | (None, t) =>
        {| handle := None;
           error_text := diagnose cfg w filename error;
           attempts := t |}
    end.
Proof.
  unfold Create, candidates. rewrite try_backends_app.
  destruct ai.
  - destruct (try_backends w (image_backends cfg) []) as [[b|] t];
      [reflexivity|].
    destruct (WITH_TIMG_VIDEO cfg && av);
      [destruct (try_backends w [VideoSource] t) as [[b|] t']|];
      reflexivity.
  - change (try_backends w [] []) with (@None Backend, @nil Backend).
    cbv iota.
    destruct (WITH_TIMG_VIDEO cfg && av);
      [destruct (try_backends w [VideoSource] []) as [[b|] t']|];
      reflexivity.
Qed.

Lemma first_accepting (l : list Backend) :
  Exists accepts l ->
  exists pre b post,
    l = pre ++ b :: post /\ Forall declines pre /\ accepts b.
Proof.
  induction l as [|x l IH]; intro H; [inversion H|].
  destruct (LoadAndScale w x) eqn:Hx.
  - exists [], x, l. repeat split; [constructor | exact Hx].
  - destruct IH as (pre & b & post & -> & Hpre & Hb).
    + inversion H as [? ? Hacc|]; subst; [|assumption].
      unfold accepts in Hacc. congruence.
    + exists (x :: pre), b, post. repeat split; [|assumption].
      constructor; assumption.
Qed.
End Probe.

Lemma candidates_NoDup (cfg : BuildConfig) (ai av : bool) :
  NoDup (candidates cfg ai av).
Proof.
  destruct cfg as [[] [] [] [] [] [] [] []], ai, av; cbn;
    repeat constructor; cbn; intuition discriminate.
Qed.

(** C7.  [Create] tries the compiled-in image decoders in the fixed order
    of the source, then the video decoder when that is compiled in and
    asked for, and returns the first one whose [LoadAndScale] succeeds:
    the decoders before it were each tried once and declined, it was tried
    last, and none after it is tried.  So of two decoders that both accept
    the file the one listed later is neither returned nor tried. *)
Theorem Create_first_success :
  forall (cfg : BuildConfig) (w : World) (filename : text) (ai av : bool)
         (error : text),
    let r := Create cfg w filename ai av error in
    image_backends cfg = filter (compiled_in cfg) all_image_backends
    /\ (forall pre b post,
           candidates cfg ai av = pre ++ b :: post ->
           Forall (fun x => LoadAndScale w x = false) pre ->
           LoadAndScale w b = true ->
           handle r = Some b /\ attempts r = pre ++ [b]
           /\ error_text r = error)
    /\ (forall l1 b1 l2 b2 l3,
           candidates cfg ai av = l1 ++ b1 :: l2 ++ b2 :: l3 ->
           LoadAndScale w b1 = true ->
           LoadAndScale w b2 = true ->
           (exists b, handle r = Some b /\ In b (l1 ++ [b1]))
           /\ handle r <> Some b2 /\ ~ In b2 (attempts r)).
Proof.
  intros cfg w filename ai av error r.
  assert (Hfirst : forall pre b post,
             candidates cfg ai av = pre ++ b :: post ->
             Forall (fun x => LoadAndScale w x = false) pre ->
             LoadAndScale w b = true ->
             handle r = Some b /\ attempts r = pre ++ [b]
             /\ error_text r = error).
  { intros pre b post Hc Hpre Hb. unfold r.
    rewrite Create_try_candidates, Hc, try_backends_first by assumption.
    repeat split. }
  split; [|split; [exact Hfirst|]].
  - destruct cfg as [[] [] [] [] [] [] [] []]; reflexivity.
  - intros l1 b1 l2 b2 l3 Hc H1 H2.
    destruct (first_accepting w (l1 ++ [b1])) as (pre & b & post & Hl & Hpre & Hb).
    { apply Exists_app. right. now constructor. }
    assert (Hc' : candidates cfg ai av = pre ++ b :: post ++ l2 ++ b2 :: l3).
    { rewrite Hc.
      change (l1 ++ b1 :: l2 ++ b2 :: l3) with (l1 ++ [b1] ++ l2 ++ b2 :: l3).
      rewrite app_assoc, Hl, <- app_assoc. reflexivity. }
    destruct (Hfirst pre b (post ++ l2 ++ b2 :: l3) Hc' Hpre Hb)
      as (Hh & Ha & _).
    assert (Hnd := candidates_NoDup cfg ai av).
    rewrite Hc' in Hnd.
    assert (Hnotin : ~ In b2 (pre ++ [b])).
    { replace (pre ++ b :: post ++ l2 ++ b2 :: l3)
        with ((pre ++ b :: post ++ l2) ++ b2 :: l3) in Hnd
        by (rewrite <- !app_assoc; cbn; now rewrite <- !app_assoc).
      apply NoDup_remove_2 in Hnd.
      intro Hin. apply Hnd. rewrite !in_app_iff in *. cbn in *.
      rewrite !in_app_iff. tauto. }
    repeat split.
    + exists b. split; [exact Hh|]. rewrite Hl, in_app_iff. right. now left.
    + rewrite Hh. intro E. injection E as ->.
      apply Hnotin. rewrite in_app_iff. right. now left.
    + now rewrite Ha.
Qed.

Lemma Create_first_success_witness :
  let r := Create jpeg_and_stb everything_loads (str "a.jpg") true true [] in
  (exists b, handle r = Some b /\ In b [JPEGSource])
  /\ handle r <> Some STBImageSource /\ ~ In STBImageSource (attempts r).
Proof.
  exact (proj2 (proj2 (Create_first_success jpeg_and_stb everything_loads
                         (str "a.jpg") true true []))
           [] JPEGSource [] STBImageSource [VideoSource]
           eq_refl eq_refl eq_refl).
Defined.

Lemma starts_with_app (p s : text) : starts_with p (p ++ s) = true.
Proof.
  induction p as [|c p IH]; [reflexivity|].
  cbn [app starts_with]. now rewrite Ascii.eqb_refl, IH.
Qed.

Lemma occurs_app (a p b : text) : occurs p (a ++ p ++ b) = true.
Proof.
  induction a as [|c a IH].
  - cbn [app]. destruct (p ++ b) eqn:E; cbn [occurs]; rewrite <- ?E;
      now rewrite starts_with_app.
  - cbn [app occurs]. rewrite IH. apply orb_true_r.
Qed.

Lemma occurs_end (a p : text) : occurs p (a ++ p) = true.
Proof. rewrite <- (app_nil_r p) at 2. apply occurs_app. Qed.

Section Throwing.
Variable load : Backend -> LoadOutcome.

Lemma try_backends_throwing_declined (l : list Backend) :
  forall tried,
    Forall (fun b => load b = Declines) l ->
    try_backends_throwing load l tried = Returns (None, tried ++ l).
Proof.
  induction l as [|b l IH]; intros tried H; cbn [try_backends_throwing].
  - now rewrite app_nil_r.
  - inversion H as [|? ? Hb Hl]; subst.
    rewrite Hb, IH by assumption. now rewrite <- app_assoc.
Qed.

Lemma try_backends_throwing_first (pre post : list Backend) (b : Backend) :
  forall tried,
    Forall (fun x => load x = Declines) pre -> load b = Throws ->
    try_backends_throwing load (pre ++ b :: post) tried = Propagates b.
Proof.
  induction pre as [|x pre IH]; intros tried Hpre Hb;
    cbn [app try_backends_throwing].
  - now rewrite Hb.
  - inversion Hpre as [|? ? Hx Hp]; subst. rewrite Hx. now apply IH.
Qed.

Lemma try_backends_throwing_app (l1 l2 : list Backend) :
  forall tried,
    try_backends_throwing load (l1 ++ l2) tried
    = match try_backends_throwing load l1 tried with
      | Returns (None, t) => try_backends_throwing load l2 t
      | other => other
      end.
Proof.
  induction l1 as [|x l1 IH]; intros tried; cbn [app try_backends_throwing];
    [reflexivity|].
  destruct (load x); [reflexivity | apply IH | reflexivity].
Qed.

(** [Create_throwing] is one pass over [candidates], as [Create] is. *)
Lemma Create_throwing_candidates (cfg : BuildConfig) (w : World)
    (filename : text) (ai av : bool) (error : text) :
  Create_throwing cfg w load filename ai av error
  = match try_backends_throwing load (candidates cfg ai av) [] with
    | Propagates b => Propagates b
    | Returns (Some b, t) =>
        Returns {| handle := Some b; error_text := error; attempts := t |}
    | Returns (None, t) =>
        Returns {| handle := None;
                   error_text := diagnose cfg w filename error;
                   attempts := t |}
    end.
Proof.
  unfold Create_throwing, candidates. rewrite try_backends_throwing_app.
  destruct ai.
  - destruct (try_backends_throwing load (image_backends cfg) [])
      as [[[b|] t]|b]; [reflexivity | | reflexivity].
    destruct (WITH_TIMG_VIDEO cfg && av);
      [destruct (try_backends_throwing load [VideoSource] t)
         as [[[b|] t']|b]|];
      reflexivity.
  - change (try_backends_throwing load [] [])
      with (@Returns (option Backend * Attempts) (None, [])).
    cbv iota.
    destruct (WITH_TIMG_VIDEO cfg && av);
      [destruct (try_backends_throwing load [VideoSource] [])
         as [[[b|] t']|b]|];
      reflexivity.
Qed.
End Throwing.

(** C8, where it fails.  In a build with the video decoder, a file named
    ["/dev/stdin"] that [stat] does not find: the name is not ["-"], and
    the error text is the hint to use [-V], in which neither the file name
    nor the reason of the operating system occurs. *)
Lemma stdin_name_loses_diagnostic :
  let r := Create jpeg_and_stb missing_file (str "/dev/stdin") true true [] in
  str "/dev/stdin" <> str "-"
  /\ error_text r = stdin_hint
  /\ occurs (str "/dev/stdin") (error_text r) = false
  /\ occurs (str "No such file or directory") (error_text r) = false
  /\ ~ diagnostic_claim jpeg_and_stb missing_file (str "/dev/stdin") true true
         [].
Proof.
  split; [discriminate|]. split; [reflexivity|].
  split; [vm_compute; reflexivity|]. split; [vm_compute; reflexivity|].
  intro H. destruct H as (_ & H & _).
  - repeat constructor.
  - discriminate.
  - destruct (H ENOENT eq_refl) as [H1 _]. vm_compute in H1. discriminate.
Qed.

(** C8, amended.  When every decoder tried declines and the file name is
    not a name of standard input (["-"], and ["/dev/stdin"] where video
    support is compiled in), [Create] returns no handle and appends a
    diagnostic to the error text: the file name and the operating system's
    reason when [stat] fails, "is a directory" when the path is one, the
    file name and the operating system's reason when the file may not be
    read; so what the specification says of the diagnostic holds there.
    A decoder that fails by returning [false] only leads to the next one,
    and [Create] returns: with decoders that may throw the result is the
    same as long as each of them declines.  [Create] catches nothing: an
    exception of the first decoder that throws leaves [Create]. *)
Theorem Create_diagnostic :
  forall (cfg : BuildConfig) (w : World) (filename : text) (ai av : bool)
         (error : text),
    Forall (fun b => LoadAndScale w b = false) (candidates cfg ai av) ->
    filename <> str "-" ->
    (WITH_TIMG_VIDEO cfg = true -> filename <> str "/dev/stdin") ->
    let r := Create cfg w filename ai av error in
    handle r = None
    /\ attempts r = candidates cfg ai av
    /\ (forall errno,
           stat w = StatFails errno ->
           error_text r = error ++ filename ++ str ": " ++ strerror w errno)
    /\ (stat w = StatOk true ->
        error_text r = error ++ filename ++ str ": is a directory")
    /\ (forall errno,
           stat w = StatOk false ->
           access_R_OK w = AccessFails errno ->
           error_text r = error ++ filename ++ str ": " ++ strerror w errno)
    /\ diagnostic_claim cfg w filename ai av error
    /\ (forall load,
           Forall (fun b => load b = Declines) (candidates cfg ai av) ->
           Create_throwing cfg w load filename ai av error = Returns r)
    /\ (forall load pre b post,
           candidates cfg ai av = pre ++ b :: post ->
           Forall (fun x => load x = Declines) pre ->
           load b = Throws ->
           Create_throwing cfg w load filename ai av error = Propagates b).
Proof.
  intros cfg w filename ai av error Hall Hdash Hstdin r.
  assert (Er : r = {| handle := None;
                      error_text := diagnose cfg w filename error;
                      attempts := candidates cfg ai av |}).
  { unfold r.
    now rewrite Create_try_candidates, try_backends_declined by assumption. }
  assert (Hne : forall a b : text, a ++ filename ++ str ": " ++ b <> []).
  { intros a b E. apply app_eq_nil in E. destruct E as [_ E].
    apply app_eq_nil in E. destruct E as [_ E]. discriminate. }
  assert (Hdash' : text_eqb filename (str "-") = false).
  { unfold text_eqb.
    destruct (list_eq_dec ascii_dec filename (str "-"));
      [contradiction | reflexivity]. }
  assert (Hd : forall e : text,
             e <> [] ->
             (if WITH_TIMG_VIDEO cfg
              then if false || text_eqb filename (str "/dev/stdin")
                   then str "If this is a video on stdin, use '-V' to skip image probing"
                   else e
              else match e with
                   | [] =>
                       if existsb (has_suffix_nocase filename) video_suffixes
                       then filename ++ str ": looks like a video file, but video support not compiled into this timg."
                       else e
                   | _ => e
                   end) = e).
  { intros e He. destruct (WITH_TIMG_VIDEO cfg).
    - unfold text_eqb.
      destruct (list_eq_dec ascii_dec filename (str "/dev/stdin"));
        [exfalso; now apply Hstdin|reflexivity].
    - destruct e; [contradiction | reflexivity]. }
  assert (H1 : forall errno,
             stat w = StatFails errno ->
             error_text r = error ++ filename ++ str ": " ++ strerror w errno).
  { intros errno Hs. rewrite Er. cbn [error_text].
    unfold diagnose. rewrite Hdash', Hs. cbn [negb]. apply Hd, Hne. }
  assert (H2 : stat w = StatOk true ->
               error_text r = error ++ filename ++ str ": is a directory").
  { intros Hs. rewrite Er. cbn [error_text].
    unfold diagnose. rewrite Hdash', Hs. cbn [negb].
    apply Hd. apply (Hne error (str "is a directory")). }
  assert (H3 : forall errno,
             stat w = StatOk false ->
             access_R_OK w = AccessFails errno ->
             error_text r = error ++ filename ++ str ": " ++ strerror w errno).
  { intros errno Hs Ha. rewrite Er. cbn [error_text].
    unfold diagnose. rewrite Hdash', Hs, Ha. cbn [negb]. apply Hd, Hne. }
  split; [now rewrite Er|]. split; [now rewrite Er|].
  split; [exact H1|]. split; [exact H2|]. split; [exact H3|].
  split; [|split].
  - intros _ _. fold r. split; [now rewrite Er|]. split; [|split].
    + intros errno Hs. rewrite (H1 errno Hs). split.
      * apply occurs_app.
      * rewrite !app_assoc. apply occurs_end.
    + intro Hs. rewrite (H2 Hs).
      change (str ": is a directory")
        with (str ": " ++ str "is a directory").
      rewrite !app_assoc. apply occurs_end.
    + intros errno Hs Ha. rewrite (H3 errno Hs Ha).
      rewrite !app_assoc. apply occurs_end.
  - intros load Hl.
    rewrite Create_throwing_candidates, try_backends_throwing_declined
      by assumption.
    now rewrite Er.
  - intros load pre b post Hc Hpre Hb.
    rewrite Create_throwing_candidates, Hc.
    now rewrite try_backends_throwing_first by assumption.
Qed.

Lemma Create_diagnostic_witness :
  let r := Create jpeg_and_stb missing_file (str "nope.png") true true [] in
  handle r = None
  /\ error_text r = str "nope.png: No such file or directory"
  /\ Create_throwing jpeg_and_stb missing_file (fun _ => Declines)
       (str "nope.png") true true [] = Returns r.
Proof.
  assert (H := Create_diagnostic jpeg_and_stb missing_file (str "nope.png")
                 true true []).
  cbv zeta in H.
  destruct H as (Hh & _ & He & _ & _ & _ & Hr & _).
  - repeat constructor.
  - discriminate.
  - discriminate.
  - split; [exact Hh|]. split; [exact (He ENOENT eq_refl)|].
    apply Hr. repeat constructor.
Defined.

(** ** The APNG sniffer *)

Lemma byte_val_nonneg (b : Byte.byte) : 0 <= byte_val b.
Proof. unfold byte_val. lia. Qed.

Lemma ntohl_prefix_nonneg (buf : list Byte.byte) : 0 <= ntohl_prefix buf.
Proof.
  unfold ntohl_prefix.
  destruct buf as [|b0 [|b1 [|b2 [|b3 ?]]]]; try lia.
  pose proof (byte_val_nonneg b0). pose proof (byte_val_nonneg b1).
  pose proof (byte_val_nonneg b2). pose proof (byte_val_nonneg b3).
  lia.
Qed.

(** Where no declared length comes within twelve of [2 ^ 32], the loop of
    the code ends within 86 rounds and is the walk of the specification. *)
Lemma apng_scan_chunk_walk (bytes : list Byte.byte) :
  (forall pos, ntohl_prefix (pread8 bytes pos) + 12 < 2 ^ 32) ->
  forall fuel pos,
    (1 <= fuel)%nat ->
    1024 - pos <= 12 * (Z.of_nat fuel - 1) ->
    apng_scan fuel (Some bytes) pos = Some (chunk_walk fuel bytes pos).
Proof.
  intro Hsmall.
  induction fuel as [|fuel IH]; intros pos H1 Hfuel; [lia|].
  cbn [apng_scan chunk_walk].
  destruct (pos <? 1024) eqn:Hpos; [|reflexivity].
  apply Z.ltb_lt in Hpos.
  destruct (negb (List.length (pread8 bytes pos) =? 8)%nat); [reflexivity|].
  destruct (is_acTL (pread8 bytes pos)); [reflexivity|].
  unfold chunk_advance.
  pose proof (ntohl_prefix_nonneg (pread8 bytes pos)).
  rewrite Z.mod_small by (split; [lia | apply Hsmall]).
  apply IH; lia.
Qed.

Lemma HasAPNGHeader_walk (file : FileState) :
  (forall bytes pos,
      file = Contents bytes -> ntohl_prefix (pread8 bytes pos) + 12 < 2 ^ 32) ->
  HasAPNGHeader 86 file = Some (LooksLikeAnimatedVariant_walk file).
Proof.
  intro Hsmall. destruct file as [| |bytes]; try reflexivity.
  unfold HasAPNGHeader, LooksLikeAnimatedVariant_walk, kPngHeaderLen.
  apply apng_scan_chunk_walk; [|lia|lia].
  intro pos. now apply Hsmall.
Qed.

Lemma apng_scan_stuck (fuel : nat) :
  apng_scan fuel (Some stuck_file) 8 = None.
Proof.
  induction fuel as [|fuel IH]; [reflexivity|].
  cbn [apng_scan]. exact IH.
Qed.

(** C9.  The scan of [HasAPNGHeader] is not the walk the specification
    describes when a chunk declares a length within twelve of [2 ^ 32]:
    the code adds 12 in 32 bits.  On [wrapping_file] the code answers
    true, having moved on by 11, where the walk moves past the first
    kibibyte and answers false; on [stuck_file] the code moves on by 0 and
    never answers, where the walk answers false. *)
Theorem HasAPNGHeader_length_wraps :
  HasAPNGHeader 2 (Contents wrapping_file) = Some true
  /\ LooksLikeAnimatedVariant_walk (Contents wrapping_file) = false
  /\ (forall fuel, HasAPNGHeader fuel (Contents stuck_file) = None)
  /\ LooksLikeAnimatedVariant_walk (Contents stuck_file) = false.
Proof.
  split; [vm_compute; reflexivity|].
  split; [vm_compute; reflexivity|].
  split; [|vm_compute; reflexivity].
  intro fuel. apply apng_scan_stuck.
Qed.

Lemma strcasecmp_before_string (file ending : text) (off : Z) :
  off < 0 -> strcasecmp_is0 file off ending = None.
Proof.
  intro H. destruct ending; simpl; unfold c_str_at;
    apply Z.ltb_lt in H; now rewrite H.
Qed.

(** C10.  [LooksLikeAPNG] hands [strcasecmp] the address
    [file + strlen(file) - strlen(ending)] without comparing the lengths:
    for every file name of fewer than four characters the first
    comparison reads before the first character.  The suffix test of
    [Create], which checks the length first, reads nothing there. *)
Theorem LooksLikeAPNG_reads_out_of_bounds :
  (forall fuel filename file,
      (strlen filename < 4)%nat ->
      LooksLikeAPNG fuel filename file = OutOfBounds)
  /\ suffix_offset (str "a") (str ".png") = -3
  /\ c_str_at (str "a") (-3) = None
  /\ (forall fuel file, LooksLikeAPNG fuel (str "a") file = OutOfBounds)
  /\ has_suffix_nocase (str "a") (str ".png") = false.
Proof.
  assert (H : forall fuel filename file,
             (strlen filename < 4)%nat ->
             LooksLikeAPNG fuel filename file = OutOfBounds).
  { intros fuel filename file Hlen.
    unfold LooksLikeAPNG. cbn [looks_like_apng_loop].
    rewrite strcasecmp_before_string; [reflexivity|].
    unfold suffix_offset. change (strlen (str ".png")) with 4%nat. lia. }
  split; [exact H|].
  split; [reflexivity|].
  split; [reflexivity|].
  split; [|reflexivity].
  intros fuel file. apply H. simpl. lia.
Qed.

Lemma LooksLikeAPNG_reads_out_of_bounds_witness :
  LooksLikeAPNG 86 (str "a") OpenFails = OutOfBounds.
Proof.
  apply (proj1 LooksLikeAPNG_reads_out_of_bounds 86%nat (str "a") OpenFails).
  simpl. lia.
Defined.

(* ================================================================= *)
(** * Further properties of the code *)

(** ** The returned flag and the stretch *)

Lemma doubling_changes (n : Z) : is_int n -> n <> 0 -> int_mul n 2 <> n.
Proof.
  unfold is_int, INT_MIN, INT_MAX, int_mul, wrap32. intros Hn H0 E.
  pose proof (Z.div_mod (n * 2 + 2 ^ 31) (2 ^ 32) ltac:(lia)) as D.
  pose proof (Z.mod_pos_bound (n * 2 + 2 ^ 31) (2 ^ 32) ltac:(lia)) as B.
  lia.
Qed.

(** X1.  For an image whose width is a nonzero [int], the flag that
    [CalcScaleToFitDisplay] returns tells whether the target differs from
    the image: it is true exactly when the target width or the target
    height is not the image's.  On the early return with a cell width of
    2 the doubled width is never the width itself, wrap-around included. *)
Theorem needs_scaling_iff_changed :
  forall (iw ih : Z) (o : DisplayOptions) (rot : bool),
    is_int iw -> iw <> 0 ->
    let r := CalcScaleToFitDisplay iw ih o rot in
    needs_scaling r = true <-> target_width r <> iw \/ target_height r <> ih.
Proof.
  intros iw ih o rot Hint H0 r. unfold r.
  destruct (no_scaling_needed (working_options o rot) iw ih) eqn:Hearly.
  - rewrite CalcScaleToFitDisplay_early by assumption.
    destruct (cell_x_px o =? 2); cbn [needs_scaling target_width target_height].
    + split; [|reflexivity]. intros _. left. now apply doubling_changes.
    + split; [discriminate|]. intros [H|H]; now contradict H.
  - rewrite CalcScaleToFitDisplay_scaled by assumption.
    cbv zeta. cbn [needs_scaling target_width target_height].
    rewrite orb_true_iff, !negb_true_iff, !Z.eqb_neq. reflexivity.
Qed.

Lemma needs_scaling_iff_changed_witness :
  let r := CalcScaleToFitDisplay 640 480
             (box 80 24 false false false false 1 2) false in
  needs_scaling r = true <-> target_width r <> 640 \/ target_height r <> 480.
Proof.
  apply (needs_scaling_iff_changed 640 480
           (box 80 24 false false false false 1 2) false).
  - unfold is_int, INT_MIN, INT_MAX. lia.
  - lia.
Defined.

Local Open Scope Q_scope.

Lemma clamp_stretch_fixed (q : Q) :
  kMin <= q <= 5 -> clamp_stretch (Fin q) = Fin q.
Proof.
  intros [H1 H2]. unfold clamp_stretch. rewrite kMinAcceptFactor_value.
  unfold fgt, kMaxAcceptFactor, flt.
  rewrite (Qle_bool_true q 5) by exact H2. cbn [negb].
  rewrite (Qle_bool_true kMin q) by exact H1. reflexivity.
Qed.

Lemma clamp_stretch_idempotent (a : float) :
  clamp_stretch (clamp_stretch a) = clamp_stretch a.
Proof.
  destruct a as [q|s|].
  - destruct (clamp_stretch_range (Fin q)) as (s & (q' & E & Hq) & Hs);
      [discriminate|].
    rewrite E. apply clamp_stretch_fixed. lra.
  - destruct (clamp_stretch_range (Inf s)) as (x & (q' & E & Hq) & Hs);
      [discriminate|].
    rewrite E. apply clamp_stretch_fixed. lra.
  - reflexivity.
Qed.

Local Close Scope Q_scope.

(** Past its first lines [CalcScaleToFitDisplay] reads the clamped copy of
    the stretch, never the field of the options. *)
Lemma CalcScaleToFitDisplay_stretch_field (iw ih : Z)
    (o o' : DisplayOptions) (rot rot' : bool) :
  snd (effective_options o rot) = snd (effective_options o' rot') ->
  (forall s, set_stretch (fst (effective_options o rot)) s
             = set_stretch (fst (effective_options o' rot')) s) ->
  CalcScaleToFitDisplay iw ih o rot = CalcScaleToFitDisplay iw ih o' rot'.
Proof.
  unfold CalcScaleToFitDisplay.
  destruct (effective_options o rot) as [[w h fw fh up ui st cx cy] ws].
  destruct (effective_options o' rot')
    as [[w' h' fw' fh' up' ui' st' cx' cy'] ws'].
  cbn [fst snd]. intros -> E. specialize (E NaN).
  unfold set_stretch in E. cbn in E. injection E as -> -> -> -> -> -> -> ->.
  unfold no_scaling_needed, fit_by_policy, width_fraction, height_fraction,
    quantize, integer_upscale, smaller_factor, aspect_correct.
  cbn [width height fill_width fill_height upscale upscale_integer
       cell_x_px cell_y_px].
  reflexivity.
Qed.

(** X2.  The rotation and the clamp come first and nothing after them
    reads the stretch of the options again: fitting under [o], rotated or
    not, is fitting, unrotated, under the options turned as the rotation
    turns them with their stretch replaced by its clamped value.  That
    value lies between [1 / 5] (as binary32 has it) and 5 whenever the
    stretch, inverted if rotated, is a number; infinities included.  A
    NaN passes the clamp unchanged, both comparisons being false. *)
Theorem stretch_acts_clamped :
  forall (iw ih : Z) (o : DisplayOptions) (rot : bool),
    let turned := if rot then rotate_options o else o in
    let stretch := clamp_stretch (width_stretch turned) in
    CalcScaleToFitDisplay iw ih o rot
    = CalcScaleToFitDisplay iw ih (set_stretch turned stretch) false
    /\ (width_stretch turned <> NaN ->
        exists s, stretch =~ s /\ (kMin <= s <= 5)%Q)
    /\ (width_stretch turned = NaN -> stretch = NaN).
Proof.
  intros iw ih o rot turned stretch. split; [|split].
  - apply CalcScaleToFitDisplay_stretch_field;
      unfold effective_options; fold turned;
      cbn [width_stretch set_stretch]; unfold stretch;
      rewrite clamp_stretch_idempotent; fold stretch.
    + destruct (fgt stretch one32); reflexivity.
    + intro s. destruct (fgt stretch one32); reflexivity.
  - intro H. now apply clamp_stretch_range.
  - intro H. unfold stretch. rewrite H. reflexivity.
Qed.

Lemma stretch_acts_clamped_witness :
  exists s,
    clamp_stretch (width_stretch (rotate_options (box 80 24 false false false
                                                    false 1 2)))
    =~ s /\ (kMin <= s <= 5)%Q.
Proof.
  apply (proj1 (proj2 (stretch_acts_clamped 1 1
                         (box 80 24 false false false false 1 2) true))).
  discriminate.
Defined.

(** ** Integer upscaling *)

Local Open Scope Q_scope.

Lemma R32_one_times (x : Q) : 0 <= x -> R32 (1 * x) == R32 x.
Proof.
  intro H. apply (round_fin_eq binary32 ltac:(simpl; lia)); [lra | ring].
Qed.

Lemma inject_Z_lt_succ (a b : Z) : inject_Z a < inject_Z b + 1 -> (a <= b)%Z.
Proof.
  intro H. rewrite <- inject_Z_succ in H. rewrite <- Zlt_Qlt in H. lia.
Qed.

(** The converted target [1.0f * t] is [t] itself up to [2 ^ 22]. *)
Lemma converted_target (t : Z) :
  (1 <= t <= 2 ^ 22)%Z ->
  R32 (1 * R32 (inject_Z t)) == inject_Z t /\ 1 <= inject_Z t <= 4194304.
Proof.
  intro Ht.
  assert (Q : 1 <= inject_Z t <= 4194304).
  { split; [change 1 with (inject_Z 1)
           | change 4194304 with (inject_Z (2 ^ 22))];
      rewrite <- Zle_Qle; lia. }
  assert (E : R32 (inject_Z t) == inject_Z t) by (apply R32_int; lia).
  split; [|exact Q].
  rewrite R32_one_times by (rewrite E; lra).
  rewrite (round_fin_eq binary32 ltac:(simpl; lia) _ (inject_Z t));
    [exact E | rewrite E; lra | exact E].
Qed.

Lemma integer_upscale_shrinks_step (o : DisplayOptions) (iw ih tw th : Z) :
  moderate iw -> moderate ih ->
  (1 <= tw <= 2 ^ 22)%Z -> (1 <= th <= 2 ^ 22)%Z ->
  integer_upscale o iw ih (tw, th) = (tw, th)
  \/ exists k : Z,
       (1 <= k)%Z
       /\ integer_upscale o iw ih (tw, th)
          = ((aspect o * k * iw)%Z, (k * ih)%Z)
       /\ (aspect o * k * iw <= tw)%Z /\ (k * ih <= th)%Z.
Proof.
  intros Hiw Hih Htw Hth.
  destruct (upscale_integer o && (iw <? tw)%Z && (ih <? th)%Z) eqn:Hc.
  2:{ left. unfold integer_upscale. now rewrite Hc. }
  apply andb_true_iff in Hc. destruct Hc as [Hc Hh].
  apply andb_true_iff in Hc. destruct Hc as [Hui Hw].
  apply Z.ltb_lt in Hw, Hh.
  assert (Iiw : (1 <= iw <= INT_MAX)%Z)
    by (unfold moderate, INT_MAX in *; lia).
  assert (Iih : (1 <= ih <= INT_MAX)%Z)
    by (unfold moderate, INT_MAX in *; lia).
  destruct (integer_upscale_spec o iw ih tw th)
    as (wf & hf & q & Ew & Eh & Eq & _ & Bq & Hrec & Hkeep);
    try assumption; try (unfold INT_MAX; lia).
  destruct (Qlt_le_dec 1 q) as [Hq|Hq]; [|left; now apply Hkeep].
  destruct (Hrec Hq) as (Hn & Hfw & Hfh).
  assert (Hqw : q <= wf) by (rewrite Eq; apply Q.le_min_l).
  assert (Hqh : q <= hf) by (rewrite Eq; apply Q.le_min_r).
  destruct (converted_target tw Htw) as [Ex Bx].
  destruct (converted_target th Hth) as [Ey By].
  set (x := R32 (1 * R32 (inject_Z tw))) in *.
  set (y := R32 (1 * R32 (inject_Z th))) in *.
  (* the width *)
  assert (Lw : (aspect o * Qfloor q * iw <= tw)%Z).
  { apply inject_Z_lt_succ.
    replace (aspect o * Qfloor q * iw)%Z
      with (aspect o * (Qfloor q * iw))%Z by ring.
    rewrite inject_Z_mult.
    pose proof (aspect_range o) as Hac.
    assert (Hcase : aspect o = 1%Z \/ aspect o = 2%Z) by lia.
    destruct Hcase as [Ea | Ea]; rewrite Ea in *.
    - assert (E1 : x / inject_Z 1 == x)
        by (change (inject_Z 1) with 1; field).
      assert (Hd : (1 # 1073741824) <= x / inject_Z 1) by (rewrite E1; lra).
      pose proof (R32_up _ Hd) as Hup.
      assert (HA : (1 # 2) <= R32 (x / inject_Z 1)).
      { apply R32_ge_half. rewrite E1. lra. }
      pose proof (floored_product_fits q _ iw Hiw HA (proj1 Bq)
                    ltac:(rewrite <- Ew; exact Hqw)) as Hp.
      change (inject_Z 1) with 1 in *. unfold eps in *. lra.
    - assert (E2 : x / inject_Z 2 == x * (1 # 2))
        by (change (inject_Z 2) with 2; field).
      assert (Hd : (1 # 1073741824) <= x / inject_Z 2) by (rewrite E2; lra).
      pose proof (R32_up _ Hd) as Hup.
      assert (HA : (1 # 2) <= R32 (x / inject_Z 2)).
      { apply R32_ge_half. rewrite E2. lra. }
      pose proof (floored_product_fits q _ iw Hiw HA (proj1 Bq)
                    ltac:(rewrite <- Ew; exact Hqw)) as Hp.
      change (inject_Z 2) with 2 in *. unfold eps in *. lra. }
  (* the height *)
  assert (Lh : (Qfloor q * ih <= th)%Z).
  { apply inject_Z_lt_succ.
    assert (HA : (1 # 2) <= y) by lra.
    pose proof (floored_product_fits q y ih Hih HA (proj1 Bq)
                  ltac:(rewrite <- Eh; exact Hqh)) as Hp.
    unfold eps in *. lra. }
  right. exists (Qfloor q). split; [exact Hn|].
  split; [|split; assumption].
  rewrite (surjective_pairing (integer_upscale o iw ih (tw, th))).
  rewrite Hfw, Hfh by (unfold INT_MAX; lia). reflexivity.
Qed.

Local Close Scope Q_scope.

Lemma previously_computed_positive (iw ih : Z) (o : DisplayOptions)
    (rot : bool) :
  1 <= fst (previously_computed iw ih o rot)
  /\ 1 <= snd (previously_computed iw ih o rot).
Proof.
  unfold previously_computed.
  destruct (effective_options o rot) as [opts ws].
  destruct (quantize opts (restretch ws (fit_by_policy opts iw ih))) as [a b].
  pose proof (at_least_one_bounds a b). lia.
Qed.

(** X3.  Outside the early return, with the image sides up to [2 ^ 24]
    and the target of line 138 up to [2 ^ 22]: the integer upscaling
    either leaves that target, or replaces it by the image magnified [k]
    times, [k >= 1] (the width twice more under a cell width of 2), and
    then neither side is larger than it was. *)
Theorem integer_upscale_shrinks :
  forall (iw ih : Z) (o : DisplayOptions) (rot : bool),
    moderate iw -> moderate ih ->
    let t0 := previously_computed iw ih o rot in
    let r := CalcScaleToFitDisplay iw ih o rot in
    no_scaling_needed (working_options o rot) iw ih = false ->
    fst t0 <= 2 ^ 22 -> snd t0 <= 2 ^ 22 ->
    (target_width r = fst t0 /\ target_height r = snd t0)
    \/ exists k,
         1 <= k
         /\ target_width r = aspect o * k * iw
         /\ target_height r = k * ih
         /\ target_width r <= fst t0 /\ target_height r <= snd t0.
Proof.
  intros iw ih o rot Hiw Hih t0 r Hno H1 H2. unfold r.
  rewrite CalcScaleToFitDisplay_scaled by assumption.
  cbv zeta. cbn [target_width target_height]. fold t0.
  destruct (previously_computed_positive iw ih o rot) as [P1 P2].
  fold t0 in P1, P2.
  destruct t0 as [tw th]. cbn [fst snd] in *.
  destruct (integer_upscale_shrinks_step (working_options o rot) iw ih tw th)
    as [E | (k & Hk & E & Lw & Lh)]; try assumption; try lia.
  - left. rewrite E. split; reflexivity.
  - right. exists k. rewrite E. cbn [fst snd].
    rewrite aspect_working_options in *. repeat split; assumption.
Qed.

Lemma integer_upscale_shrinks_witness :
  let o := box 35 35 false false true true 1 1 in
  let t0 := previously_computed 10 10 o false in
  let r := CalcScaleToFitDisplay 10 10 o false in
  (target_width r = fst t0 /\ target_height r = snd t0)
  \/ exists k,
       1 <= k
       /\ target_width r = aspect o * k * 10
       /\ target_height r = k * 10
       /\ target_width r <= fst t0 /\ target_height r <= snd t0.
Proof.
  intros o t0 r.
  apply (integer_upscale_shrinks 10 10 o false).
  - unfold moderate. lia.
  - unfold moderate. lia.
  - vm_compute. reflexivity.
  - vm_compute. discriminate.
  - vm_compute. discriminate.
Defined.

(** ** The letterbox fit when upscaling *)

Local Open Scope Q_scope.

(** A fraction that is at most the rounded quotient [m / n], times [n],
    stays near [m]. *)
Lemma fraction_times_side (x : Q) (m n : Z) :
  (0 <= m <= 2 ^ 13)%Z -> moderate n ->
  0 <= x -> x <= R32 (inject_Z m / inject_Z n) ->
  x * inject_Z n <= 16384.
Proof.
  intros Hm Hn Hx0 Hx. pose proof (moderate_inject n Hn) as Qn.
  assert (Qm : 0 <= inject_Z m <= 8192).
  { split; [apply inject_Z_nonneg; lia|].
    change 8192 with (inject_Z (2 ^ 13)). rewrite <- Zle_Qle. lia. }
  destruct (Z.eq_dec m 0) as [->|Hm0].
  - assert (E : R32 (inject_Z 0 / inject_Z n) == 0).
    { apply round_fin_0. unfold Qdiv. simpl. ring. }
    assert (Ex : x == 0) by lra. rewrite Ex. lra.
  - assert (Qm1 : 1 <= inject_Z m).
    { change 1 with (inject_Z 1). rewrite <- Zle_Qle. lia. }
    set (d := inject_Z m / inject_Z n) in *.
    assert (Hd : inject_Z m == d * inject_Z n) by (unfold d; field; lra).
    assert (Hd0 : (1 # 1073741824) <= d).
    { unfold d. apply Qle_shift_div_l; lra. }
    pose proof (R32_up d Hd0) as Hup.
    assert (Hp : x * inject_Z n <= inject_Z m * (1 + eps)).
    { rewrite Hd. unfold eps in *. nra. }
    unfold eps in Hp. lra.
Qed.

Lemma letterbox_target_in_box (iw ih : Z) (o : DisplayOptions) (rot : bool) :
  letterbox_bounds iw ih o ->
  fill_width o = false -> fill_height o = false ->
  let t0 := previously_computed iw ih o rot in
  (1 <= fst t0 <= box_width o rot)%Z /\ (1 <= snd t0 <= box_height o rot)%Z.
Proof.
  intros Hb Hfw Hfh.
  destruct (letterbox_bounds_box iw ih o rot Hb) as [HW HH].
  destruct Hb as (Hiw & Hih & _ & _ & HNaN).
  destruct (working_box o rot HNaN HW HH)
    as (s & ws & Ews & Fs & Bs & Bw & Bh & Hcase).
  destruct (working_options_fields o rot) as (_ & _ & Eup & _ & Efw & Efh).
  assert (Efw' : fill_width (working_options o rot) = false)
    by (rewrite Efw; destruct rot; assumption).
  assert (Efh' : fill_height (working_options o rot) = false)
    by (rewrite Efh; destruct rot; assumption).
  pose proof (small_inject _ HW) as QW. pose proof (small_inject _ HH) as QH.
  pose proof (moderate_inject _ Hiw) as Qiw.
  pose proof (moderate_inject _ Hih) as Qih.
  unfold kMin in Bs.
  unfold previously_computed, working_options in *.
  destruct (effective_options o rot) as [opts ws']. cbn [fst snd] in *.
  subst ws'.
  assert (Hw13 : (0 <= width opts <= 2 ^ 13)%Z) by (unfold small in HW; lia).
  assert (Hh13 : (0 <= height opts <= 2 ^ 13)%Z) by (unfold small in HH; lia).
  destruct (fraction_value _ _ Hw13 Hiw) as [Fwf Bwf].
  destruct (fraction_value _ _ Hh13 Hih) as [Fhf Bhf].
  fold (width_fraction opts iw) in Fwf. fold (height_fraction opts ih) in Fhf.
  set (wf := R32 (inject_Z (width opts) / inject_Z iw)) in *.
  set (hf := R32 (inject_Z (height opts) / inject_Z ih)) in *.
  (* the smaller fraction *)
  assert (Hsm : exists x,
             (if flt (width_fraction opts iw) (height_fraction opts ih)
              then width_fraction opts iw else height_fraction opts ih) =~ x
             /\ 0 <= x /\ x <= wf /\ x <= hf).
  { destruct (flt _ _) eqn:E.
    - apply (flt_spec _ _ wf hf Fwf Fhf) in E.
      exists wf. split; [assumption|]. split; [lra|]. split; lra.
    - assert (~ wf < hf).
      { intro H. apply (flt_spec _ _ wf hf Fwf Fhf) in H. congruence. }
      exists hf. split; [assumption|]. split; [lra|]. split; lra. }
  destruct Hsm as (x & Fx & Hx0 & Hxw & Hxh).
  unfold fit_by_policy. rewrite Efw', Efh'. cbn [andb].
  set (sm := if flt (width_fraction opts iw) (height_fraction opts ih)
             then width_fraction opts iw else height_fraction opts ih) in *.
  pose proof (fraction_times_side x _ _ Hw13 Hiw Hx0 Hxw) as Pw.
  pose proof (fraction_times_side x _ _ Hh13 Hih Hx0 Hxh) as Ph.
  destruct (scaled_value sm x iw 14 Fx) as [Ea Ba];
    [lra | assumption | lia | change (two ^ 14) with 16384; exact Pw|].
  destruct (scaled_value sm x ih 14 Fx) as [Eb Bb];
    [lra | assumption | lia | change (two ^ 14) with 16384; exact Ph|].
  rewrite Ea, Eb.
  set (a := Qfloor (R32 (x * inject_Z iw) + (1 # 2))) in *.
  set (b := Qfloor (R32 (x * inject_Z ih) + (1 # 2))) in *.
  assert (Haw : (a <= width opts)%Z) by (apply scaled_le_box; assumption).
  assert (Hbh : (b <= height opts)%Z) by (apply scaled_le_box; assumption).
  assert (Fa : f32_of_int a =~ inject_Z a)
    by (apply f32_of_int_small; unfold small in *; lia).
  assert (Fb : f32_of_int b =~ inject_Z b)
    by (apply f32_of_int_small; unfold small in *; lia).
  assert (Qa : 0 <= inject_Z a) by (apply inject_Z_nonneg; lia).
  assert (Qb : 0 <= inject_Z b) by (apply inject_Z_nonneg; lia).
  (* the stretch is put back *)
  assert (Hre : let t := restretch ws (a, b) in
                (0 <= fst t <= box_width o rot)%Z
                /\ (0 <= snd t <= box_height o rot)%Z).
  { unfold restretch.
    destruct Hcase as [(Hs & Hgt & Hwq & Ehq) | (Hs & Hgt & Ewq & Hhq)];
      rewrite Hgt; cbn [fst snd].
    - assert (Hprod : inject_Z a * s
                      <= inject_Z (box_width o rot) * (1 + eps)).
      { assert (inject_Z a <= inject_Z (width opts))
          by (rewrite <- Zle_Qle; exact Haw).
        assert (E : inject_Z (box_width o rot) * (1 + eps)
                    == inject_Z (box_width o rot) / s * (1 + eps) * s)
          by (field; lra).
        rewrite E. nra. }
      assert (Fm : fmul32 (f32_of_int a) ws =~ R32 (inject_Z a * s)).
      { apply (fmul_round binary32 binary32_wf _ _ _ _ 14);
          [assumption | assumption | lra | lra | | simpl; lia].
        change (two ^ 14) with 16384. unfold eps in Hprod. lra. }
      destruct (restretched_le_box _ _ _ Fm HW) as [T0 T1];
        [nra | exact Hprod |].
      split; lia.
    - assert (Hquot : inject_Z b / s
                      <= inject_Z (box_height o rot) * (1 + eps)).
      { assert (inject_Z b <= inject_Z (height opts))
          by (rewrite <- Zle_Qle; exact Hbh).
        apply Qle_shift_div_r; [lra|].
        assert (E : inject_Z (box_height o rot) * (1 + eps) * s
                    == inject_Z (box_height o rot) * s * (1 + eps))
          by ring.
        rewrite E. lra. }
      assert (Hq0 : 0 <= inject_Z b / s) by (apply Qle_shift_div_l; lra).
      assert (Fd : fdiv32 (f32_of_int b) ws =~ R32 (inject_Z b / s)).
      { apply (fdiv_round binary32 binary32_wf _ _ _ _ 14);
          [assumption | assumption | lra | lra | | simpl; lia].
        change (two ^ 14) with 16384. unfold eps in Hquot. lra. }
      destruct (restretched_le_box _ _ _ Fd HH) as [T0 T1];
        [exact Hq0 | exact Hquot |].
      split; lia. }
  cbv zeta in Hre.
  destruct (restretch ws (a, b)) as [c d]. cbn [fst snd] in Hre.
  destruct Hre as (Hc & Hd).
  destruct (quantize_bounds opts c d (2 ^ 13)) as [Q1 Q2];
    [unfold small in *; lia | unfold small in *; lia
    | unfold INT_MAX; lia |].
  destruct (quantize opts (c, d)) as [e f]. cbn [fst snd] in *.
  pose proof (at_least_one_bounds e f) as [A1 A2].
  unfold small, moderate in *. cbv zeta.
  split; lia.
Qed.

Local Close Scope Q_scope.

(** X4.  With upscaling requested the letterbox fit stays inside the box
    as well, whatever the stretch, the cell sizes and the integer
    upscaling: both target sides are at least 1 and at most the side of
    the box.  Sides as for the letterbox fit without upscaling. *)
Theorem letterbox_upscaled_within_box :
  forall (iw ih : Z) (o : DisplayOptions) (rot : bool),
    letterbox_bounds iw ih o ->
    fill_width o = false -> fill_height o = false ->
    upscale o = true ->
    let r := CalcScaleToFitDisplay iw ih o rot in
    1 <= target_width r <= box_width o rot
    /\ 1 <= target_height r <= box_height o rot.
Proof.
  intros iw ih o rot Hb Hfw Hfh Hup r. unfold r.
  assert (Hno : no_scaling_needed (working_options o rot) iw ih = false).
  { destruct (working_options_fields o rot) as (_ & _ & Eup & _).
    unfold no_scaling_needed. now rewrite Eup, Hup. }
  destruct (letterbox_target_in_box iw ih o rot Hb Hfw Hfh) as [B1 B2].
  destruct (letterbox_bounds_box iw ih o rot Hb) as [HW HH].
  destruct Hb as (Hiw & Hih & _).
  rewrite CalcScaleToFitDisplay_scaled by assumption.
  cbv zeta. cbn [target_width target_height].
  destruct (previously_computed iw ih o rot) as [tw th]. cbn [fst snd] in *.
  unfold small in HW, HH.
  destruct (integer_upscale_shrinks_step (working_options o rot) iw ih tw th)
    as [E | (k & Hk & E & Lw & Lh)]; try assumption; try lia;
    rewrite E; cbn [fst snd]; [split; assumption|].
  pose proof (aspect_range (working_options o rot)). unfold moderate in *.
  split; split; try lia; nia.
Qed.

Lemma letterbox_upscaled_within_box_witness :
  let r := CalcScaleToFitDisplay 10 10
             (box 35 25 false false true true 2 1) false in
  1 <= target_width r <= 35 /\ 1 <= target_height r <= 25.
Proof.
  apply (letterbox_upscaled_within_box 10 10
           (box 35 25 false false true true 2 1) false).
  - unfold letterbox_bounds, moderate, small. cbn.
    repeat split; try lia; discriminate.
  - reflexivity.
  - reflexivity.
  - reflexivity.
Defined.

(** ** Proportions under the four fitting policies *)

Local Open Scope Q_scope.

Lemma unstretched (b : Z) :
  (0 <= b <= 2 ^ 24)%Z -> to_int (fdiv32 (f32_of_int b) one32) = b.
Proof.
  intros Hb. apply to_int_Z; [|unfold INT_MAX; lia].
  assert (Qb : 0 <= inject_Z b <= 16777216).
  { split; [apply inject_Z_nonneg; lia|].
    change 16777216 with (inject_Z (2 ^ 24)). rewrite <- Zle_Qle. lia. }
  assert (E1 : inject_Z b / 1 == inject_Z b) by field.
  apply Feq_eq with (R32 (inject_Z b / 1)).
  - apply (fdiv_round binary32 binary32_wf _ _ _ _ 24);
      [apply f32_of_int_small; lia | apply Feq_Fin | lra | lra
      | rewrite E1; change (two ^ 24) with 16777216; lra | simpl; lia].
  - rewrite (round_fin_eq binary32 ltac:(simpl; lia) _ (inject_Z b));
      [apply R32_int; lia | rewrite E1; lra | exact E1].
Qed.

Lemma quantize_unit_cells (opts : DisplayOptions) (a b : Z) :
  cell_x_px opts <> 2%Z -> cell_y_px opts <> 2%Z ->
  is_int a -> is_int b -> quantize opts (a, b) = (a, b).
Proof.
  intros Hcx Hcy Ha Hb. unfold quantize.
  destruct (_ && _) eqn:E; [|reflexivity].
  apply andb_true_iff in E. destruct E as [E Ey2].
  apply andb_true_iff in E. destruct E as [E Ey1].
  apply andb_true_iff in E. destruct E as [Ex1 Ex2].
  apply Z.ltb_lt in Ex1, Ey1. apply Z.leb_le in Ex2, Ey2.
  replace (cell_x_px opts) with 1%Z by lia.
  replace (cell_y_px opts) with 1%Z by lia.
  unfold int_mul, int_div. rewrite !Z.quot_1_r, !Z.mul_1_r.
  rewrite !wrap32_small by assumption.
  reflexivity.
Qed.

Local Close Scope Q_scope.

(** With a stretch of 1 and no cell of size 2 the target of line 138 is
    what the fitting policy gave, raised to 1 where it is 0. *)
Lemma previously_computed_plain (iw ih : Z) (o : DisplayOptions) (rot : bool)
    (a b : Z) :
  width_stretch o = one32 -> small (box_height o rot) ->
  cell_x_px o <> 2 -> cell_y_px o <> 2 ->
  fit_by_policy (working_options o rot) iw ih = (a, b) ->
  0 <= a <= 2 ^ 24 -> 0 <= b <= 2 ^ 24 ->
  previously_computed iw ih o rot = (Z.max 1 a, Z.max 1 b).
Proof.
  intros Hws HH Hcx Hcy Hfit Ha Hb.
  destruct (unit_stretch o rot Hws HH) as (Ews & _ & _).
  destruct (working_options_fields o rot) as (Ecx & Ecy & _).
  unfold previously_computed, working_options in *.
  destruct (effective_options o rot) as [opts ws]. cbn [fst snd] in *.
  subst ws. rewrite Hfit.
  unfold restretch. replace (fgt one32 one32) with false by reflexivity.
  rewrite unstretched by lia.
  rewrite quantize_unit_cells;
    [| now rewrite Ecx | now rewrite Ecy
     | unfold is_int, INT_MIN, INT_MAX; lia
     | unfold is_int, INT_MIN, INT_MAX; lia].
  cbn [at_least_one].
  destruct (Z.leb_spec a 0), (Z.leb_spec b 0); f_equal; lia.
Qed.

Local Open Scope Q_scope.

Lemma cross_ratio (m n k : Z) (B : Q) :
  small m -> moderate n -> moderate k ->
  inject_Z (m * k) <= B * inject_Z n ->
  inject_Z m / inject_Z n * inject_Z k <= B.
Proof.
  intros Hm Hn Hk H.
  pose proof (moderate_inject n Hn) as Qn.
  rewrite inject_Z_mult in H.
  assert (E : inject_Z m / inject_Z n * inject_Z k
              == inject_Z m * inject_Z k / inject_Z n) by (field; lra).
  rewrite E. apply Qle_shift_div_r; lra.
Qed.

(** Rounding the quotient [m / n], scaling [k] by it and rounding to an
    integer lands within one of [m * k / n]. *)
Lemma scaled_proportional (m n k : Z) :
  small m -> moderate n -> moderate k ->
  (m * k <= 2 ^ 14 * n)%Z ->
  R32 (inject_Z m / inject_Z n) * inject_Z k <= 32768
  /\ proportional (scaled_side (R32 (inject_Z m / inject_Z n)) k) m k n.
Proof.
  intros Hm Hn Hk Hmk. unfold scaled_side.
  pose proof (small_inject m Hm) as Qm.
  pose proof (moderate_inject n Hn) as Qn.
  pose proof (moderate_inject k Hk) as Qk.
  set (d := inject_Z m / inject_Z n).
  assert (Hd : inject_Z m == d * inject_Z n) by (unfold d; field; lra).
  assert (Hd0 : (1 # 16777216) <= d) by (apply Qle_shift_div_l; lra).
  assert (He : d * inject_Z k <= 16384).
  { apply cross_ratio; try assumption.
    change 16384 with (inject_Z (2 ^ 14)).
    rewrite <- inject_Z_mult, <- Zle_Qle. exact Hmk. }
  assert (He0 : (1 # 16777216) <= d * inject_Z k) by nra.
  pose proof (R32_up d ltac:(lra)) as Hup.
  pose proof (R32_down d ltac:(lra)) as Hlo.
  set (rd := R32 d) in *.
  assert (Hp1 : rd * inject_Z k <= d * inject_Z k * (1 + eps))
    by (unfold eps in *; nra).
  assert (Hp2 : d * inject_Z k * (1 - eps) <= rd * inject_Z k)
    by (unfold eps in *; nra).
  set (e := d * inject_Z k) in *.
  set (p := rd * inject_Z k) in *.
  assert (Hp0 : (1 # 1073741824) <= p) by (unfold eps in *; lra).
  pose proof (R32_up p Hp0) as Hup2.
  pose proof (R32_down p Hp0) as Hlo2.
  split; [unfold eps in *; lra|].
  pose proof (Qfloor_bounds (R32 p + (1 # 2))) as [F1 F2].
  set (v := Qfloor (R32 p + (1 # 2))) in *.
  assert (Hv : -1 < inject_Z v - e < 1) by (unfold eps in *; lra).
  assert (Hen : e * inject_Z n == inject_Z m * inject_Z k).
  { unfold e. rewrite Hd. ring. }
  assert (HQ : - inject_Z n < inject_Z (v * n - m * k) < inject_Z n).
  { unfold Z.sub. rewrite inject_Z_plus, inject_Z_opp, !inject_Z_mult.
    rewrite <- Hen. nra. }
  unfold proportional. destruct HQ as [HQ1 HQ2].
  rewrite <- inject_Z_opp in HQ1. rewrite <- Zlt_Qlt in HQ1, HQ2.
  split; assumption.
Qed.

Lemma proportional_at_least_one (v m k n : Z) :
  (0 <= v)%Z -> (1 <= m)%Z -> (1 <= k)%Z -> (1 <= n)%Z ->
  proportional v m k n -> proportional (Z.max 1 v) m k n.
Proof.
  unfold proportional. intros Hv Hm Hk Hn H.
  destruct (Z.eq_dec v 0) as [->|Hv0].
  - change (Z.max 1 0) with 1%Z. nia.
  - replace (Z.max 1 v) with v by lia. exact H.
Qed.

Local Open Scope Q_scope.

Lemma fraction_lt_cross (m n m' n' : Z) :
  (0 <= m)%Z -> (0 <= m')%Z -> moderate n -> moderate n' ->
  R32 (inject_Z m / inject_Z n) < R32 (inject_Z m' / inject_Z n') ->
  (m * n' < m' * n)%Z.
Proof.
  intros Hm Hm' Hn Hn' H.
  pose proof (moderate_inject n Hn) as Qn.
  pose proof (moderate_inject n' Hn') as Qn'.
  pose proof (inject_Z_nonneg m Hm) as Qm.
  pose proof (inject_Z_nonneg m' Hm') as Qm'.
  destruct (Z_lt_le_dec (m * n') (m' * n)) as [Hlt|Hle]; [exact Hlt|exfalso].
  assert (Hq : inject_Z m' / inject_Z n' <= inject_Z m / inject_Z n).
  { apply Qle_shift_div_l; [lra|].
    assert (E : inject_Z m' / inject_Z n' * inject_Z n
                == inject_Z m' * inject_Z n / inject_Z n') by (field; lra).
    rewrite E. apply Qle_shift_div_r; [lra|].
    rewrite <- !inject_Z_mult, <- Zle_Qle. exact Hle. }
  assert (H0 : 0 <= inject_Z m' / inject_Z n').
  { apply Qle_shift_div_l; lra. }
  pose proof (R32_le _ _ H0 Hq). lra.
Qed.

Lemma fraction_le_cross (m n m' n' : Z) :
  small m -> small m' -> moderate n -> moderate n' ->
  R32 (inject_Z m' / inject_Z n') <= R32 (inject_Z m / inject_Z n) ->
  (m' * n <= 2 * m * n')%Z.
Proof.
  intros Hm Hm' Hn Hn' H.
  pose proof (moderate_inject n Hn) as Qn.
  pose proof (moderate_inject n' Hn') as Qn'.
  pose proof (small_inject m Hm) as Qm.
  pose proof (small_inject m' Hm') as Qm'.
  set (a := inject_Z m / inject_Z n) in *.
  set (b := inject_Z m' / inject_Z n') in *.
  assert (Ea : inject_Z m == a * inject_Z n) by (unfold a; field; lra).
  assert (Eb : inject_Z m' == b * inject_Z n') by (unfold b; field; lra).
  assert (Ha : (1 # 1073741824) <= a) by (apply Qle_shift_div_l; lra).
  assert (Hb : (1 # 1073741824) <= b) by (apply Qle_shift_div_l; lra).
  pose proof (R32_up a Ha) as Hup. pose proof (R32_down b Hb) as Hlo.
  assert (Hba : b <= 2 * a) by (unfold eps in *; lra).
  assert (Hnn : 0 < inject_Z n * inject_Z n') by nra.
  rewrite Zle_Qle, !inject_Z_mult. change (inject_Z 2) with 2.
  rewrite Ea, Eb. nra.
Qed.

Local Close Scope Q_scope.

Lemma plain_fit_working (iw ih : Z) (o : DisplayOptions) (rot : bool) :
  plain_fit iw ih o ->
  let opts := working_options o rot in
  small (box_width o rot) /\ small (box_height o rot)
  /\ width opts = box_width o rot /\ height opts = box_height o rot
  /\ width_fraction opts iw
     =~ R32 (inject_Z (box_width o rot) / inject_Z iw)
  /\ height_fraction opts ih
     =~ R32 (inject_Z (box_height o rot) / inject_Z ih).
Proof.
  intros (Hiw & Hih & Hw & Hh & Hws & _) opts.
  assert (HW : small (box_width o rot))
    by (unfold box_width; destruct rot; assumption).
  assert (HH : small (box_height o rot))
    by (unfold box_height; destruct rot; assumption).
  destruct (unit_stretch o rot Hws HH) as (_ & Ew & Eh).
  fold opts in Ew, Eh.
  split; [exact HW|]. split; [exact HH|].
  split; [exact Ew|]. split; [exact Eh|].
  unfold width_fraction, height_fraction. rewrite Ew, Eh.
  split; apply fraction_value; unfold small in *; try assumption; lia.
Qed.

Lemma plain_fit_result (iw ih : Z) (o : DisplayOptions) (rot : bool)
    (a b : Z) :
  plain_fit iw ih o ->
  no_scaling_needed (working_options o rot) iw ih = false ->
  fit_by_policy (working_options o rot) iw ih = (a, b) ->
  0 <= a <= 2 ^ 24 -> 0 <= b <= 2 ^ 24 ->
  target_width (CalcScaleToFitDisplay iw ih o rot) = Z.max 1 a
  /\ target_height (CalcScaleToFitDisplay iw ih o rot) = Z.max 1 b.
Proof.
  intros Hp Hno Hfit Ha Hb.
  destruct (plain_fit_working iw ih o rot Hp) as (_ & HH & _).
  destruct Hp as (_ & _ & _ & _ & Hws & Hcx & Hcy & Hui).
  rewrite CalcScaleToFitDisplay_scaled by assumption.
  cbv zeta. cbn [target_width target_height].
  rewrite integer_upscale_off
    by (destruct (working_options_fields o rot) as (_ & _ & _ & E & _);
        now rewrite E).
  rewrite (previously_computed_plain iw ih o rot a b) by assumption.
  split; reflexivity.
Qed.

Lemma scaled_side_value (f : float) (x : Q) (n : Z) :
  f =~ x -> (0 <= x)%Q -> moderate n -> (x * inject_Z n <= 32768)%Q ->
  to_int (roundf (fmul32 f (f32_of_int n))) = scaled_side x n
  /\ 0 <= scaled_side x n <= 2 ^ 15.
Proof.
  intros Ff Hx Hn Hxn. unfold scaled_side.
  apply (scaled_value f x n 15);
    [assumption | assumption | assumption | lia | exact Hxn].
Qed.

Lemma scaled_side_le (x y : Q) (n : Z) :
  (0 <= x)%Q -> (x <= y)%Q -> moderate n ->
  scaled_side x n <= scaled_side y n.
Proof.
  intros Hx Hxy Hn. pose proof (moderate_inject n Hn) as Qn.
  unfold scaled_side. apply Qfloor_resp_le.
  assert (R32 (x * inject_Z n) <= R32 (y * inject_Z n))%Q
    by (apply R32_le; nra).
  lra.
Qed.

Lemma fraction_nonneg (m n : Z) :
  small m -> moderate n -> (0 <= R32 (inject_Z m / inject_Z n))%Q.
Proof.
  intros Hm Hn.
  pose proof (small_inject m Hm). pose proof (moderate_inject n Hn).
  apply R32_nonneg. apply Qle_shift_div_l; lra.
Qed.

Lemma scaled_side_reaches (m n : Z) :
  small m -> moderate n ->
  scaled_side (R32 (inject_Z m / inject_Z n)) n = m.
Proof. apply scaled_reaches_box. Qed.

Lemma small_max (n : Z) : small n -> Z.max 1 n = n.
Proof. unfold small. lia. Qed.

(** X5.  Fit to width (lines 107-110), for image sides from 1 to [2 ^ 24]
    and box sides from 1 to [2 ^ 13], a stretch of 1, no cell of size 2
    and no integer upscaling (this is [plain_fit]), outside the early
    return: the target is exactly as wide as the box, and its height is
    the image height scaled by box width over image width, to within one
    pixel.  The height is not held to the box.  The scaled height is
    assumed to be at most [2 ^ 14]. *)
Theorem fill_width_proportional :
  forall (iw ih : Z) (o : DisplayOptions) (rot : bool),
    plain_fit iw ih o ->
    fill_width (working_options o rot) = true ->
    fill_height (working_options o rot) = false ->
    no_scaling_needed (working_options o rot) iw ih = false ->
    box_width o rot * ih <= 2 ^ 14 * iw ->
    let r := CalcScaleToFitDisplay iw ih o rot in
    target_width r = box_width o rot
    /\ proportional (target_height r) (box_width o rot) ih iw.
Proof.
  intros iw ih o rot Hp Hfw Hfh Hno Hprop r. unfold r.
  destruct (plain_fit_working iw ih o rot Hp)
    as (HW & HH & Ew & Eh & Fwf & Fhf).
  pose proof Hp as (Hiw & Hih & _).
  destruct (scaled_proportional _ _ _ HW Hiw Hih Hprop) as [Hle Hpr].
  destruct (scaled_side_value _ _ ih Fwf (fraction_nonneg _ _ HW Hiw) Hih Hle)
    as [Es Bs].
  destruct (plain_fit_result iw ih o rot (box_width o rot)
              (scaled_side (R32 (inject_Z (box_width o rot) / inject_Z iw)) ih)
              Hp Hno) as [Et Eu].
  { unfold fit_by_policy. rewrite Hfw, Hfh. cbn [andb].
    now rewrite Es, Ew. }
  { unfold small in HW. lia. }
  { lia. }
  rewrite Et, Eu. split; [now apply small_max|].
  apply proportional_at_least_one;
    unfold small, moderate in *; try lia; assumption.
Qed.

Lemma fill_width_proportional_witness :
  let r := CalcScaleToFitDisplay 640 480
             (box 80 24 true false false false 1 1) false in
  target_width r = 80 /\ proportional (target_height r) 80 480 640.
Proof.
  apply (fill_width_proportional 640 480
           (box 80 24 true false false false 1 1) false).
  - unfold plain_fit, moderate, small. cbn.
    repeat split; try lia; discriminate.
  - reflexivity.
  - reflexivity.
  - vm_compute. reflexivity.
  - vm_compute. discriminate.
Defined.

(** X6.  Fit to height (lines 101-106), for image sides from 1 to
    [2 ^ 24] and box sides from 1 to [2 ^ 13], a stretch of 1, no cell of
    size 2 and no integer upscaling (this is [plain_fit]), outside the
    early return: the target is exactly as high as the box, and its width
    is the image width scaled by box height over image height, to within
    one pixel.  The scaled width is assumed to be at most [2 ^ 14]. *)
Theorem fill_height_proportional :
  forall (iw ih : Z) (o : DisplayOptions) (rot : bool),
    plain_fit iw ih o ->
    fill_width (working_options o rot) = false ->
    fill_height (working_options o rot) = true ->
    no_scaling_needed (working_options o rot) iw ih = false ->
    box_height o rot * iw <= 2 ^ 14 * ih ->
    let r := CalcScaleToFitDisplay iw ih o rot in
    target_height r = box_height o rot
    /\ proportional (target_width r) (box_height o rot) iw ih.
Proof.
  intros iw ih o rot Hp Hfw Hfh Hno Hprop r. unfold r.
  destruct (plain_fit_working iw ih o rot Hp)
    as (HW & HH & Ew & Eh & Fwf & Fhf).
  pose proof Hp as (Hiw & Hih & _).
  destruct (scaled_proportional _ _ _ HH Hih Hiw Hprop) as [Hle Hpr].
  destruct (scaled_side_value _ _ iw Fhf (fraction_nonneg _ _ HH Hih) Hiw Hle)
    as [Es Bs].
  destruct (plain_fit_result iw ih o rot
              (scaled_side (R32 (inject_Z (box_height o rot) / inject_Z ih)) iw)
              (box_height o rot) Hp Hno) as [Et Eu].
  { unfold fit_by_policy. rewrite Hfw, Hfh. cbn [andb].
    now rewrite Es, Eh. }
  { lia. }
  { unfold small in HH. lia. }
  rewrite Et, Eu. split; [now apply small_max|].
  apply proportional_at_least_one;
    unfold small, moderate in *; try lia; assumption.
Qed.

Lemma fill_height_proportional_witness :
  let r := CalcScaleToFitDisplay 640 480
             (box 80 24 false true false false 1 1) false in
  target_height r = 24 /\ proportional (target_width r) 24 640 480.
Proof.
  apply (fill_height_proportional 640 480
           (box 80 24 false true false false 1 1) false).
  - unfold plain_fit, moderate, small. cbn.
    repeat split; try lia; discriminate.
  - reflexivity.
  - reflexivity.
  - vm_compute. reflexivity.
  - vm_compute. discriminate.
Defined.

(** X7.  With both fill flags and upscaling (lines 91-100), for image
    sides from 1 to [2 ^ 24] and box sides from 1 to [2 ^ 13], a stretch
    of 1, no cell of size 2 and no integer upscaling (this is
    [plain_fit]): the target covers the box, each side at least the
    box's; one side equals the box's and the other is the image's side
    scaled in proportion, to within one pixel.  Both scaled sides are
    assumed to be at most [2 ^ 14]. *)
Theorem fill_both_covers_box :
  forall (iw ih : Z) (o : DisplayOptions) (rot : bool),
    plain_fit iw ih o ->
    fill_width o = true -> fill_height o = true -> upscale o = true ->
    box_width o rot * ih <= 2 ^ 14 * iw ->
    box_height o rot * iw <= 2 ^ 14 * ih ->
    let r := CalcScaleToFitDisplay iw ih o rot in
    box_width o rot <= target_width r
    /\ box_height o rot <= target_height r
    /\ ((target_width r = box_width o rot
         /\ proportional (target_height r) (box_width o rot) ih iw)
        \/ (target_height r = box_height o rot
            /\ proportional (target_width r) (box_height o rot) iw ih)).
Proof.
  intros iw ih o rot Hp Hfw Hfh Hup Hpw Hph r. unfold r.
  destruct (plain_fit_working iw ih o rot Hp)
    as (HW & HH & Ew & Eh & Fwf & Fhf).
  pose proof Hp as (Hiw & Hih & _).
  destruct (working_options_fields o rot) as (_ & _ & Eup & _ & Efw & Efh).
  assert (Efw' : fill_width (working_options o rot) = true)
    by (rewrite Efw; destruct rot; assumption).
  assert (Efh' : fill_height (working_options o rot) = true)
    by (rewrite Efh; destruct rot; assumption).
  assert (Hno : no_scaling_needed (working_options o rot) iw ih = false)
    by (unfold no_scaling_needed; now rewrite Eup, Hup).
  set (wf := R32 (inject_Z (box_width o rot) / inject_Z iw)) in *.
  set (hf := R32 (inject_Z (box_height o rot) / inject_Z ih)) in *.
  pose proof (fraction_nonneg _ _ HW Hiw) as Hwf0. fold wf in Hwf0.
  pose proof (fraction_nonneg _ _ HH Hih) as Hhf0. fold hf in Hhf0.
  destruct (scaled_proportional _ _ _ HW Hiw Hih Hpw) as [Lw Pw].
  destruct (scaled_proportional _ _ _ HH Hih Hiw Hph) as [Lh Ph].
  fold wf in Lw, Pw. fold hf in Lh, Ph.
  assert (Lww : (wf * inject_Z iw <= 32768)%Q).
  { apply Qle_trans with 16384%Q; [|discriminate].
    apply (fraction_times_side wf (box_width o rot) iw);
      [unfold small in HW; lia | assumption | assumption | apply Qle_refl]. }
  assert (Lhh : (hf * inject_Z ih <= 32768)%Q).
  { apply Qle_trans with 16384%Q; [|discriminate].
    apply (fraction_times_side hf (box_height o rot) ih);
      [unfold small in HH; lia | assumption | assumption | apply Qle_refl]. }
  pose proof (scaled_side_reaches _ _ HW Hiw) as Rw. fold wf in Rw.
  pose proof (scaled_side_reaches _ _ HH Hih) as Rh. fold hf in Rh.
  destruct (fgt (width_fraction (working_options o rot) iw)
              (height_fraction (working_options o rot) ih)) eqn:E.
  - (* the width fraction is the larger one *)
    apply (fgt_spec _ _ wf hf Fwf Fhf) in E.
    destruct (scaled_side_value _ _ iw Fwf Hwf0 Hiw Lww) as [Ea Ba].
    destruct (scaled_side_value _ _ ih Fwf Hwf0 Hih Lw) as [Eb Bb].
    destruct (plain_fit_result iw ih o rot (scaled_side wf iw)
                (scaled_side wf ih) Hp Hno) as [Et Eu].
    { unfold fit_by_policy. rewrite Efw', Efh'. cbn [andb].
      replace (fgt (width_fraction (working_options o rot) iw)
                 (height_fraction (working_options o rot) ih)) with true
        by (symmetry; now apply (fgt_spec _ _ wf hf Fwf Fhf)).
      now rewrite Ea, Eb. }
    { lia. }
    { lia. }
    assert (Hcov : box_height o rot <= scaled_side wf ih).
    { rewrite <- Rh. apply scaled_side_le; [assumption | lra | assumption]. }
    rewrite Et, Eu, Rw, small_max by assumption.
    split; [lia|]. split; [lia|]. left. split; [reflexivity|].
    apply proportional_at_least_one;
      unfold small, moderate in *; try lia; assumption.
  - (* the height fraction is *)
    assert (Hle : (wf <= hf)%Q).
    { apply Qnot_lt_le. intro H.
      apply (fgt_spec _ _ wf hf Fwf Fhf) in H. congruence. }
    destruct (scaled_side_value _ _ iw Fhf Hhf0 Hiw Lh) as [Ea Ba].
    destruct (scaled_side_value _ _ ih Fhf Hhf0 Hih Lhh) as [Eb Bb].
    destruct (plain_fit_result iw ih o rot (scaled_side hf iw)
                (scaled_side hf ih) Hp Hno) as [Et Eu].
    { unfold fit_by_policy. rewrite Efw', Efh'. cbn [andb].
      rewrite E. now rewrite Ea, Eb. }
    { lia. }
    { lia. }
    assert (Hcov : box_width o rot <= scaled_side hf iw).
    { rewrite <- Rw. apply scaled_side_le; assumption. }
    rewrite Et, Eu, Rh, (small_max _ HH).
    split; [lia|]. split; [lia|]. right. split; [reflexivity|].
    apply proportional_at_least_one;
      unfold small, moderate in *; try lia; assumption.
Qed.

Lemma fill_both_covers_box_witness :
  let r := CalcScaleToFitDisplay 640 480
             (box 80 24 true true true false 1 1) false in
  80 <= target_width r /\ 24 <= target_height r
  /\ ((target_width r = 80 /\ proportional (target_height r) 80 480 640)
      \/ (target_height r = 24 /\ proportional (target_width r) 24 640 480)).
Proof.
  apply (fill_both_covers_box 640 480
           (box 80 24 true true true false 1 1) false).
  - unfold plain_fit, moderate, small. cbn.
    repeat split; try lia; discriminate.
  - reflexivity.
  - reflexivity.
  - reflexivity.
  - vm_compute. discriminate.
  - vm_compute. discriminate.
Defined.

(** X8.  The letterbox fit (lines 111-118), for image sides from 1 to
    [2 ^ 24] and box sides from 1 to [2 ^ 13], a stretch of 1, no cell of
    size 2 and no integer upscaling (this is [plain_fit]), outside the
    early return, upscaling or not: one target side equals the box's, the
    other does not exceed the box's and is the image's side scaled in the
    same proportion, to within one pixel. *)
Theorem letterbox_proportional :
  forall (iw ih : Z) (o : DisplayOptions) (rot : bool),
    plain_fit iw ih o ->
    fill_width o = false -> fill_height o = false ->
    no_scaling_needed (working_options o rot) iw ih = false ->
    let r := CalcScaleToFitDisplay iw ih o rot in
    (target_width r = box_width o rot
     /\ target_height r <= box_height o rot
     /\ proportional (target_height r) (box_width o rot) ih iw)
    \/ (target_height r = box_height o rot
        /\ target_width r <= box_width o rot
        /\ proportional (target_width r) (box_height o rot) iw ih).
Proof.
  intros iw ih o rot Hp Hfw Hfh Hno r. unfold r.
  destruct (plain_fit_working iw ih o rot Hp)
    as (HW & HH & Ew & Eh & Fwf & Fhf).
  pose proof Hp as (Hiw & Hih & _).
  destruct (working_options_fields o rot) as (_ & _ & _ & _ & Efw & Efh).
  assert (Efw' : fill_width (working_options o rot) = false)
    by (rewrite Efw; destruct rot; assumption).
  assert (Efh' : fill_height (working_options o rot) = false)
    by (rewrite Efh; destruct rot; assumption).
  set (wf := R32 (inject_Z (box_width o rot) / inject_Z iw)) in *.
  set (hf := R32 (inject_Z (box_height o rot) / inject_Z ih)) in *.
  pose proof (fraction_nonneg _ _ HW Hiw) as Hwf0. fold wf in Hwf0.
  pose proof (fraction_nonneg _ _ HH Hih) as Hhf0. fold hf in Hhf0.
  assert (HW13 : 0 <= box_width o rot <= 2 ^ 13) by (unfold small in HW; lia).
  assert (HH13 : 0 <= box_height o rot <= 2 ^ 13) by (unfold small in HH; lia).
  assert (Lww : (wf * inject_Z iw <= 32768)%Q).
  { apply Qle_trans with 16384%Q; [|discriminate].
    apply (fraction_times_side wf (box_width o rot) iw);
      [assumption | assumption | assumption | apply Qle_refl]. }
  assert (Lhh : (hf * inject_Z ih <= 32768)%Q).
  { apply Qle_trans with 16384%Q; [|discriminate].
    apply (fraction_times_side hf (box_height o rot) ih);
      [assumption | assumption | assumption | apply Qle_refl]. }
  pose proof (scaled_side_reaches _ _ HW Hiw) as Rw. fold wf in Rw.
  pose proof (scaled_side_reaches _ _ HH Hih) as Rh. fold hf in Rh.
  destruct (flt (width_fraction (working_options o rot) iw)
              (height_fraction (working_options o rot) ih)) eqn:E.
  - (* the width limits *)
    pose proof E as Hlt. apply (flt_spec _ _ wf hf Fwf Fhf) in Hlt.
    assert (Hcross : box_width o rot * ih <= 2 ^ 14 * iw).
    { pose proof (fraction_lt_cross (box_width o rot) iw (box_height o rot) ih
                    ltac:(lia) ltac:(lia) Hiw Hih Hlt).
      unfold moderate in *. nia. }
    destruct (scaled_proportional _ _ _ HW Hiw Hih Hcross) as [Lw Pw].
    fold wf in Lw, Pw.
    destruct (scaled_side_value _ _ iw Fwf Hwf0 Hiw Lww) as [Ea Ba].
    destruct (scaled_side_value _ _ ih Fwf Hwf0 Hih Lw) as [Eb Bb].
    destruct (plain_fit_result iw ih o rot (scaled_side wf iw)
                (scaled_side wf ih) Hp Hno) as [Et Eu].
    { unfold fit_by_policy. rewrite Efw', Efh'. cbn [andb].
      rewrite E. now rewrite Ea, Eb. }
    { lia. }
    { lia. }
    assert (Hin : scaled_side wf ih <= box_height o rot).
    { apply scaled_le_box; [assumption | assumption | assumption|].
      fold hf. lra. }
    rewrite Et, Eu, Rw, small_max by assumption.
    left. split; [reflexivity|]. split; [unfold small in HH; lia|].
    apply proportional_at_least_one;
      unfold small, moderate in *; try lia; assumption.
  - (* the height limits *)
    assert (Hle : (hf <= wf)%Q).
    { apply Qnot_lt_le. intro H.
      apply (flt_spec _ _ wf hf Fwf Fhf) in H. congruence. }
    assert (Hcross : box_height o rot * iw <= 2 ^ 14 * ih).
    { pose proof (fraction_le_cross (box_width o rot) iw (box_height o rot) ih
                    HW HH Hiw Hih Hle).
      unfold small, moderate in *. nia. }
    destruct (scaled_proportional _ _ _ HH Hih Hiw Hcross) as [Lh Ph].
    fold hf in Lh, Ph.
    destruct (scaled_side_value _ _ iw Fhf Hhf0 Hiw Lh) as [Ea Ba].
    destruct (scaled_side_value _ _ ih Fhf Hhf0 Hih Lhh) as [Eb Bb].
    destruct (plain_fit_result iw ih o rot (scaled_side hf iw)
                (scaled_side hf ih) Hp Hno) as [Et Eu].
    { unfold fit_by_policy. rewrite Efw', Efh'. cbn [andb].
      rewrite E. now rewrite Ea, Eb. }
    { lia. }
    { lia. }
    assert (Hin : scaled_side hf iw <= box_width o rot).
    { apply scaled_le_box; [assumption | assumption | assumption|].
      fold wf. exact Hle. }
    rewrite Et, Eu, Rh, (small_max _ HH).
    right. split; [reflexivity|]. split; [unfold small in HW; lia|].
    apply proportional_at_least_one;
      unfold small, moderate in *; try lia; assumption.
Qed.

Lemma letterbox_proportional_witness :
  let r := CalcScaleToFitDisplay 640 480
             (box 80 24 false false true false 1 1) false in
  (target_width r = 80 /\ target_height r <= 24
   /\ proportional (target_height r) 80 480 640)
  \/ (target_height r = 24 /\ target_width r <= 80
      /\ proportional (target_width r) 24 640 480).
Proof.
  apply (letterbox_proportional 640 480
           (box 80 24 false false true false 1 1) false).
  - unfold plain_fit, moderate, small. cbn.
    repeat split; try lia; discriminate.
  - reflexivity.
  - reflexivity.
  - vm_compute. reflexivity.
Defined.

(** ** Base names and templates *)

Lemma is_separator_dec (c : ascii) : {is_separator c} + {~ is_separator c}.
Proof.
  unfold is_separator.
  destruct (ascii_dec c "/"%char); [left; now left|].
  destruct (ascii_dec c "\"%char); [left; now right|].
  right. tauto.
Qed.

(** A name has no separator, or it splits at its last one. *)
Lemma last_separator (s : text) :
  Forall (fun c => ~ is_separator c) s
  \/ exists dir c name,
       s = dir ++ c :: name /\ is_separator c
       /\ Forall (fun c => ~ is_separator c) name.
Proof.
  induction s as [|x s IH]; [left; constructor|].
  destruct IH as [Hs | (dir & c & name & -> & Hc & Hname)].
  - destruct (is_separator_dec x) as [Hx|Hx].
    + right. exists [], x, s. repeat split; assumption.
    + left. now constructor.
  - right. exists (x :: dir), c, name. repeat split; assumption.
Qed.

(** X9.  [Basename] returns the longest suffix of the file name that
    holds neither a slash nor a backslash: what is cut off is empty or
    ends in a separator, and what is kept has none.  Hence a name that
    ends in a separator has an empty base name, and taking the base name
    twice changes nothing. *)
Theorem Basename_longest_suffix :
  forall filename : text,
    (exists dir,
        filename = dir ++ Basename filename
        /\ (dir = [] \/ exists d c, dir = d ++ [c] /\ is_separator c))
    /\ Forall (fun c => ~ is_separator c) (Basename filename)
    /\ Basename (Basename filename) = Basename filename.
Proof.
  intro filename.
  destruct (last_separator filename)
    as [Hs | (dir & c & name & -> & Hc & Hname)].
  - rewrite !Basename_whole by (rewrite ?Basename_whole; assumption).
    split; [|split; [assumption | reflexivity]].
    exists []. split; [reflexivity | now left].
  - rewrite Basename_after_last by assumption.
    split; [|split; [assumption | now apply Basename_whole]].
    exists (dir ++ [c]). rewrite <- app_assoc. split; [reflexivity|].
    right. exists dir, c. split; [reflexivity | assumption].
Qed.

Section Templates.
Variables (filename decoder : text) (orig_width orig_height : Z).

Let E (t : text) : text :=
  Expand t filename orig_width orig_height decoder.

Lemma Expand_escape (s t : text) : E (escape_percent s ++ t) = s ++ E t.
Proof.
  induction s as [|c s IH]; [reflexivity|].
  unfold escape_percent. cbn [flat_map]. fold (escape_percent s).
  destruct (Ascii.eqb c "%") eqn:Hc.
  - apply Ascii.eqb_eq in Hc. subst c. cbn [app]. unfold E. cbn.
    fold (E (escape_percent s ++ t)). now rewrite IH.
  - cbn [app]. unfold E. cbn [Expand]. rewrite Hc.
    fold (E (escape_percent s ++ t)). now rewrite IH.
Qed.

Lemma Expand_app (a b : text) :
  pending_percent a = false -> E (a ++ b) = E a ++ E b.
Proof.
  remember (List.length a) as n eqn:Hn. revert a Hn.
  induction n as [n IH] using lt_wf_ind. intros a Hn Hp.
  destruct a as [|c a]; [reflexivity|].
  cbn [pending_percent] in Hp. unfold E. cbn [app Expand].
  destruct (Ascii.eqb c "%") eqn:Hc.
  - destruct a as [|d a]; [discriminate|]. cbn [app].
    fold (E (a ++ b)) (E a).
    rewrite (IH (List.length a));
      [now rewrite app_assoc | | reflexivity | exact Hp].
    subst n. simpl. lia.
  - fold (E (a ++ b)) (E a).
    rewrite (IH (List.length a)); [reflexivity | | reflexivity | exact Hp].
    subst n. simpl. lia.
Qed.

End Templates.

Lemma escape_percent_plain (s : text) :
  ~ In "%"%char s -> escape_percent s = s.
Proof.
  induction s as [|c s IH]; intro H; [reflexivity|].
  unfold escape_percent. cbn [flat_map]. fold (escape_percent s).
  destruct (Ascii.eqb c "%") eqn:Hc.
  - apply Ascii.eqb_eq in Hc. subst c. exfalso. apply H. now left.
  - cbn [app]. rewrite IH; [reflexivity|]. intro Hin. apply H. now right.
Qed.

(** X10.  Every text can be written literally in a template by doubling
    its percent signs: the doubled text expands to the text itself, in
    front of whatever the rest of the template expands to.  A template
    without a percent sign expands to itself. *)
Theorem FormatFromParameters_escape :
  forall (filename decoder : text) (w h : Z) (s t : text),
    let F x := FormatFromParameters x filename w h decoder in
    F (escape_percent s ++ t) = s ++ F t
    /\ F (escape_percent s) = s
    /\ (~ In "%"%char s -> F s = s).
Proof.
  intros filename decoder w h s t F.
  assert (H : forall u, F (escape_percent s ++ u) = s ++ F u).
  { intro u. unfold F. rewrite !FormatFromParameters_Expand.
    apply Expand_escape. }
  split; [apply H|].
  assert (H0 : F (escape_percent s) = s).
  { rewrite <- (app_nil_r (escape_percent s)), H.
    unfold F. rewrite FormatFromParameters_Expand. apply app_nil_r. }
  split; [exact H0|].
  intro Hs. rewrite <- (escape_percent_plain s Hs) at 1. exact H0.
Qed.

Lemma FormatFromParameters_escape_witness :
  FormatFromParameters (str "cat.png") (str "f") 1 2 (str "d") = str "cat.png".
Proof.
  apply (proj2 (proj2 (FormatFromParameters_escape (str "f") (str "d") 1 2
                         (str "cat.png") []))).
  simpl. intuition discriminate.
Defined.

(** X11.  Templates concatenate: when a scan of [a] does not end on a
    percent sign that still waits for its character, the expansion of
    [a ++ b] is the expansion of [a] followed by that of [b]. *)
Theorem FormatFromParameters_app :
  forall (filename decoder : text) (w h : Z) (a b : text),
    let F x := FormatFromParameters x filename w h decoder in
    pending_percent a = false -> F (a ++ b) = F a ++ F b.
Proof.
  intros filename decoder w h a b F Hp. unfold F.
  rewrite !FormatFromParameters_Expand. now apply Expand_app.
Qed.

Lemma FormatFromParameters_app_witness :
  FormatFromParameters (str "%b: " ++ str "%wx%h") (str "d/cat.png") 3 4 []
  = FormatFromParameters (str "%b: ") (str "d/cat.png") 3 4 []
    ++ FormatFromParameters (str "%wx%h") (str "d/cat.png") 3 4 [].
Proof.
  apply (FormatFromParameters_app (str "d/cat.png") [] 3 4 (str "%b: ")
           (str "%wx%h")).
  reflexivity.
Defined.

(** ** What the factory tries and what it reports *)

Lemma equal_nocase_iff (a b : text) :
  equal_nocase a b = true <-> map to_lower a = map to_lower b.
Proof.
  revert b. induction a as [|x a IH]; intros [|y b]; simpl;
    try (split; [reflexivity || discriminate | reflexivity || discriminate]).
  rewrite andb_true_iff, Ascii.eqb_eq, IH. split.
  - intros [-> ->]. reflexivity.
  - intro H. injection H as H1 H2. split; assumption.
Qed.

Lemma has_suffix_nocase_iff (filename suffix : text) :
  has_suffix_nocase filename suffix = true <-> ends_with_nocase filename suffix.
Proof.
  unfold has_suffix_nocase, ends_with_nocase.
  destruct (Nat.ltb_spec (List.length filename) (List.length suffix))
    as [Hlt|Hge].
  - split; [discriminate|].
    intros (stem & tail & -> & Hm).
    apply (f_equal (@List.length ascii)) in Hm. rewrite !length_map in Hm.
    rewrite length_app in Hlt. lia.
  - rewrite equal_nocase_iff. split.
    + intro H.
      exists (firstn (List.length filename - List.length suffix) filename),
             (skipn (List.length filename - List.length suffix) filename).
      split; [symmetry; apply firstn_skipn | exact H].
    + intros (stem & tail & -> & Hm).
      assert (Hl : List.length tail = List.length suffix).
      { apply (f_equal (@List.length ascii)) in Hm.
        now rewrite !length_map in Hm. }
      rewrite length_app, Hl.
      replace (List.length stem + List.length suffix - List.length suffix)%nat
        with (List.length stem + 0)%nat by lia.
      rewrite skipn_app, Nat.add_0_r, skipn_all.
      replace (List.length stem - List.length stem)%nat with 0%nat by lia.
      exact Hm.
Qed.

Lemma text_eqb_eq (a b : text) : text_eqb a b = true <-> a = b.
Proof.
  unfold text_eqb. destruct (list_eq_dec ascii_dec a b); split;
    congruence.
Qed.

(** X12.  In a build with the video decoder, when every decoder tried
    declines standard input, named ["-"] or ["/dev/stdin"], the error
    text is the hint to use [-V] and nothing else: line 241 assigns, so
    what the caller had put there and what [stat] said of [/dev/stdin]
    are dropped. *)
Theorem Create_stdin_hint :
  forall (cfg : BuildConfig) (w : World) (filename : text) (ai av : bool)
         (error : text),
    WITH_TIMG_VIDEO cfg = true ->
    Forall (fun b => LoadAndScale w b = false) (candidates cfg ai av) ->
    filename = str "-" \/ filename = str "/dev/stdin" ->
    let r := Create cfg w filename ai av error in
    handle r = None /\ error_text r = stdin_hint.
Proof.
  intros cfg w filename ai av error Hv Hall Hname r. unfold r.
  rewrite Create_try_candidates, try_backends_declined by assumption.
  cbn [handle error_text]. split; [reflexivity|].
  unfold diagnose. rewrite Hv.
  replace (text_eqb filename (str "-") || text_eqb filename (str "/dev/stdin"))
    with true; [reflexivity|].
  symmetry. apply orb_true_iff.
  destruct Hname as [->| ->]; [left | right]; reflexivity.
Qed.

Lemma Create_stdin_hint_witness :
  error_text (Create jpeg_and_stb missing_file (str "/dev/stdin") true true
                (str "earlier: "))
  = stdin_hint.
Proof.
  apply (Create_stdin_hint jpeg_and_stb missing_file (str "/dev/stdin") true
           true (str "earlier: ")).
  - reflexivity.
  - repeat constructor.
  - right. reflexivity.
Defined.

(** X13.  In a build without the video decoder, when every decoder tried
    declines, the error text came in empty and the file gave no reason
    itself (it is ["-"], or an existing readable non-directory): the
    error text becomes the file name and "looks like a video file ..."
    if the name ends in one of [.mov .mp4 .mkv .avi .wmv .webm], letter
    case apart, and stays empty otherwise. *)
Theorem Create_video_suffix :
  forall (cfg : BuildConfig) (w : World) (filename : text) (ai av : bool),
    WITH_TIMG_VIDEO cfg = false ->
    Forall (fun b => LoadAndScale w b = false) (candidates cfg ai av) ->
    filename = str "-" \/ (stat w = StatOk false /\ access_R_OK w = AccessOk) ->
    let r := Create cfg w filename ai av [] in
    handle r = None
    /\ ((exists suffix,
            In suffix video_suffixes /\ ends_with_nocase filename suffix) ->
        error_text r = filename ++ video_hint)
    /\ ((forall suffix,
            In suffix video_suffixes -> ~ ends_with_nocase filename suffix) ->
        error_text r = []).
Proof.
  intros cfg w filename ai av Hv Hall Hfile r. unfold r.
  rewrite Create_try_candidates, try_backends_declined by assumption.
  cbn [handle error_text]. split; [reflexivity|].
  assert (E : diagnose cfg w filename []
              = if existsb (has_suffix_nocase filename) video_suffixes
                then filename ++ video_hint else []).
  { unfold diagnose. rewrite Hv.
    destruct Hfile as [->|[Hs Ha]].
    - reflexivity.
    - rewrite Hs, Ha. destruct (negb _); reflexivity. }
  rewrite E. split.
  - intros (suffix & Hin & Hends).
    replace (existsb (has_suffix_nocase filename) video_suffixes) with true;
      [reflexivity|].
    symmetry. apply existsb_exists. exists suffix.
    split; [exact Hin | now apply has_suffix_nocase_iff].
  - intro Hnone.
    destruct (existsb _ _) eqn:Hex; [|reflexivity].
    apply existsb_exists in Hex. destruct Hex as (suffix & Hin & Hs).
    exfalso. apply (Hnone suffix Hin). now apply has_suffix_nocase_iff.
Qed.

Lemma Create_video_suffix_witness :
  error_text (Create no_video unknown_format (str "Clip.MP4") true true [])
  = str "Clip.MP4" ++ video_hint.
Proof.
  apply (Create_video_suffix no_video unknown_format (str "Clip.MP4") true
           true).
  - reflexivity.
  - repeat constructor.
  - right. split; reflexivity.
  - exists (str ".mp4"). split.
    + right. left. reflexivity.
    + exists (str "Clip"), (str ".MP4"). split; reflexivity.
Defined.

Lemma try_backends_sound (w : World) (l : list Backend) :
  forall tried,
    exists done rest,
      l = done ++ rest
      /\ snd (try_backends w l tried) = tried ++ done
      /\ match fst (try_backends w l tried) with
         | Some b =>
             LoadAndScale w b = true
             /\ exists pre, done = pre ++ [b]
                            /\ Forall (fun x => LoadAndScale w x = false) pre
         | None =>
             rest = [] /\ Forall (fun x => LoadAndScale w x = false) done
         end.
Proof.
  induction l as [|x l IH]; intro tried; simpl.
  - exists [], []. cbn [fst snd].
    split; [reflexivity|]. split; [symmetry; apply app_nil_r|].
    split; [reflexivity | constructor].
  - destruct (LoadAndScale w x) eqn:Hx.
    + exists [x], l. cbn [fst snd]. repeat split; [exact Hx|].
      exists []. split; [reflexivity | constructor].
    + destruct (IH (tried ++ [x])) as (done & rest & -> & Hs & Hf).
      exists (x :: done), rest. rewrite Hs, <- app_assoc.
      split; [reflexivity|]. split; [reflexivity|].
      destruct (fst (try_backends w (done ++ rest) (tried ++ [x]))) as [b|].
      * destruct Hf as (Hb & pre & -> & Hpre). split; [exact Hb|].
        exists (x :: pre). split; [reflexivity | now constructor].
      * destruct Hf as (-> & Hd). split; [reflexivity | now constructor].
Qed.

(** X14.  The decoders [Create] has tried are an initial stretch of its
    candidates, each tried once.  It returns no handle exactly when every
    candidate declines; a handle it returns is of the decoder tried last,
    which accepted after all before it had declined.  Without image
    loading only the video decoder is ever tried, and without video
    loading it never is. *)
Theorem Create_attempts_in_order :
  forall (cfg : BuildConfig) (w : World) (filename : text) (ai av : bool)
         (error : text),
    let r := Create cfg w filename ai av error in
    (exists rest, candidates cfg ai av = attempts r ++ rest)
    /\ NoDup (attempts r)
    /\ (handle r = None <->
        Forall (fun b => LoadAndScale w b = false) (candidates cfg ai av))
    /\ (forall b,
           handle r = Some b ->
           LoadAndScale w b = true
           /\ exists pre,
                attempts r = pre ++ [b]
                /\ Forall (fun x => LoadAndScale w x = false) pre)
    /\ (ai = false -> forall b, In b (attempts r) -> b = VideoSource)
    /\ (av = false -> ~ In VideoSource (attempts r)).
Proof.
  intros cfg w filename ai av error r.
  destruct (try_backends_sound w (candidates cfg ai av) [])
    as (done & rest & Hc & Hs & Hf).
  assert (Hr : attempts r = done
               /\ handle r = fst (try_backends w (candidates cfg ai av) [])).
  { unfold r. rewrite Create_try_candidates.
    destruct (try_backends w (candidates cfg ai av) []) as [[b|] t];
      cbn [fst snd attempts handle] in *; now subst. }
  destruct Hr as [Ha Hh]. rewrite Ha, Hh. clear Ha Hh.
  assert (Hnd := candidates_NoDup cfg ai av).
  assert (Hin : forall b, In b done -> In b (candidates cfg ai av)).
  { intros b Hb. rewrite Hc. apply in_or_app. now left. }
  split; [exists rest; exact Hc|].
  split; [rewrite Hc in Hnd; now apply NoDup_app_remove_r in Hnd|].
  split; [|split; [|split]].
  - destruct (fst (try_backends w (candidates cfg ai av) [])) as [b|].
    + destruct Hf as (Hb & pre & -> & _). split; [discriminate|].
      intro Hall. exfalso. rewrite Forall_forall in Hall.
      specialize (Hall b (Hin b ltac:(apply in_or_app; right; now left))).
      congruence.
    + destruct Hf as (-> & Hd). split; [|reflexivity].
      intros _. rewrite Hc, app_nil_r. exact Hd.
  - intros b Hb.
    destruct (fst (try_backends w (candidates cfg ai av) [])) as [b'|];
      [|discriminate].
    injection Hb as ->. exact Hf.
  - intros -> b Hb. apply Hin in Hb. unfold candidates in Hb. cbn in Hb.
    destruct (WITH_TIMG_VIDEO cfg && av); cbn in Hb; intuition.
  - intros -> Hb. apply Hin in Hb. unfold candidates in Hb.
    rewrite andb_false_r, app_nil_r in Hb.
    destruct ai; [|contradiction].
    unfold image_backends, when in Hb.
    repeat match type of Hb with
           | context [if ?c then _ else _] => destruct c
           end; cbn in Hb; intuition discriminate.
Qed.

Lemma Create_attempts_in_order_witness :
  ~ In VideoSource
      (attempts (Create jpeg_and_stb missing_file (str "x") true false [])).
Proof.
  apply (proj2 (proj2 (proj2 (proj2 (proj2
           (Create_attempts_in_order jpeg_and_stb missing_file (str "x")
              true false [])))))).
  reflexivity.
Defined.

(** ** What the APNG sniffer reads *)

Lemma chunk_advance_nonneg (buf : list Byte.byte) : 0 <= chunk_advance buf.
Proof. unfold chunk_advance. apply Z.mod_pos_bound. lia. Qed.

Lemma pread8_length (bytes : list Byte.byte) (pos : Z) :
  List.length (pread8 bytes pos) = 8%nat ->
  (Z.to_nat pos + 8 <= List.length bytes)%nat.
Proof.
  unfold pread8. rewrite length_firstn, length_skipn. lia.
Qed.

Lemma is_acTL_tag (bytes : list Byte.byte) (pos : Z) :
  is_acTL (pread8 bytes pos) = true ->
  firstn 4 (skipn (Z.to_nat pos + 4) bytes) = acTL.
Proof.
  unfold is_acTL, bytes_eqb, pread8.
  destruct (list_eq_dec _ _ _) as [E|]; [|discriminate]. intros _.
  rewrite skipn_firstn_comm, firstn_firstn, skipn_skipn in E.
  replace (Z.to_nat pos + 4)%nat with (4 + Z.to_nat pos)%nat by lia.
  exact E.
Qed.

Lemma apng_scan_sound (bytes : list Byte.byte) :
  forall fuel pos,
    8 <= pos ->
    apng_scan fuel (Some bytes) pos = Some true ->
    exists p,
      8 <= p < 1024
      /\ (Z.to_nat p + 8 <= List.length bytes)%nat
      /\ firstn 4 (skipn (Z.to_nat p + 4) bytes) = acTL.
Proof.
  induction fuel as [|fuel IH]; intros pos Hpos H; [discriminate|].
  cbn [apng_scan] in H.
  destruct (pos <? 1024) eqn:Hlt; [|discriminate].
  apply Z.ltb_lt in Hlt.
  destruct (List.length (pread8 bytes pos) =? 8)%nat eqn:Hlen;
    cbn [negb] in H; [|discriminate].
  apply Nat.eqb_eq in Hlen.
  destruct (is_acTL (pread8 bytes pos)) eqn:Htag.
  - exists pos. split; [lia|].
    split; [now apply pread8_length | now apply is_acTL_tag].
  - apply IH in H; [exact H|].
    pose proof (chunk_advance_nonneg (pread8 bytes pos)). lia.
Qed.

(** X15.  When [HasAPNGHeader] answers true the file could be opened and
    the four bytes [acTL] stand in it as the type of an eight-byte chunk
    header that lies wholly in the file and starts at an offset from 8 to
    1023. *)
Theorem HasAPNGHeader_sound :
  forall (fuel : nat) (file : FileState),
    HasAPNGHeader fuel file = Some true ->
    exists bytes pos,
      file = Contents bytes
      /\ 8 <= pos < 1024
      /\ (Z.to_nat pos + 8 <= List.length bytes)%nat
      /\ firstn 4 (skipn (Z.to_nat pos + 4) bytes) = acTL.
Proof.
  intros fuel [| |bytes] H.
  - discriminate.
  - destruct fuel; discriminate.
  - destruct (apng_scan_sound bytes fuel 8 ltac:(lia) H) as (p & Hp).
    exists bytes, p. split; [reflexivity | exact Hp].
Qed.

Lemma HasAPNGHeader_sound_witness :
  exists bytes pos,
    Contents wrapping_file = Contents bytes
    /\ 8 <= pos < 1024
    /\ (Z.to_nat pos + 8 <= List.length bytes)%nat
    /\ firstn 4 (skipn (Z.to_nat pos + 4) bytes) = acTL.
Proof.
  apply (HasAPNGHeader_sound 2 (Contents wrapping_file)).
  vm_compute. reflexivity.
Defined.

(** Reads below offset 1024 see the first 1031 bytes only. *)
Lemma pread8_prefix (bytes : list Byte.byte) (pos : Z) :
  0 <= pos < 1024 ->
  pread8 (firstn 1031 bytes) pos = pread8 bytes pos.
Proof.
  intro H. unfold pread8.
  rewrite !firstn_skipn_comm, firstn_firstn.
  replace (Init.Nat.min (Z.to_nat pos + 8) 1031) with (Z.to_nat pos + 8)%nat
    by lia.
  reflexivity.
Qed.

Lemma apng_scan_prefix (a b : list Byte.byte) :
  firstn 1031 a = firstn 1031 b ->
  forall fuel pos,
    0 <= pos ->
    apng_scan fuel (Some a) pos = apng_scan fuel (Some b) pos.
Proof.
  intro Hab. induction fuel as [|fuel IH]; intros pos Hpos; [reflexivity|].
  cbn [apng_scan].
  destruct (pos <? 1024) eqn:Hlt; [|reflexivity].
  apply Z.ltb_lt in Hlt.
  assert (E : pread8 a pos = pread8 b pos).
  { rewrite <- (pread8_prefix a), <- (pread8_prefix b), Hab by lia.
    reflexivity. }
  rewrite E.
  destruct (negb _); [reflexivity|].
  destruct (is_acTL _); [reflexivity|].
  apply IH. pose proof (chunk_advance_nonneg (pread8 b pos)). lia.
Qed.

(** X16.  [HasAPNGHeader] looks at the first 1031 bytes of a file only:
    two files that agree on those get the same answer, or none both. *)
Theorem HasAPNGHeader_first_kibibyte :
  forall (fuel : nat) (a b : list Byte.byte),
    firstn 1031 a = firstn 1031 b ->
    HasAPNGHeader fuel (Contents a) = HasAPNGHeader fuel (Contents b).
Proof.
  intros fuel a b H. unfold HasAPNGHeader, kPngHeaderLen.
  apply apng_scan_prefix; [exact H | lia].
Qed.

Lemma HasAPNGHeader_first_kibibyte_witness :
  HasAPNGHeader 3 (Contents (repeat Byte.x00 1031 ++ acTL))
  = HasAPNGHeader 3 (Contents (repeat Byte.x00 1031)).
Proof.
  apply (HasAPNGHeader_first_kibibyte 3 (repeat Byte.x00 1031 ++ acTL)
           (repeat Byte.x00 1031)).
  vm_compute. reflexivity.
Defined.

(** Reads at offset 8 and beyond do not see the signature. *)
Lemma pread8_after_signature (sig rest : list Byte.byte) (pos : Z) :
  List.length sig = 8%nat -> 8 <= pos ->
  pread8 (sig ++ rest) pos = pread8 rest (pos - 8).
Proof.
  intros Hs Hpos. unfold pread8.
  rewrite skipn_app, Hs.
  rewrite (skipn_all2 sig) by lia. cbn [app].
  replace (Z.to_nat pos - 8)%nat with (Z.to_nat (pos - 8)) by lia.
  reflexivity.
Qed.

Lemma apng_scan_after_signature (sig rest : list Byte.byte) :
  List.length sig = 8%nat ->
  forall fuel pos,
    8 <= pos ->
    apng_scan fuel (Some (sig ++ rest)) pos
    = apng_scan fuel (Some (repeat Byte.x00 8 ++ rest)) pos.
Proof.
  intros Hs. induction fuel as [|fuel IH]; intros pos Hpos; [reflexivity|].
  cbn [apng_scan].
  destruct (pos <? 1024) eqn:Hlt; [|reflexivity].
  rewrite !pread8_after_signature by (assumption || reflexivity).
  destruct (negb _); [reflexivity|].
  destruct (is_acTL _); [reflexivity|].
  apply IH. pose proof (chunk_advance_nonneg (pread8 rest (pos - 8))). lia.
Qed.

(** X17.  [HasAPNGHeader] never looks at the first eight bytes: the PNG
    signature is not checked, and any eight bytes in its place give the
    same answer. *)
Theorem HasAPNGHeader_ignores_signature :
  forall (fuel : nat) (sig sig' rest : list Byte.byte),
    List.length sig = 8%nat -> List.length sig' = 8%nat ->
    HasAPNGHeader fuel (Contents (sig ++ rest))
    = HasAPNGHeader fuel (Contents (sig' ++ rest)).
Proof.
  intros fuel sig sig' rest Hs Hs'. unfold HasAPNGHeader, kPngHeaderLen.
  rewrite (apng_scan_after_signature sig rest Hs) by lia.
  rewrite (apng_scan_after_signature sig' rest Hs') by lia.
  reflexivity.
Qed.

Lemma HasAPNGHeader_ignores_signature_witness :
  HasAPNGHeader 2 (Contents (png_signature ++ skipn 8 wrapping_file))
  = HasAPNGHeader 2 (Contents (repeat Byte.xff 8 ++ skipn 8 wrapping_file)).
Proof.
  apply (HasAPNGHeader_ignores_signature 2 png_signature (repeat Byte.xff 8)
           (skipn 8 wrapping_file)); reflexivity.
Defined.

(** More fuel does not change an answer. *)
Lemma apng_scan_more_fuel (bytes : option (list Byte.byte)) :
  forall fuel fuel' pos b,
    (fuel <= fuel')%nat ->
    apng_scan fuel bytes pos = Some b -> apng_scan fuel' bytes pos = Some b.
Proof.
  induction fuel as [|fuel IH]; intros fuel' pos b Hle H; [discriminate|].
  destruct fuel' as [|fuel']; [lia|].
  cbn [apng_scan] in *.
  destruct (pos <? 1024); [|exact H].
  destruct bytes as [content|]; [|exact H].
  destruct (negb _); [exact H|].
  destruct (is_acTL _); [exact H|].
  apply (IH fuel'); [lia | exact H].
Qed.

Lemma byte_val_bound (b : Byte.byte) : 0 <= byte_val b < 256.
Proof.
  unfold byte_val. pose proof (Byte.to_N_bounded b). lia.
Qed.

Lemma ntohl_prefix_bound (buf : list Byte.byte) :
  0 <= ntohl_prefix buf < 2 ^ 32.
Proof.
  unfold ntohl_prefix.
  destruct buf as [|b0 [|b1 [|b2 [|b3 ?]]]]; try lia.
  pose proof (byte_val_bound b0). pose proof (byte_val_bound b1).
  pose proof (byte_val_bound b2). pose proof (byte_val_bound b3).
  lia.
Qed.

Lemma chunk_advance_positive (buf : list Byte.byte) :
  ntohl_prefix buf <> 2 ^ 32 - 12 -> 1 <= chunk_advance buf.
Proof.
  intro H. unfold chunk_advance.
  pose proof (ntohl_prefix_bound buf) as B.
  destruct (Z_lt_le_dec (ntohl_prefix buf + 12) (2 ^ 32)) as [Hlt|Hge].
  - rewrite Z.mod_small; lia.
  - replace (ntohl_prefix buf + 12)
      with (ntohl_prefix buf + 12 - 2 ^ 32 + 1 * 2 ^ 32) by ring.
    rewrite Z.mod_add by lia. rewrite Z.mod_small; lia.
Qed.

Lemma apng_scan_ends (bytes : list Byte.byte) :
  (forall pos, 8 <= pos < 1024 ->
               ntohl_prefix (pread8 bytes pos) <> 2 ^ 32 - 12) ->
  forall fuel pos,
    8 <= pos -> (1 <= fuel)%nat -> 1024 - pos < Z.of_nat fuel ->
    exists b, apng_scan fuel (Some bytes) pos = Some b.
Proof.
  intro Hlen. induction fuel as [|fuel IH]; intros pos Hpos H1 Hfuel.
  - exfalso. lia.
  - cbn [apng_scan].
    destruct (pos <? 1024) eqn:Hlt; [|now exists false].
    apply Z.ltb_lt in Hlt.
    destruct (negb _); [now exists false|].
    destruct (is_acTL _); [now exists true|].
    pose proof (chunk_advance_positive (pread8 bytes pos)
                  (Hlen pos ltac:(lia))).
    apply IH; lia.
Qed.

(** X18.  The loop of [HasAPNGHeader] ends, within 1017 rounds, on every
    file in which no length field it can read below offset 1024 is
    [0xfffffff4]: any other length moves the offset on by one at least. *)
Theorem HasAPNGHeader_terminates :
  forall file : FileState,
    (forall bytes pos,
        file = Contents bytes -> 8 <= pos < 1024 ->
        ntohl_prefix (pread8 bytes pos) <> 2 ^ 32 - 12) ->
    exists answer,
      forall fuel, (1017 <= fuel)%nat -> HasAPNGHeader fuel file = Some answer.
Proof.
  intros [| |bytes] H.
  - exists false. reflexivity.
  - exists false. intros [|fuel] Hf; [lia | reflexivity].
  - destruct (apng_scan_ends bytes (fun pos => H bytes pos eq_refl) 1017 8)
      as [b Hb]; [lia | lia | lia |].
    exists b. intros fuel Hf. unfold HasAPNGHeader, kPngHeaderLen.
    now apply (apng_scan_more_fuel _ 1017%nat).
Qed.

Lemma HasAPNGHeader_terminates_witness :
  exists answer,
    forall fuel,
      (1017 <= fuel)%nat ->
      HasAPNGHeader fuel
        (Contents (png_signature ++ chunk_bytes ihdr_chunk
                   ++ chunk_bytes actl_chunk))
      = Some answer.
Proof.
  apply (HasAPNGHeader_terminates
           (Contents (png_signature ++ chunk_bytes ihdr_chunk
                      ++ chunk_bytes actl_chunk))).
  intros bytes pos E Hpos. injection E as <-.
  assert (H : forallb
                (fun n =>
                   negb (ntohl_prefix
                           (pread8 (png_signature ++ chunk_bytes ihdr_chunk
                                    ++ chunk_bytes actl_chunk)
                              (Z.of_nat n))
                         =? 2 ^ 32 - 12))
                (seq 8 1016) = true)
    by (vm_compute; reflexivity).
  rewrite forallb_forall in H.
  specialize (H (Z.to_nat pos)).
  rewrite Z2Nat.id in H by lia.
  apply Z.eqb_neq, negb_true_iff, H, in_seq. lia.
Defined.

(** X19.  A file that cannot be opened, cannot be read, or is shorter
    than the signature and one chunk header, 16 bytes, is not an APNG. *)
Theorem HasAPNGHeader_no_chunk :
  forall (fuel : nat) (file : FileState),
    (1 <= fuel)%nat ->
    file = OpenFails \/ file = ReadFails
    \/ (exists bytes,
           file = Contents bytes /\ (List.length bytes < 16)%nat) ->
    HasAPNGHeader fuel file = Some false.
Proof.
  intros [|fuel] file Hf H; [lia|].
  destruct H as [->|[->|(bytes & -> & Hlen)]]; try reflexivity.
  unfold HasAPNGHeader, kPngHeaderLen. cbn [apng_scan].
  replace (8 <? 1024) with true by reflexivity.
  replace (List.length (pread8 bytes 8) =? 8)%nat with false; [reflexivity|].
  symmetry. apply Nat.eqb_neq. unfold pread8.
  rewrite length_firstn, length_skipn. lia.
Qed.

Lemma HasAPNGHeader_no_chunk_witness :
  HasAPNGHeader 1 (Contents png_signature) = Some false.
Proof.
  apply (HasAPNGHeader_no_chunk 1 (Contents png_signature)).
  - lia.
  - right. right. exists png_signature. split; [reflexivity | simpl; lia].
Defined.

(** ** Chunks of a PNG file *)

Lemma byte_val_of_Z (n : Z) : byte_val (byte_of_Z n) = n mod 256.
Proof.
  unfold byte_val, byte_of_Z.
  pose proof (Z.mod_pos_bound n 256 ltac:(lia)) as B.
  destruct (Byte.of_N (Z.to_N (n mod 256))) as [b|] eqn:E.
  - apply Byte.to_of_N in E. rewrite E. lia.
  - apply Byte.of_N_None_iff in E. lia.
Qed.

Lemma ntohl_be32 (n : Z) (rest : list Byte.byte) :
  0 <= n < 2 ^ 32 -> ntohl_prefix (be32 n ++ rest) = n.
Proof.
  intro Hn. unfold be32. cbn [app ntohl_prefix].
  rewrite !byte_val_of_Z.
  change 256 with (2 ^ 8).
  replace (n / 2 ^ 24) with (n / 2 ^ 16 / 2 ^ 8)
    by (rewrite Z.div_div by lia; reflexivity).
  replace (n / 2 ^ 16) with (n / 2 ^ 8 / 2 ^ 8)
    by (rewrite Z.div_div by lia; reflexivity).
  set (a := n / 2 ^ 8). set (b := a / 2 ^ 8). set (c := b / 2 ^ 8).
  pose proof (Z.div_mod n (2 ^ 8) ltac:(lia)) as E0. fold a in E0.
  pose proof (Z.div_mod a (2 ^ 8) ltac:(lia)) as E1. fold b in E1.
  pose proof (Z.div_mod b (2 ^ 8) ltac:(lia)) as E2. fold c in E2.
  pose proof (Z.mod_pos_bound n (2 ^ 8) ltac:(lia)).
  pose proof (Z.mod_pos_bound a (2 ^ 8) ltac:(lia)).
  pose proof (Z.mod_pos_bound b (2 ^ 8) ltac:(lia)).
  assert (Hc : 0 <= c < 2 ^ 8).
  { unfold c, b, a. rewrite !Z.div_div by lia.
    split; [apply Z.div_pos; lia|].
    apply Z.div_lt_upper_bound; lia. }
  rewrite (Z.mod_small c) by lia.
  lia.
Qed.

Lemma be32_length (n : Z) : List.length (be32 n) = 4%nat.
Proof. reflexivity. Qed.

Lemma chunk_bytes_length (c : Chunk) :
  plain_chunk c ->
  Z.of_nat (List.length (chunk_bytes c))
  = Z.of_nat (List.length (chunk_data c)) + 12.
Proof.
  intros (Ht & Hc & _). unfold chunk_bytes.
  rewrite !length_app, be32_length, Ht, Hc. lia.
Qed.

(** The eight bytes read where a chunk starts: its length and its type. *)
Lemma pread8_chunk (before after : list Byte.byte) (c : Chunk) :
  List.length (chunk_type c) = 4%nat ->
  pread8 (before ++ chunk_bytes c ++ after) (Z.of_nat (List.length before))
  = be32 (Z.of_nat (List.length (chunk_data c))) ++ chunk_type c.
Proof.
  intro Ht. unfold pread8, chunk_bytes.
  rewrite Nat2Z.id, skipn_app, skipn_all, Nat.sub_diag. cbn [app skipn].
  set (n := Z.of_nat (List.length (chunk_data c))).
  assert (E : (be32 n ++ chunk_type c ++ chunk_data c ++ chunk_crc c) ++ after
              = (be32 n ++ chunk_type c)
                ++ (chunk_data c ++ chunk_crc c ++ after))
    by (rewrite <- !app_assoc; reflexivity).
  assert (L : List.length (be32 n ++ chunk_type c) = 8%nat)
    by (rewrite length_app, be32_length, Ht; reflexivity).
  rewrite E, <- L, <- (Nat.add_0_r (List.length _)), firstn_app_2.
  apply app_nil_r.
Qed.

Lemma is_acTL_chunk (n : Z) (type : list Byte.byte) :
  List.length type = 4%nat ->
  is_acTL (be32 n ++ type) = bytes_eqb type acTL.
Proof.
  intro Ht. unfold is_acTL, be32. cbn [app skipn].
  rewrite firstn_all2 by lia. reflexivity.
Qed.

Lemma bytes_eqb_false (a b : list Byte.byte) : a <> b -> bytes_eqb a b = false.
Proof.
  intro H. unfold bytes_eqb.
  destruct (list_eq_dec Byte.byte_eq_dec a b); [contradiction | reflexivity].
Qed.

Lemma chunk_advance_chunk (c : Chunk) :
  plain_chunk c ->
  chunk_advance (be32 (Z.of_nat (List.length (chunk_data c))) ++ chunk_type c)
  = Z.of_nat (List.length (chunk_bytes c)).
Proof.
  intro Hc. rewrite chunk_bytes_length by assumption.
  destruct Hc as (_ & _ & _ & Hlen).
  unfold chunk_advance. rewrite ntohl_be32 by lia.
  apply Z.mod_small. lia.
Qed.

(** One round of the loop over a chunk that is not [acTL]. *)
Lemma apng_scan_step (fuel : nat) (before after : list Byte.byte) (c : Chunk) :
  plain_chunk c ->
  Z.of_nat (List.length before) < 1024 ->
  apng_scan (S fuel) (Some (before ++ chunk_bytes c ++ after))
    (Z.of_nat (List.length before))
  = apng_scan fuel (Some ((before ++ chunk_bytes c) ++ after))
      (Z.of_nat (List.length (before ++ chunk_bytes c))).
Proof.
  intros Hc Hpos. pose proof Hc as (Ht & _ & Hne & _).
  cbn [apng_scan].
  apply Z.ltb_lt in Hpos. rewrite Hpos.
  rewrite pread8_chunk by assumption.
  rewrite length_app, be32_length, Ht. cbn [Nat.add Nat.eqb negb].
  rewrite is_acTL_chunk, bytes_eqb_false by assumption.
  rewrite chunk_advance_chunk by assumption.
  rewrite <- app_assoc, length_app, Nat2Z.inj_add. reflexivity.
Qed.

Lemma apng_scan_finds (pre : list Chunk) :
  forall (before after : list Byte.byte) (animation : Chunk),
    Forall plain_chunk pre ->
    chunk_type animation = acTL ->
    Z.of_nat (List.length (before ++ chunks_bytes pre)) < 1024 ->
    apng_scan (S (List.length pre))
      (Some (before ++ chunks_bytes pre ++ chunk_bytes animation ++ after))
      (Z.of_nat (List.length before))
    = Some true.
Proof.
  induction pre as [|c pre IH]; intros before after animation Hpre Ha Hlen.
  - unfold chunks_bytes in *. cbn [map List.concat app] in *.
    rewrite app_nil_r in Hlen.
    cbn [apng_scan]. apply Z.ltb_lt in Hlen. rewrite Hlen.
    rewrite pread8_chunk by (rewrite Ha; reflexivity).
    rewrite length_app, be32_length, Ha.
    cbn [acTL List.length Nat.add Nat.eqb negb].
    rewrite is_acTL_chunk by reflexivity. reflexivity.
  - inversion Hpre as [|? ? Hc Hpre']; subst.
    unfold chunks_bytes in *. cbn [map List.concat] in *.
    fold (chunks_bytes pre) in *.
    rewrite <- app_assoc.
    rewrite length_app, length_app in Hlen.
    cbn [List.length].
    rewrite apng_scan_step; [|assumption|lia].
    apply IH; [assumption | assumption|].
    rewrite !length_app. lia.
Qed.

(** X20.  In a file made of eight bytes of signature and well-formed
    chunks, [HasAPNGHeader] answers true when an [acTL] chunk follows
    chunks of other types and starts below offset 1024; one round of the
    loop per chunk. *)
Theorem HasAPNGHeader_finds_acTL :
  forall (fuel : nat) (signature : list Byte.byte) (pre : list Chunk)
         (animation : Chunk) (after : list Byte.byte),
    List.length signature = 8%nat ->
    Forall plain_chunk pre ->
    chunk_type animation = acTL ->
    Z.of_nat (List.length (signature ++ chunks_bytes pre)) < 1024 ->
    (List.length pre < fuel)%nat ->
    HasAPNGHeader fuel
      (Contents (signature ++ chunks_bytes pre ++ chunk_bytes animation
                 ++ after))
    = Some true.
Proof.
  intros fuel signature pre animation after Hs Hpre Ha Hlen Hfuel.
  unfold HasAPNGHeader, kPngHeaderLen.
  apply (apng_scan_more_fuel _ (S (List.length pre))); [lia|].
  change 8 with (Z.of_nat 8). rewrite <- Hs.
  now apply apng_scan_finds.
Qed.

Lemma apng_scan_misses (chunks : list Chunk) :
  forall before after : list Byte.byte,
    Forall plain_chunk chunks ->
    after = []
    \/ 1024 <= Z.of_nat (List.length (before ++ chunks_bytes chunks)) ->
    apng_scan (S (List.length chunks))
      (Some (before ++ chunks_bytes chunks ++ after))
      (Z.of_nat (List.length before))
    = Some false.
Proof.
  induction chunks as [|c chunks IH]; intros before after Hall Hend.
  - unfold chunks_bytes in *. cbn [map List.concat app List.length] in *.
    cbn [apng_scan].
    destruct (Z.of_nat (List.length before) <? 1024) eqn:Hlt; [|reflexivity].
    apply Z.ltb_lt in Hlt.
    destruct Hend as [->|Hend]; [|rewrite app_nil_r in Hend; lia].
    unfold pread8. rewrite Nat2Z.id, app_nil_r, skipn_all. reflexivity.
  - inversion Hall as [|? ? Hc Hall']; subst.
    unfold chunks_bytes in *. cbn [map List.concat] in *.
    fold (chunks_bytes chunks) in *.
    rewrite <- app_assoc.
    cbn [List.length].
    destruct (Z_lt_le_dec (Z.of_nat (List.length before)) 1024) as [Hlt|Hge].
    + rewrite apng_scan_step; [|assumption|lia].
      apply IH; [assumption|].
      destruct Hend as [->|Hend]; [now left|right].
      rewrite <- app_assoc. exact Hend.
    + cbn [apng_scan]. apply Z.ltb_ge in Hge. now rewrite Hge.
Qed.

(** X21.  In a file made of eight bytes of signature and well-formed
    chunks none of which is [acTL], [HasAPNGHeader] answers false when
    the file ends with them, and also, whatever follows, when they reach
    offset 1024. *)
Theorem HasAPNGHeader_misses_acTL :
  forall (fuel : nat) (signature : list Byte.byte) (chunks : list Chunk)
         (after : list Byte.byte),
    List.length signature = 8%nat ->
    Forall plain_chunk chunks ->
    after = []
    \/ 1024 <= Z.of_nat (List.length (signature ++ chunks_bytes chunks)) ->
    (List.length chunks < fuel)%nat ->
    HasAPNGHeader fuel (Contents (signature ++ chunks_bytes chunks ++ after))
    = Some false.
Proof.
  intros fuel signature chunks after Hs Hall Hend Hfuel.
  unfold HasAPNGHeader, kPngHeaderLen.
  apply (apng_scan_more_fuel _ (S (List.length chunks))); [lia|].
  change 8 with (Z.of_nat 8). rewrite <- Hs.
  now apply apng_scan_misses.
Qed.

Lemma ihdr_chunk_plain : plain_chunk ihdr_chunk.
Proof.
  repeat split; try reflexivity. discriminate.
Qed.

Lemma HasAPNGHeader_finds_acTL_witness :
  HasAPNGHeader 2
    (Contents (png_signature ++ chunks_bytes [ihdr_chunk]
               ++ chunk_bytes actl_chunk ++ []))
  = Some true.
Proof.
  apply (HasAPNGHeader_finds_acTL 2 png_signature [ihdr_chunk] actl_chunk []).
  - reflexivity.
  - constructor; [exact ihdr_chunk_plain | constructor].
  - reflexivity.
  - vm_compute. reflexivity.
  - simpl. lia.
Defined.

Lemma HasAPNGHeader_misses_acTL_witness :
  HasAPNGHeader 2 (Contents (png_signature ++ chunks_bytes [ihdr_chunk] ++ []))
  = Some false.
Proof.
  apply (HasAPNGHeader_misses_acTL 2 png_signature [ihdr_chunk] []).
  - reflexivity.
  - constructor; [exact ihdr_chunk_plain | constructor].
  - left. reflexivity.
  - simpl. lia.
Defined.

(** ** File names of [LooksLikeAPNG] *)

Lemma strlen_no_NUL (s : text) : no_NUL s -> strlen s = List.length s.
Proof.
  induction 1 as [|c s Hc _ IH]; [reflexivity|].
  cbn [strlen List.length].
  destruct (Ascii.eqb c zero) eqn:E; [now apply Ascii.eqb_eq in E|].
  now rewrite IH.
Qed.

Lemma c_str_at_middle (pre tail : text) (c : ascii) :
  c_str_at (pre ++ c :: tail) (Z.of_nat (List.length pre)) = Some c.
Proof.
  unfold c_str_at.
  replace (Z.of_nat (List.length pre) <? 0) with false
    by (symmetry; apply Z.ltb_ge; lia).
  rewrite Nat2Z.id, nth_error_app2, Nat.sub_diag by lia. reflexivity.
Qed.

Lemma c_str_at_end (s : text) :
  c_str_at s (Z.of_nat (List.length s)) = Some zero.
Proof.
  unfold c_str_at.
  replace (Z.of_nat (List.length s) <? 0) with false
    by (symmetry; apply Z.ltb_ge; lia).
  rewrite Nat2Z.id.
  replace (nth_error s (List.length s)) with (@None ascii)
    by (symmetry; apply nth_error_None; lia).
  now rewrite Z.eqb_refl.
Qed.

(** A comparison that starts inside the string, as many characters before
    its end as the ending has, reads within the array and compares the
    tail to the ending. *)
Lemma strcasecmp_tail (ending : text) :
  forall pre tail : text,
    List.length tail = List.length ending ->
    strcasecmp_is0 (pre ++ tail) (Z.of_nat (List.length pre)) ending
    = Some (equal_nocase tail ending).
Proof.
  induction ending as [|e ending IH]; intros pre [|t tail] Hlen;
    try discriminate.
  - rewrite app_nil_r. cbn [strcasecmp_is0]. rewrite c_str_at_end.
    reflexivity.
  - cbn [strcasecmp_is0 equal_nocase]. rewrite c_str_at_middle.
    destruct (Ascii.eqb (to_lower t) (to_lower e)); [|reflexivity].
    cbn [andb].
    replace (pre ++ t :: tail) with ((pre ++ [t]) ++ tail)
      by (rewrite <- app_assoc; reflexivity).
    replace (Z.of_nat (List.length pre) + 1)
      with (Z.of_nat (List.length (pre ++ [t])))
      by (rewrite length_app; cbn [List.length]; lia).
    apply IH. now injection Hlen.
Qed.

Lemma strcasecmp_suffix (filename ending : text) :
  no_NUL filename -> no_NUL ending ->
  (List.length ending <= List.length filename)%nat ->
  strcasecmp_is0 filename (suffix_offset filename ending) ending
  = Some (has_suffix_nocase filename ending).
Proof.
  intros Hf He Hlen. unfold suffix_offset, has_suffix_nocase.
  rewrite !strlen_no_NUL by assumption.
  replace (List.length filename <? List.length ending)%nat with false
    by (symmetry; apply Nat.ltb_ge; exact Hlen).
  set (k := (List.length filename - List.length ending)%nat).
  rewrite <- (firstn_skipn k filename) at 1.
  replace (Z.of_nat (List.length filename) - Z.of_nat (List.length ending))
    with (Z.of_nat (List.length (firstn k filename)))
    by (rewrite length_firstn; lia).
  apply strcasecmp_tail. rewrite length_skipn. lia.
Qed.

(** X22.  For a file name of five characters or more, [LooksLikeAPNG]
    reads inside the name only.  It answers false without opening the
    file when the name ends neither in [.png] nor in [.apng], letter case
    apart, and otherwise answers what [HasAPNGHeader] answers. *)
Theorem LooksLikeAPNG_long_name :
  forall (fuel : nat) (filename : text) (file : FileState),
    no_NUL filename -> (5 <= List.length filename)%nat ->
    (~ ends_with_nocase filename (str ".png")
     /\ ~ ends_with_nocase filename (str ".apng") ->
     LooksLikeAPNG fuel filename file = Done false)
    /\ (forall answer,
           ends_with_nocase filename (str ".png")
           \/ ends_with_nocase filename (str ".apng") ->
           HasAPNGHeader fuel file = Some answer ->
           LooksLikeAPNG fuel filename file = Done answer).
Proof.
  intros fuel filename file Hnul Hlen.
  assert (Hpng : strcasecmp_is0 filename (suffix_offset filename (str ".png"))
                   (str ".png")
                 = Some (has_suffix_nocase filename (str ".png"))).
  { apply strcasecmp_suffix; [assumption | | simpl; lia].
    repeat constructor; discriminate. }
  assert (Hapng : strcasecmp_is0 filename
                    (suffix_offset filename (str ".apng")) (str ".apng")
                  = Some (has_suffix_nocase filename (str ".apng"))).
  { apply strcasecmp_suffix; [assumption | | simpl; lia].
    repeat constructor; discriminate. }
  unfold LooksLikeAPNG. cbn [looks_like_apng_loop]. rewrite Hpng, Hapng.
  split.
  - intros [H1 H2].
    rewrite <- has_suffix_nocase_iff in H1, H2.
    destruct (has_suffix_nocase filename (str ".png")); [now contradict H1|].
    destruct (has_suffix_nocase filename (str ".apng")); [now contradict H2|].
    reflexivity.
  - intros answer Hname Hhdr. rewrite Hhdr.
    rewrite <- !has_suffix_nocase_iff in Hname.
    destruct (has_suffix_nocase filename (str ".png")),
             (has_suffix_nocase filename (str ".apng")), answer;
      try reflexivity; destruct Hname; discriminate.
Qed.

Lemma LooksLikeAPNG_long_name_witness :
  LooksLikeAPNG 2 (str "a.PNG") (Contents wrapping_file) = Done true.
Proof.
  apply (proj2 (LooksLikeAPNG_long_name 2 (str "a.PNG")
                  (Contents wrapping_file)
                  ltac:(repeat constructor; discriminate)
                  ltac:(simpl; lia))).
  - left. exists (str "a"), (str ".PNG"). split; reflexivity.
  - vm_compute. reflexivity.
Defined.

(** X23.  For a file name of exactly four characters the comparison with
    [.png] is in bounds and the one with [.apng] starts one character
    before the name: the call answers true for [.png], letter case apart,
    on a file with an [acTL] header, and reads out of bounds in every
    other case. *)
Theorem LooksLikeAPNG_four_characters :
  forall (fuel : nat) (filename : text) (file : FileState),
    no_NUL filename -> List.length filename = 4%nat ->
    (ends_with_nocase filename (str ".png") ->
     HasAPNGHeader fuel file = Some true ->
     LooksLikeAPNG fuel filename file = Done true)
    /\ (~ ends_with_nocase filename (str ".png")
        \/ HasAPNGHeader fuel file = Some false ->
        LooksLikeAPNG fuel filename file = OutOfBounds).
Proof.
  intros fuel filename file Hnul Hlen.
  assert (Hpng : strcasecmp_is0 filename (suffix_offset filename (str ".png"))
                   (str ".png")
                 = Some (has_suffix_nocase filename (str ".png"))).
  { apply strcasecmp_suffix; [assumption | | simpl; lia].
    repeat constructor; discriminate. }
  assert (Hapng : strcasecmp_is0 filename
                    (suffix_offset filename (str ".apng")) (str ".apng")
                  = None).
  { apply strcasecmp_before_string. unfold suffix_offset.
    rewrite strlen_no_NUL, Hlen by assumption. reflexivity. }
  unfold LooksLikeAPNG. cbn [looks_like_apng_loop]. rewrite Hpng, Hapng.
  split.
  - intros Hname Hhdr. apply has_suffix_nocase_iff in Hname.
    now rewrite Hname, Hhdr.
  - intros [Hname|Hhdr].
    + rewrite <- has_suffix_nocase_iff in Hname.
      destruct (has_suffix_nocase filename (str ".png"));
        [now contradict Hname | reflexivity].
    + rewrite Hhdr. destruct (has_suffix_nocase filename (str ".png"));
        reflexivity.
Qed.

Lemma LooksLikeAPNG_four_characters_witness :
  LooksLikeAPNG 1 (str ".png") (Contents png_signature) = OutOfBounds.
Proof.
  apply (proj2 (LooksLikeAPNG_four_characters 1 (str ".png")
                  (Contents png_signature)
                  ltac:(repeat constructor; discriminate) eq_refl)).
  right. reflexivity.
Defined.
